(** * The reactivity engine of vue-next (effect.ts, baseHandlers.ts,
      computed.ts): a shallow embedding and its properties.

    The embedding follows the TypeScript sources function by function:

    - [track], [trigger], [addRunners], [scheduleRun], [run], [cleanup],
      [stop], [effect], [createReactiveEffect], [pauseTracking],
      [resumeTracking] come from effect.ts;
    - [createGetter], [set], [deleteProperty], [has], [ownKeys] and the
      two handler tables come from baseHandlers.ts;
    - [computed_old] and [trackChildRun] come from the closure based
      computed.ts, [ComputedRefImpl_new], [ComputedRefImpl_get_value],
      [ComputedRefImpl_scheduler] and [computed_new] from the class based
      computed.ts.

    User code (the body of an effect, a getter, a scheduler) is a tree of
    engine calls with continuations, [Body]; the engine threads an explicit
    [State] (heap, dependency store, running stack, flags) and returns a
    [Result] that is a value, a thrown value, or an exhausted recursion
    budget. *)

From stdpp Require Import base decidable option list strings numbers.

Set Default Proof Using "Type".
Set Warnings "-register-all".
Open Scope Z_scope.
Open Scope nat_scope.
Open Scope string_scope.
Open Scope list_scope.

(** ** Identities *)

(** Objects, refs and effects are heap allocated in JavaScript and compared
    by identity; here an identity is the index of the object in its store. *)
Abbreviation Addr := nat (only parsing).
Abbreviation RefId := nat (only parsing).
Abbreviation EffectId := nat (only parsing).
Abbreviation Hook := nat (only parsing).

(** ** Property keys *)

(** A symbol is one of the well-known symbols held by the [Symbol]
    constructor, the engine's own [Symbol('iterate')], or a symbol created
    by user code. *)
Inductive Sym :=
| SymWellKnown (name : string)
| SymIterate
| SymUser (id : nat).

Inductive Key :=
| KStr (s : string)
| KSym (s : Sym).

#[global] Instance Sym_eq_dec : EqDecision Sym.
Proof. solve_decision. Defined.
#[global] Instance Key_eq_dec : EqDecision Key.
Proof. solve_decision. Defined.

(** [export const ITERATE_KEY = Symbol('iterate')] *)
Definition ITERATE_KEY : Key := KSym SymIterate.

(** ** Values *)

Inductive Value :=
| VUndefined
| VNull
| VBool (b : bool)
| VNumber (z : Z)
| VNaN
| VString (s : string)
| VSymbol (s : Sym)
| VObject (a : Addr)              (* a raw object or array *)
| VProxy (a : Addr) (ro : bool)   (* the reactive / readonly Proxy of [a] *)
| VRef (r : RefId)                (* an object carrying [refSymbol] *)
| VEffect (e : EffectId).         (* an effect function *)

#[global] Instance Value_eq_dec : EqDecision Value.
Proof. solve_decision. Defined.

(** JavaScript's [===]: identity on references, value equality on
    primitives, and [NaN === NaN] is false. *)
Definition strict_eq (a b : Value) : bool :=
  match a, b with
  | VNaN, _ | _, VNaN => false
  | _, _ => bool_decide (a = b)
  end.

(** [isObject] of @vue/shared: [val !== null && typeof val === 'object']. *)
Definition isObject (v : Value) : bool :=
  match v with
  | VObject _ | VProxy _ _ | VRef _ => true
  | _ => false
  end.

(** [isRef] of ref.ts: [v ? v[refSymbol] === true : false]. *)
Definition isRef (v : Value) : bool :=
  match v with VRef _ => true | _ => false end.

(** [isSymbol] of @vue/shared, on property keys. *)
Definition isSymbol (k : Key) : bool :=
  match k with KSym _ => true | KStr _ => false end.

(** ** The built-in symbols (baseHandlers.ts, lines 8-12) *)

(** [Object.getOwnPropertyNames(Symbol)]: the own properties of the
    Symbol constructor (function properties, static methods and the
    well-known symbols). *)
Definition Symbol_ownPropertyNames : list string :=
  [ "length"; "name"; "prototype"; "for"; "keyFor";
    "asyncIterator"; "hasInstance"; "isConcatSpreadable"; "iterator";
    "match"; "matchAll"; "replace"; "search"; "species"; "split";
    "toPrimitive"; "toStringTag"; "unscopables" ].

(** [(Symbol as any)[key]]; [None] stands for a non-symbol property (a
    number, a string or a function). *)
Definition Symbol_property (name : string) : option Sym :=
  if bool_decide (name ∈ ["length"; "name"; "prototype"; "for"; "keyFor"])
  then None else Some (SymWellKnown name).

(** [[
const builtInSymbols = new Set(
  Object.getOwnPropertyNames(Symbol)
    .map(key => (Symbol as any)[key])
    .filter(isSymbol))
]] *)
Definition builtInSymbols : list Sym :=
  omap Symbol_property Symbol_ownPropertyNames.

Definition builtInSymbols_has (k : Key) : bool :=
  match k with
  | KSym s => bool_decide (s ∈ builtInSymbols)
  | KStr _ => false
  end.

(** ** operations.ts *)

Inductive OperationTypes :=
| SET | ADD | DELETE | CLEAR | GET | HAS | ITERATE.

#[global] Instance OperationTypes_eq_dec : EqDecision OperationTypes.
Proof. solve_decision. Defined.

(** ** The dependency store *)

(** What [targetMap] is keyed by: a raw object, or a ref object. *)
Inductive Target :=
| TObject (a : Addr)
| TRef (r : RefId).

#[global] Instance Target_eq_dec : EqDecision Target.
Proof. solve_decision. Defined.

(** A [Dep] is created once per (target, key) and is never replaced or
    removed from its [depsMap], so the pair identifies the [Set] object.
    The key of a [depsMap] may be [undefined] ([track] called without a
    key), hence the option. *)
Abbreviation DepId := (Target * option Key)%type.

(** [Set<ReactiveEffect>]: insertion ordered, without duplicates. *)
Abbreviation Dep := (list nat).

(** [Map<string | symbol, Dep>]: insertion ordered. *)
Abbreviation KeyToDepMap := (list (option Key * list nat)).

(** Insertion ordered map operations ([Map.get], [Map.set]). *)
Section alist.
Context {K V : Type} `{EqDecision K}.

Fixpoint alist_get (k : K) (m : list (K * V)) : option V :=
  match m with
  | [] => None
  | (k', v) :: m' => if decide (k = k') then Some v else alist_get k m'
  end.

Fixpoint alist_set (k : K) (v : V) (m : list (K * V)) : list (K * V) :=
  match m with
  | [] => [(k, v)]
  | (k', v') :: m' =>
      if decide (k = k') then (k, v) :: m' else (k', v') :: alist_set k v m'
  end.

Fixpoint alist_delete (k : K) (m : list (K * V)) : list (K * V) :=
  match m with
  | [] => []
  | (k', v') :: m' =>
      if decide (k = k') then m' else (k', v') :: alist_delete k m'
  end.
End alist.

(** [Set.add] and [Set.delete] on an insertion ordered set. *)
Definition set_add (e : EffectId) (s : list EffectId) : list EffectId :=
  if decide (e ∈ s) then s else s ++ [e].

Definition set_delete (e : EffectId) (s : list EffectId) : list EffectId :=
  filter (λ x, x ≠ e) s.

(** ** User code *)

(** Extra information handed to [onTrigger] in development builds. *)
Record ExtraInfo := {
  oldValue : option Value;
  newValue : option Value
}.

(** The closures that the sources install as schedulers, next to an
    arbitrary user scheduler. *)
Inductive Scheduler (B : Type) :=
| SchedUser (f : EffectId → B)       (* [scheduler(run)] given by the user *)
| SchedComputed (c : RefId)          (* [() => { dirty = true }] *)
| SchedComputedImpl (c : RefId).     (* the closure of [ComputedRefImpl] *)
Arguments SchedUser {B} f.
Arguments SchedComputed {B} c.
Arguments SchedComputedImpl {B} c.

(** [ReactiveEffectOptions]. The diagnostic callbacks [onTrack],
    [onTrigger] and [onStop] are opaque sinks: calling one appends an
    event to the log and returns. A callback that throws, or that calls
    back into the engine, is outside the model; where the number of
    executions or the effect of [stop] would depend on what a callback
    does, the property is stated for an effect without that callback. *)
Record ReactiveEffectOptions (B : Type) := {
  opt_lazy : bool;
  opt_computed : bool;
  opt_scheduler : option (Scheduler B);
  opt_onTrack : option Hook;
  opt_onTrigger : option Hook;
  opt_onStop : option Hook
}.
Arguments opt_lazy {B} _.
Arguments opt_computed {B} _.
Arguments opt_scheduler {B} _.
Arguments opt_onTrack {B} _.
Arguments opt_onTrigger {B} _.
Arguments opt_onStop {B} _.

(** A plain object or array: own data properties in insertion order, a
    prototype ([VNull], a raw object or a Proxy) and what
    [Array.isArray] answers. [nonReactive] is the mark left by
    [markNonReactive]. [nonConfigurable] lists the keys whose own
    property was defined with [configurable: false] (by
    [Object.defineProperty], [Object.seal] or [Object.freeze]) and so
    cannot be deleted. *)
Record JSObject := {
  props : list (Key * Value);
  proto : Value;
  isArray : bool;
  nonReactive : bool;
  nonConfigurable : list Key
}.

(** A function body: the engine calls it makes, each with the rest of the
    body as a continuation of the call's result. *)
Inductive Body :=
| Ret (v : Value)
| Throw (v : Value)
| ReflectGet (o : Value) (k : Key) (receiver : Value) (cont : Value → Body)
| ReflectSet (o : Value) (k : Key) (v : Value) (receiver : Value)
    (cont : Value → Body)
| ReflectDelete (o : Value) (k : Key) (cont : Value → Body)
| ReflectHas (o : Value) (k : Key) (cont : Value → Body)
| ReflectOwnKeys (o : Value) (cont : list Key → Body)
| Call (e : EffectId) (cont : Value → Body)
| NewEffect (fn : Body + EffectId) (options : ReactiveEffectOptions Body)
    (cont : EffectId → Body)
| Stop (e : EffectId) (cont : Body)
| PauseTracking (cont : Body)
| ResumeTracking (cont : Body)
| SetLocked (b : bool) (cont : Body)
| NewObject (o : JSObject) (cont : Addr → Body)
| NewRef (v : Value) (cont : RefId → Body)
| NewComputed (getter : Body) (setter : option (Value → Body))
    (cont : RefId → Body)
| NewComputedImpl (getter : Body) (setter : option (Value → Body))
    (debugOptions : option (option Hook * option Hook))
    (cont : RefId → Body)
| TryCatch (b : Body) (handler : Value → Body) (cont : Value → Body).

(** [o[k]] and [o[k] = v] in user code. *)
Definition GetProp (o : Value) (k : Key) (cont : Value → Body) : Body :=
  ReflectGet o k o cont.
Definition SetProp (o : Value) (k : Key) (v : Value) (cont : Body) : Body :=
  ReflectSet o k v o (λ _, cont).

(** [interface ReactiveEffect] *)
Record ReactiveEffect := {
  active : bool;
  raw : Body;
  deps : list DepId;
  computed : bool;
  scheduler : option (Scheduler Body);
  onTrack : option Hook;
  onTrigger : option Hook;
  onStop : option Hook
}.

(** The object returned by the closure based [computed]: its two closure
    variables, its runner and its setter ([None] is the read-only
    setter that warns). *)
Record ComputedObj := {
  dirty : bool;
  value : Value;
  runner : EffectId;
  setter : option (Value → Body)
}.

(** [class ComputedRefImpl] *)
Record ComputedRefImpl := {
  _value : Value;
  _dirty : bool;
  impl_effect : EffectId;
  _setter : option (Value → Body);
  IS_READONLY : bool
}.

Inductive RefObj :=
| PlainRef (inner : Value)
| ComputedOld (c : ComputedObj)
| ComputedImpl (c : ComputedRefImpl).

(** ** Observations *)

(** What the diagnostic callbacks and the console receive, together with
    three ghost events that record when the wrapped function of an effect
    is entered, when the dependencies of an effect are cleared and when a
    read is attributed to an effect. *)
Inductive Event :=
| EvCall (e : EffectId)
| EvCleanup (e : EffectId)
| EvTrack (e : EffectId) (d : DepId)
| EvScheduler (e : EffectId)
| EvOnTrack (h : Hook) (e : EffectId) (t : Target) (ty : OperationTypes)
    (k : option Key)
| EvOnTrigger (h : Hook) (e : EffectId) (t : Target) (ty : OperationTypes)
    (k : option Key) (x : option ExtraInfo)
| EvOnStop (h : Hook) (e : EffectId)
| EvWarn (msg : string).

#[global] Instance ExtraInfo_eq_dec : EqDecision ExtraInfo.
Proof. solve_decision. Defined.
#[global] Instance Event_eq_dec : EqDecision Event.
Proof. solve_decision. Defined.

(** ** The state of the engine *)

Record State := {
  objects : list JSObject;
  refs : list RefObj;
  effects : list ReactiveEffect;
  targetMap : list (Target * KeyToDepMap);
  (* the running stack, most recent first *)
  activeReactiveEffectStack : list EffectId;
  shouldTrack : bool;
  LOCKED : bool;
  log : list Event
}.

Definition initial_state : State := {|
  objects := [];
  refs := [];
  effects := [];
  targetMap := [];
  activeReactiveEffectStack := [];
  shouldTrack := true;
  LOCKED := true;
  log := []
|}.

Inductive Result (A : Type) :=
| Ok (a : A) (st : State)
| Thrown (v : Value) (st : State)
| OutOfFuel.
Arguments Ok {A} a st.
Arguments Thrown {A} v st.
Arguments OutOfFuel {A}.

Definition M (A : Type) : Type := State → Result A.

Definition ret {A} (a : A) : M A := λ st, Ok a st.

Definition bind {A B} (m : M A) (f : A → M B) : M B :=
  λ st, match m st with
        | Ok a st' => f a st'
        | Thrown v st' => Thrown v st'
        | OutOfFuel => OutOfFuel
        end.

Definition throw {A} (v : Value) : M A := λ st, Thrown v st.

(** A state update that cannot fail. *)
Definition modify (f : State → State) : M unit := λ st, Ok tt (f st).

Notation "'let*' x ':=' m 'in' k" := (bind m (λ x, k))
  (at level 10, x name, m at level 100, k at level 200).
Notation "m ;;; k" := (bind m (λ _, k))
  (at level 100, right associativity).

Definition gets {A} (f : State → A) : M A := λ st, Ok (f st) st.

Fixpoint forEach {A} (l : list A) (f : A → M unit) : M unit :=
  match l with
  | [] => ret tt
  | x :: l' => f x ;;; forEach l' f
  end.

(** ** Field updates *)

Definition set_objects (x : list JSObject) (st : State) : State :=
  {| objects := x; refs := refs st; effects := effects st;
     targetMap := targetMap st;
     activeReactiveEffectStack := activeReactiveEffectStack st;
     shouldTrack := shouldTrack st; LOCKED := LOCKED st; log := log st |}.

Definition set_refs (x : list RefObj) (st : State) : State :=
  {| objects := objects st; refs := x; effects := effects st;
     targetMap := targetMap st;
     activeReactiveEffectStack := activeReactiveEffectStack st;
     shouldTrack := shouldTrack st; LOCKED := LOCKED st; log := log st |}.

Definition set_effects (x : list ReactiveEffect) (st : State) : State :=
  {| objects := objects st; refs := refs st; effects := x;
     targetMap := targetMap st;
     activeReactiveEffectStack := activeReactiveEffectStack st;
     shouldTrack := shouldTrack st; LOCKED := LOCKED st; log := log st |}.

Definition set_targetMap (x : list (Target * KeyToDepMap)) (st : State)
  : State :=
  {| objects := objects st; refs := refs st; effects := effects st;
     targetMap := x;
     activeReactiveEffectStack := activeReactiveEffectStack st;
     shouldTrack := shouldTrack st; LOCKED := LOCKED st; log := log st |}.

Definition set_stack (x : list EffectId) (st : State) : State :=
  {| objects := objects st; refs := refs st; effects := effects st;
     targetMap := targetMap st;
     activeReactiveEffectStack := x;
     shouldTrack := shouldTrack st; LOCKED := LOCKED st; log := log st |}.

Definition set_shouldTrack (x : bool) (st : State) : State :=
  {| objects := objects st; refs := refs st; effects := effects st;
     targetMap := targetMap st;
     activeReactiveEffectStack := activeReactiveEffectStack st;
     shouldTrack := x; LOCKED := LOCKED st; log := log st |}.

Definition set_LOCKED (x : bool) (st : State) : State :=
  {| objects := objects st; refs := refs st; effects := effects st;
     targetMap := targetMap st;
     activeReactiveEffectStack := activeReactiveEffectStack st;
     shouldTrack := shouldTrack st; LOCKED := x; log := log st |}.

(** The log grows at its end. *)
Definition emit (ev : Event) (st : State) : State :=
  {| objects := objects st; refs := refs st; effects := effects st;
     targetMap := targetMap st;
     activeReactiveEffectStack := activeReactiveEffectStack st;
     shouldTrack := shouldTrack st; LOCKED := LOCKED st;
     log := log st ++ [ev] |}.

Definition set_deps (x : list DepId) (eff : ReactiveEffect) : ReactiveEffect :=
  {| active := active eff; raw := raw eff; deps := x;
     computed := computed eff; scheduler := scheduler eff;
     onTrack := onTrack eff; onTrigger := onTrigger eff;
     onStop := onStop eff |}.

Definition set_active (x : bool) (eff : ReactiveEffect) : ReactiveEffect :=
  {| active := x; raw := raw eff; deps := deps eff;
     computed := computed eff; scheduler := scheduler eff;
     onTrack := onTrack eff; onTrigger := onTrigger eff;
     onStop := onStop eff |}.

Definition set_debug (t g : option Hook) (eff : ReactiveEffect)
  : ReactiveEffect :=
  {| active := active eff; raw := raw eff; deps := deps eff;
     computed := computed eff; scheduler := scheduler eff;
     onTrack := t; onTrigger := g; onStop := onStop eff |}.

Definition update_effect (e : EffectId) (f : ReactiveEffect → ReactiveEffect)
    (st : State) : State :=
  set_effects (alter f e (effects st)) st.

(** ** Reading the dependency store *)

(** [depsMap.get(key)] under [targetMap.get(target)], the empty set when
    either is [undefined]. *)
Definition dep_at (tm : list (Target * KeyToDepMap)) (d : DepId) : Dep :=
  match alist_get d.1 tm with
  | Some depsMap => default [] (alist_get d.2 depsMap)
  | None => []
  end.

Definition dep_of (st : State) (d : DepId) : Dep := dep_at (targetMap st) d.

(** [effect.deps], empty for an identity that names no effect. *)
Definition deps_of (st : State) (e : EffectId) : list DepId :=
  default [] (deps <$> effects st !! e).

(** Replace the content of the [Set] object identified by [d]. *)
Definition dep_update (d : DepId) (f : Dep → Dep)
    (tm : list (Target * KeyToDepMap)) : list (Target * KeyToDepMap) :=
  match alist_get d.1 tm with
  | Some depsMap =>
      match alist_get d.2 depsMap with
      | Some dep => alist_set d.1 (alist_set d.2 (f dep) depsMap) tm
      | None => tm
      end
  | None => tm
  end.

(** ** effect.ts: cleanup, track, stop *)

(** [[
function cleanup(effect: ReactiveEffect) {
  const { deps } = effect
  if (deps.length) {
    for (let i = 0; i < deps.length; i++) {
      deps[i].delete(effect)
    }
    deps.length = 0
  }
}
]] *)
Definition cleanup (effect : EffectId) (st : State) : State :=
  match effects st !! effect with
  | None => st
  | Some eff =>
      let tm := foldl (λ tm d, dep_update d (set_delete effect) tm)
                  (targetMap st) (deps eff) in
      emit (EvCleanup effect)
        (update_effect effect (set_deps []) (set_targetMap tm st))
  end.

(** [pauseTracking] and [resumeTracking] *)
Definition pauseTracking (st : State) : State := set_shouldTrack false st.
Definition resumeTracking (st : State) : State := set_shouldTrack true st.

(** The subscription step shared by [track] and [trackChildRun]:
    [[
    if (!dep.has(effect)) {
      dep.add(effect)
      effect.deps.push(dep)
    }
    ]]
    on the [Set] at [d], created when missing. *)
Definition subscribe (effect : EffectId) (d : DepId) (st : State) : State :=
  let depsMap := default [] (alist_get d.1 (targetMap st)) in
  let dep := default [] (alist_get d.2 depsMap) in
  if decide (effect ∈ dep) then
    set_targetMap (alist_set d.1 (alist_set d.2 dep depsMap) (targetMap st)) st
  else
    update_effect effect (λ eff, set_deps (deps eff ++ [d]) eff)
      (set_targetMap
         (alist_set d.1 (alist_set d.2 (dep ++ [effect]) depsMap)
            (targetMap st)) st).

Section Engine.

(** [__DEV__], the build flag. *)
Variable DEV : bool.

(** [[
export function track(target: any, type: OperationTypes, key?: string | symbol) {
  if (!shouldTrack) { return }
  const effect = activeReactiveEffectStack[activeReactiveEffectStack.length - 1]
  if (effect) {
    if (type === OperationTypes.ITERATE) { key = ITERATE_KEY }
    let depsMap = targetMap.get(target)
    if (depsMap === void 0) { targetMap.set(target, (depsMap = new Map())) }
    let dep = depsMap.get(key!)
    if (dep === void 0) { depsMap.set(key!, (dep = new Set())) }
    if (!dep.has(effect)) {
      dep.add(effect)
      effect.deps.push(dep)
      if (__DEV__ && effect.onTrack) { effect.onTrack({ effect, target, type, key }) }
    }
  }
}
]] *)
Definition track (target : Target) (type : OperationTypes)
    (key : option Key) (st : State) : State :=
  if negb (shouldTrack st) then st else
  match head (activeReactiveEffectStack st) with
  | None => st
  | Some effect =>
      let key := if decide (type = ITERATE) then Some ITERATE_KEY else key in
      let fresh := bool_decide (effect ∉ dep_of st (target, key)) in
      let st := emit (EvTrack effect (target, key))
                  (subscribe effect (target, key) st) in
      if fresh && DEV then
        match effects st !! effect ≫= onTrack with
        | Some h => emit (EvOnTrack h effect target type key) st
        | None => st
        end
      else st
  end.

(** [[
export function stop(effect: ReactiveEffect) {
  if (effect.active) {
    cleanup(effect)
    if (effect.onStop) { effect.onStop() }
    effect.active = false
  }
}
]]
    The call of [onStop] is recorded as an event, between the cleanup
    and the deactivation. *)
Definition stop (effect : EffectId) (st : State) : State :=
  match effects st !! effect with
  | None => st
  | Some eff =>
      if active eff then
        let st := cleanup effect st in
        let st := match onStop eff with
                  | Some h => emit (EvOnStop h effect) st
                  | None => st
                  end in
        update_effect effect (set_active false) st
      else st
  end.

(** The interpreter of user code with a smaller recursion budget. Every
    function of the engine that calls back into user code (an effect
    body, a getter, a scheduler) or walks a prototype chain does so
    through [exec_rec]. *)
Variable exec_rec : Body → M Value.

(** The scheduler closure that the constructor of [ComputedRefImpl]
    installs re-enters [trigger]; it is defined with the class below and
    reached, like user code, with a smaller recursion budget. *)
Variable ComputedRefImpl_scheduler_rec : RefId → M unit.

(** *** Running an effect *)

Definition push (effect : EffectId) (st : State) : State :=
  set_stack (effect :: activeReactiveEffectStack st) st.

Definition pop (st : State) : State :=
  set_stack (tail (activeReactiveEffectStack st)) st.

(** [try { ... } finally { activeReactiveEffectStack.pop() }] *)
Definition finally_pop {A} (m : M A) : M A :=
  λ st, match m st with
        | Ok a st' => Ok a (pop st')
        | Thrown v st' => Thrown v (pop st')
        | OutOfFuel => OutOfFuel
        end.

Definition TypeError : Value := VString "TypeError".

(** [[
function run(effect: ReactiveEffect, fn: Function, args: any[]): any {
  if (!effect.active) { return fn(...args) }
  if (activeReactiveEffectStack.indexOf(effect) === -1) {
    cleanup(effect)
    try {
      activeReactiveEffectStack.push(effect)
      return fn(...args)
    } finally {
      activeReactiveEffectStack.pop()
    }
  }
}
]]
    [effect()] is [run(effect, fn, args)] with [fn] the wrapped function,
    which [createReactiveEffect] also stores as [effect.raw]. *)
Definition run (effect : EffectId) : M Value :=
  λ st,
    match effects st !! effect with
    | None => Thrown TypeError st
    | Some eff =>
        let fn := raw eff in
        if negb (active eff) then
          exec_rec fn (emit (EvCall effect) st)
        else if bool_decide (effect ∉ activeReactiveEffectStack st) then
          finally_pop (exec_rec fn)
            (emit (EvCall effect) (push effect (cleanup effect st)))
        else Ok VUndefined st
    end.

(** [[
function createReactiveEffect<T = any>(fn: () => T, options: ReactiveEffectOptions) {
  const effect = function reactiveEffect(...args) { return run(effect, fn, args) }
  effect[effectSymbol] = true
  effect.active = true
  effect.raw = fn
  effect.scheduler = options.scheduler
  effect.onTrack = options.onTrack
  effect.onTrigger = options.onTrigger
  effect.onStop = options.onStop
  effect.computed = options.computed
  effect.deps = []
  return effect
}
]] *)
Definition createReactiveEffect (fn : Body)
    (options : ReactiveEffectOptions Body) : M EffectId :=
  λ st,
    let effect := {| active := true; raw := fn; deps := [];
                     computed := opt_computed options;
                     scheduler := opt_scheduler options;
                     onTrack := opt_onTrack options;
                     onTrigger := opt_onTrigger options;
                     onStop := opt_onStop options |} in
    Ok (length (effects st)) (set_effects (effects st ++ [effect]) st).

(** [[
export function effect<T = any>(fn: () => T, options = EMPTY_OBJ) {
  if (isEffect(fn)) { fn = fn.raw }
  const effect = createReactiveEffect(fn, options)
  if (!options.lazy) { effect() }
  return effect
}
]] *)
Definition effect (fn : Body + EffectId)
    (options : ReactiveEffectOptions Body) : M EffectId :=
  let* fn := (match fn with
              | inl b => ret b
              | inr e => λ st, match effects st !! e with
                               | Some eff => Ok (raw eff) st
                               | None => Thrown TypeError st
                               end
              end) in
  let* effect := createReactiveEffect fn options in
  if negb (opt_lazy options) then run effect ;;; ret effect
  else ret effect.

(** *** trigger *)

(** [[
function addRunners(effects, computedRunners, effectsToAdd: Set<ReactiveEffect> | undefined) {
  if (effectsToAdd !== void 0) {
    effectsToAdd.forEach(effect => {
      if (effect.computed) { computedRunners.add(effect) } else { effects.add(effect) }
    })
  }
}
]]
    The two sets are threaded as a pair [(effects, computedRunners)]. *)
Definition addRunners (st : State) (sets : list EffectId * list EffectId)
    (effectsToAdd : option Dep) : list EffectId * list EffectId :=
  match effectsToAdd with
  | None => sets
  | Some dep =>
      foldl (λ '(effects_, computedRunners) effect,
               if default false (computed <$> effects st !! effect)
               then (effects_, set_add effect computedRunners)
               else (set_add effect effects_, computedRunners))
            sets dep
  end.

Definition Array_isArray (st : State) (target : Target) : bool :=
  match target with
  | TObject a => default false (isArray <$> objects st !! a)
  | TRef _ => false
  end.

(** The first half of [trigger]: the sets [effects] and
    [computedRunners] it builds from [depsMap]. *)
Definition collect_runners (st : State) (depsMap : KeyToDepMap)
    (target : Target) (type : OperationTypes) (key : option Key)
  : list EffectId * list EffectId :=
  if decide (type = CLEAR) then
    foldl (λ sets '(_, dep), addRunners st sets (Some dep)) ([], []) depsMap
  else
    let sets :=
      match key with
      | Some _ => addRunners st ([], []) (alist_get key depsMap)
      | None => ([], [])
      end in
    if bool_decide (type = ADD ∨ type = DELETE) then
      let iterationKey :=
        if Array_isArray st target then KStr "length" else ITERATE_KEY in
      addRunners st sets (alist_get (Some iterationKey) depsMap)
    else sets.

(** The scheduler closures. The first is user code; the second is
    [() => { dirty = true }] of the closure based [computed]; the third
    is installed by the constructor of [ComputedRefImpl]. *)
Definition set_dirty (r : RefId) (b : bool) (st : State) : State :=
  set_refs
    (alter (λ o, match o with
                 | ComputedOld c =>
                     ComputedOld {| dirty := b; value := value c;
                                    runner := runner c; setter := setter c |}
                 | ComputedImpl c =>
                     ComputedImpl {| _value := _value c; _dirty := b;
                                     impl_effect := impl_effect c;
                                     _setter := _setter c;
                                     IS_READONLY := IS_READONLY c |}
                 | PlainRef v => PlainRef v
                 end) r (refs st)) st.

Definition call_scheduler (s : Scheduler Body) (effect : EffectId) : M unit :=
  match s with
  | SchedUser f => exec_rec (f effect) ;;; ret tt
  | SchedComputed c => modify (set_dirty c true)
  | SchedComputedImpl c => ComputedRefImpl_scheduler_rec c
  end.

(** [if (__DEV__ && effect.onTrigger) { effect.onTrigger(...) }]: the
    call is recorded as an event. *)
Definition call_onTrigger (eff : ReactiveEffect) (effect : EffectId)
    (target : Target) (type : OperationTypes) (key : option Key)
    (extraInfo : option ExtraInfo) (st : State) : State :=
  match onTrigger eff with
  | Some h =>
      if DEV then emit (EvOnTrigger h effect target type key extraInfo) st
      else st
  | None => st
  end.

(** [[
function scheduleRun(effect, target, type, key, extraInfo) {
  if (__DEV__ && effect.onTrigger) {
    effect.onTrigger(extend({ effect, target, key, type }, extraInfo))
  }
  if (effect.scheduler !== void 0) { effect.scheduler(effect) } else { effect() }
}
]] *)
Definition scheduleRun (effect : EffectId) (target : Target)
    (type : OperationTypes) (key : option Key)
    (extraInfo : option ExtraInfo) : M unit :=
  λ st,
    match effects st !! effect with
    | None => Thrown TypeError st
    | Some eff =>
        let st := call_onTrigger eff effect target type key extraInfo st in
        match scheduler eff with
        | Some s => call_scheduler s effect (emit (EvScheduler effect) st)
        | None => (run effect ;;; ret tt) st
        end
    end.

(** [[
export function trigger(target, type, key?, extraInfo?) {
  const depsMap = targetMap.get(target)
  if (depsMap === void 0) { return }   // never been tracked
  const effects = new Set<ReactiveEffect>()
  const computedRunners = new Set<ReactiveEffect>()
  if (type === OperationTypes.CLEAR) {
    depsMap.forEach(dep => { addRunners(effects, computedRunners, dep) })
  } else {
    if (key !== void 0) { addRunners(effects, computedRunners, depsMap.get(key)) }
    if (type === OperationTypes.ADD || type === OperationTypes.DELETE) {
      const iterationKey = Array.isArray(target) ? 'length' : ITERATE_KEY
      addRunners(effects, computedRunners, depsMap.get(iterationKey))
    }
  }
  const run = (effect: ReactiveEffect) => {
    scheduleRun(effect, target, type, key, extraInfo)
  }
  computedRunners.forEach(run)
  effects.forEach(run)
}
]] *)
Definition trigger (target : Target) (type : OperationTypes)
    (key : option Key) (extraInfo : option ExtraInfo) : M unit :=
  λ st,
    match alist_get target (targetMap st) with
    | None => Ok tt st
    | Some depsMap =>
        let '(effects_, computedRunners) :=
          collect_runners st depsMap target type key in
        let run := λ effect, scheduleRun effect target type key extraInfo in
        (forEach computedRunners run ;;; forEach effects_ run) st
    end.

(** *** reactive.ts and ref.ts *)

(** Modelled from the spec: reactive.ts is not among the sources. "A 1:1
    (per variant: mutable vs read-only) mapping from a raw target to a
    wrapper object"; "wrapping is idempotent"; "unwrapping recovers the
    original"; [excludeFromReactivity] "marks an object so wrapping is
    skipped entirely". A wrapper is therefore the value [VProxy a ro],
    determined by its raw target and its variant. *)
Definition toRaw (v : Value) : Value :=
  match v with
  | VProxy a _ => VObject a
  | _ => v
  end.

Definition canObserve (st : State) (a : Addr) : bool :=
  negb (default false (nonReactive <$> objects st !! a)).

Definition reactive (st : State) (v : Value) : Value :=
  match v with
  | VObject a => if canObserve st a then VProxy a false else v
  | _ => v
  end.

Definition readonly (st : State) (v : Value) : Value :=
  match v with
  | VObject a | VProxy a _ => if canObserve st a then VProxy a true else v
  | _ => v
  end.

Definition update_ref (r : RefId) (f : RefObj → RefObj) (st : State) : State :=
  set_refs (alter f r (refs st)) st.

(** Modelled from the spec: ref.ts is not among the sources. Reading the
    [value] of a plain ref tracks the ref under the empty key and writing
    it notifies the subscribers of the ref ("the container's own write
    already notifies"; [trigger] documents that the [depsMap] of a ref
    has the single key ['']). *)
Definition ref_get (r : RefId) (inner : Value) : M Value :=
  modify (track (TRef r) GET (Some (KStr ""))) ;;; ret inner.

Definition set_inner (v : Value) (o : RefObj) : RefObj :=
  match o with
  | PlainRef _ => PlainRef v
  | _ => o
  end.

Definition ref_set (r : RefId) (newVal : Value) : M unit :=
  λ st,
    trigger (TRef r) SET (Some (KStr "")) None
      (update_ref r (set_inner (reactive st newVal)) st).

(** *** computed.ts, closure based *)

(** [[
function trackChildRun(childRunner: ReactiveEffect) {
  const parentRunner = activeReactiveEffectStack[activeReactiveEffectStack.length - 1]
  if (parentRunner) {
    for (let i = 0; i < childRunner.deps.length; i++) {
      const dep = childRunner.deps[i]
      if (!dep.has(parentRunner)) {
        dep.add(parentRunner)
        parentRunner.deps.push(dep)
      }
    }
  }
}
]] *)
Definition trackChildRun (childRunner : EffectId) (st : State) : State :=
  match head (activeReactiveEffectStack st) with
  | None => st
  | Some parentRunner =>
      foldl (λ st dep, emit (EvTrack parentRunner dep)
                         (subscribe parentRunner dep st))
            st (default [] (deps <$> effects st !! childRunner))
  end.

Definition set_computed_value (r : RefId) (v : Value) (st : State) : State :=
  update_ref r (λ o, match o with
                     | ComputedOld c =>
                         ComputedOld {| dirty := dirty c; value := v;
                                        runner := runner c;
                                        setter := setter c |}
                     | ComputedImpl c =>
                         ComputedImpl {| _value := v; _dirty := _dirty c;
                                         impl_effect := impl_effect c;
                                         _setter := _setter c;
                                         IS_READONLY := IS_READONLY c |}
                     | PlainRef x => PlainRef x
                     end) st.

(** The closure variables [dirty] and [value] of the computed [r]. *)
Definition closure_dirty (st : State) (r : RefId) : bool :=
  match refs st !! r with
  | Some (ComputedOld c) => dirty c
  | Some (ComputedImpl c) => _dirty c
  | _ => false
  end.

Definition closure_value (st : State) (r : RefId) : Value :=
  match refs st !! r with
  | Some (ComputedOld c) => value c
  | Some (ComputedImpl c) => _value c
  | Some (PlainRef v) => v
  | None => VUndefined
  end.

(** [[
  const runner = effect(getter, {
    lazy: true,
    computed: true,
    scheduler: () => { dirty = true }
  })
  return {
    [refSymbol]: true,
    effect: runner,
    get value() { ... },
    set value(newValue: T) { setter(newValue) }
  }
]]
    with [let dirty = true] and [let value: T] captured by the closures. *)
Definition computed_old (getter : Body) (setter_ : option (Value → Body))
  : M RefId :=
  let* r := gets (λ st, length (refs st)) in
  let* runner_ := effect (inl getter)
                    {| opt_lazy := true; opt_computed := true;
                       opt_scheduler := Some (SchedComputed r);
                       opt_onTrack := None; opt_onTrigger := None;
                       opt_onStop := None |} in
  modify (λ st, set_refs (refs st ++
            [ComputedOld {| dirty := true; value := VUndefined;
                            runner := runner_; setter := setter_ |}]) st) ;;;
  ret r.

(** [[
    get value() {
      if (dirty) {
        value = runner()
        dirty = false
      }
      trackChildRun(runner)
      return value
    }
]] *)
Definition computed_get_value (r : RefId) (c : ComputedObj) : M Value :=
  (let* d := gets (λ st, closure_dirty st r) in
   if (d : bool) then
     let* v := run (runner c) in
     modify (set_computed_value r v) ;;;
     modify (set_dirty r false)
   else ret tt) ;;;
  modify (trackChildRun (runner c)) ;;;
  gets (λ st, closure_value st r).

(** The setter: the user's, or
    [__DEV__ ? () => { console.warn(...) } : NOOP]. *)
Definition call_setter (s : option (Value → Body)) (newValue : Value)
  : M unit :=
  match s with
  | Some f => exec_rec (f newValue) ;;; ret tt
  | None =>
      if DEV then
        modify (emit (EvWarn
          "Write operation failed: computed value is readonly"))
      else ret tt
  end.

(** *** computed.ts, class based *)

(** Modelled from the spec: the helpers [trackRefValue] and
    [triggerRefValue] of ref.ts and the class [ReactiveEffect] are not
    among the sources. A read "always tracks the currently-running outer
    Reaction (if any) as a subscriber of this Derived Value"; the
    scheduler "notifies this Derived Value's own subscribers (treating
    the Derived Value itself as an Observable Location)"; [effect.run()]
    "runs the internal Reaction's body (capturing a fresh dependency set
    as a side effect of run())". They are [track], [trigger] and [run]
    at the location (ref, ["value"]). *)
Definition trackRefValue (r : RefId) (st : State) : State :=
  track (TRef r) GET (Some (KStr "value")) st.

Definition triggerRefValue (r : RefId) : M unit :=
  trigger (TRef r) SET (Some (KStr "value")) None.

(** [[
    this.effect = new ReactiveEffect(getter, () => {
      if (!this._dirty) {
        this._dirty = true
        triggerRefValue(this)
      }
    })
]] *)
Definition ComputedRefImpl_scheduler (r : RefId) : M unit :=
  let* d := gets (λ st, closure_dirty st r) in
  if negb d then
    modify (set_dirty r true) ;;;
    triggerRefValue r
  else ret tt.

(** The constructor: [_dirty = true], the effect built from the getter
    and the scheduler above, and the read-only flag. *)
Definition ComputedRefImpl_new (getter : Body)
    (setter_ : option (Value → Body)) (isReadonly : bool) : M RefId :=
  let* r := gets (λ st, length (refs st)) in
  let* e := createReactiveEffect getter
              {| opt_lazy := true; opt_computed := false;
                 opt_scheduler := Some (SchedComputedImpl r);
                 opt_onTrack := None; opt_onTrigger := None;
                 opt_onStop := None |} in
  modify (λ st, set_refs (refs st ++
            [ComputedImpl {| _value := VUndefined; _dirty := true;
                             impl_effect := e; _setter := setter_;
                             IS_READONLY := isReadonly |}]) st) ;;;
  ret r.

(** [[
  get value() {
    const self = toRaw(this)
    trackRefValue(self)
    if (self._dirty) {
      self._dirty = false
      self._value = self.effect.run()!
    }
    return self._value
  }
]] *)
Definition ComputedRefImpl_get_value (r : RefId) (c : ComputedRefImpl)
  : M Value :=
  modify (trackRefValue r) ;;;
  (let* d := gets (λ st, closure_dirty st r) in
   if (d : bool) then
     modify (set_dirty r false) ;;;
     let* v := run (impl_effect c) in
     modify (set_computed_value r v)
   else ret tt) ;;;
  gets (λ st, closure_value st r).

(** [[
export function computed<T>(getterOrOptions, debugOptions?) {
  ...
  const cRef = new ComputedRefImpl(getter, setter, onlyGetter || !setter)
  if (__DEV__ && debugOptions) {
    cRef.effect.onTrack = debugOptions.onTrack
    cRef.effect.onTrigger = debugOptions.onTrigger
  }
  return cRef as any
}
]] *)
Definition computed_new (getter : Body) (setter_ : option (Value → Body))
    (debugOptions : option (option Hook * option Hook)) : M RefId :=
  let onlyGetter := match setter_ with None => true | Some _ => false end in
  let* cRef := ComputedRefImpl_new getter setter_ onlyGetter in
  (match debugOptions with
   | Some (t, g) =>
       if DEV then
         modify (λ st, match refs st !! cRef with
                       | Some (ComputedImpl c) =>
                           update_effect (impl_effect c) (set_debug t g) st
                       | _ => st
                       end)
       else ret tt
   | None => ret tt
   end) ;;;
  ret cRef.

(** [res.value] and [oldValue.value = value] on an object carrying
    [refSymbol]. *)
Definition ref_value_get (r : RefId) : M Value :=
  λ st,
    match refs st !! r with
    | Some (PlainRef v) => ref_get r v st
    | Some (ComputedOld c) => computed_get_value r c st
    | Some (ComputedImpl c) => ComputedRefImpl_get_value r c st
    | None => Ok VUndefined st
    end.

Definition ref_value_set (r : RefId) (newValue : Value) : M unit :=
  λ st,
    match refs st !! r with
    | Some (PlainRef _) => ref_set r newValue st
    | Some (ComputedOld c) => call_setter (setter c) newValue st
    | Some (ComputedImpl c) => call_setter (_setter c) newValue st
    | None => Ok tt st
    end.

(** [o.value = v] where [isRef(o)] holds. *)
Definition assign_value (o : Value) (v : Value) : M unit :=
  match o with
  | VRef r => ref_value_set r v
  | _ => ret tt
  end.

(** *** The JavaScript object model under the handlers *)

(** Ordinary objects with data properties and a prototype link. A
    prototype may be a Proxy, whose traps are then the handlers below.
    The exotic [length] of arrays is not modelled: of an array the
    engine only asks [Array.isArray]. *)
Definition own_property (st : State) (a : Addr) (k : Key) : option Value :=
  objects st !! a ≫= λ o, alist_get k (props o).

(** [hasOwn] of @vue/shared *)
Definition hasOwn (st : State) (target : Addr) (key : Key) : bool :=
  bool_decide (is_Some (own_property st target key)).

Definition proto_of (st : State) (a : Addr) : Value :=
  default VNull (proto <$> objects st !! a).

Definition set_props (x : list (Key * Value)) (o : JSObject) : JSObject :=
  {| props := x; proto := proto o; isArray := isArray o;
     nonReactive := nonReactive o; nonConfigurable := nonConfigurable o |}.

Definition write_property (a : Addr) (k : Key) (v : Value) (st : State)
  : State :=
  set_objects (alter (λ o, set_props (alist_set k v (props o)) o) a
                 (objects st)) st.

Definition remove_property (a : Addr) (k : Key) (st : State) : State :=
  set_objects (alter (λ o, set_props (alist_delete k (props o)) o) a
                 (objects st)) st.

(** [Reflect.get(target, key, receiver)] on a raw object: the own
    property, else the prototype's [[Get]]. *)
Definition Reflect_get (target : Addr) (key : Key) (receiver : Value)
  : M Value :=
  λ st,
    match own_property st target key with
    | Some v => Ok v st
    | None =>
        match proto_of st target with
        | (VObject _ | VProxy _ _) as parent =>
            exec_rec (ReflectGet parent key receiver Ret) st
        | _ => Ok VUndefined st
        end
    end.

(** [Reflect.set(target, key, value, receiver)] on a raw object: an own
    data property, or the end of the prototype chain, defines the
    property on the receiver (through a Proxy receiver, which has no
    [defineProperty] trap, on its raw target); otherwise the prototype's
    [[Set]] is called with the same receiver. *)
Definition Reflect_set (target : Addr) (key : Key) (value_ : Value)
    (receiver : Value) : M Value :=
  λ st,
    let define :=
      match receiver with
      | VObject r | VProxy r _ =>
          Ok (VBool true) (write_property r key value_ st)
      | _ => Ok (VBool false) st
      end in
    match own_property st target key with
    | Some _ => define
    | None =>
        match proto_of st target with
        | (VObject _ | VProxy _ _) as parent =>
            exec_rec (ReflectSet parent key value_ receiver Ret) st
        | _ => define
        end
    end.

(** Whether [delete] may remove the own property [k] of [a]: not when it
    was defined non-configurable, and never the [length] of an array. *)
Definition configurable (st : State) (a : Addr) (k : Key) : bool :=
  match objects st !! a with
  | Some o =>
      negb (bool_decide (k ∈ nonConfigurable o)
            || (isArray o && bool_decide (k = KStr "length")))
  | None => true
  end.

(** [Reflect.deleteProperty(target, key)] on a raw object: an own
    property that is not configurable stays and the answer is [false];
    otherwise the property, if there is one, is removed and the answer
    is [true]. *)
Definition Reflect_deleteProperty (target : Addr) (key : Key) : M Value :=
  λ st,
    if hasOwn st target key && negb (configurable st target key)
    then Ok (VBool false) st
    else Ok (VBool true) (remove_property target key st).

Definition Reflect_has (target : Addr) (key : Key) : M Value :=
  λ st,
    match own_property st target key with
    | Some _ => Ok (VBool true) st
    | None =>
        match proto_of st target with
        | (VObject _ | VProxy _ _) as parent =>
            exec_rec (ReflectHas parent key Ret) st
        | _ => Ok (VBool false) st
        end
    end.

Definition Reflect_ownKeys (target : Addr) : M (list Key) :=
  gets (λ st, default [] ((λ o, (props o).*1) <$> objects st !! target)).

(** *** baseHandlers.ts *)

(** [[
function createGetter(isReadonly: boolean) {
  return function get(target: any, key: string | symbol, receiver: any) {
    const res = Reflect.get(target, key, receiver)
    if (isSymbol(key) && builtInSymbols.has(key)) { return res }
    if (isRef(res)) { return res.value }
    track(target, OperationTypes.GET, key)
    return isObject(res)
      ? isReadonly ? readonly(res) : reactive(res)
      : res
  }
}
]] *)
Definition createGetter (isReadonly : bool) (target : Addr) (key : Key)
    (receiver : Value) : M Value :=
  let* res := Reflect_get target key receiver in
  if isSymbol key && builtInSymbols_has key then ret res
  else
    match res with
    | VRef r => ref_value_get r
    | _ =>
        modify (track (TObject target) GET (Some key)) ;;;
        gets (λ st, if isObject res
                    then if isReadonly then readonly st res
                         else reactive st res
                    else res)
    end.

(** [[
function set(target: any, key: string | symbol, value: any, receiver: any): boolean {
  value = toRaw(value)
  const hadKey = hasOwn(target, key)
  const oldValue = target[key]
  if (isRef(oldValue) && !isRef(value)) {
    oldValue.value = value
    return true
  }
  const result = Reflect.set(target, key, value, receiver)
  // don't trigger if target is something up in the prototype chain of original
  if (target === toRaw(receiver)) {
    if (__DEV__) {
      const extraInfo = { oldValue, newValue: value }
      if (!hadKey) {
        trigger(target, OperationTypes.ADD, key, extraInfo)
      } else if (value !== oldValue) {
        trigger(target, OperationTypes.SET, key, extraInfo)
      }
    } else {
      if (!hadKey) {
        trigger(target, OperationTypes.ADD, key)
      } else if (value !== oldValue) {
        trigger(target, OperationTypes.SET, key)
      }
    }
  }
  return result
}
]] *)
Definition set (target : Addr) (key : Key) (value_ : Value)
    (receiver : Value) : M Value :=
  let value_ := toRaw value_ in
  let* hadKey := gets (λ st, hasOwn st target key) in
  let* oldValue_ := Reflect_get target key (VObject target) in
  if isRef oldValue_ && negb (isRef value_) then
    assign_value oldValue_ value_ ;;;
    ret (VBool true)
  else
    let* result := Reflect_set target key value_ receiver in
    (if bool_decide (VObject target = toRaw receiver) then
       if DEV then
         let extraInfo := {| oldValue := Some oldValue_;
                             newValue := Some value_ |} in
         if negb hadKey then
           trigger (TObject target) ADD (Some key) (Some extraInfo)
         else if negb (strict_eq value_ oldValue_) then
           trigger (TObject target) SET (Some key) (Some extraInfo)
         else ret tt
       else
         if negb hadKey then
           trigger (TObject target) ADD (Some key) None
         else if negb (strict_eq value_ oldValue_) then
           trigger (TObject target) SET (Some key) None
         else ret tt
     else ret tt) ;;;
    ret result.

(** [[
function deleteProperty(target: any, key: string | symbol): boolean {
  const hadKey = hasOwn(target, key)
  const oldValue = target[key]
  const result = Reflect.deleteProperty(target, key)
  if (result && hadKey) {
    if (__DEV__) {
      trigger(target, OperationTypes.DELETE, key, { oldValue })
    } else {
      trigger(target, OperationTypes.DELETE, key)
    }
  }
  return result
}
]] *)
Definition deleteProperty (target : Addr) (key : Key) : M Value :=
  let* hadKey := gets (λ st, hasOwn st target key) in
  let* oldValue_ := Reflect_get target key (VObject target) in
  let* result := Reflect_deleteProperty target key in
  (if bool_decide (result = VBool true) && hadKey then
     if DEV then
       trigger (TObject target) DELETE (Some key)
         (Some {| oldValue := Some oldValue_; newValue := None |})
     else
       trigger (TObject target) DELETE (Some key) None
   else ret tt) ;;;
  ret result.

(** [[
function has(target: any, key: string | symbol): boolean {
  const result = Reflect.has(target, key)
  track(target, OperationTypes.HAS, key)
  return result
}
]] *)
Definition has (target : Addr) (key : Key) : M Value :=
  let* result := Reflect_has target key in
  modify (track (TObject target) HAS (Some key)) ;;;
  ret result.

(** [[
function ownKeys(target: any): (string | number | symbol)[] {
  track(target, OperationTypes.ITERATE)
  return Reflect.ownKeys(target)
}
]] *)
Definition ownKeys (target : Addr) : M (list Key) :=
  modify (track (TObject target) ITERATE None) ;;;
  Reflect_ownKeys target.

(** [readonlyHandlers.set] and [readonlyHandlers.deleteProperty]:
    [[
    if (LOCKED) {
      if (__DEV__) { console.warn(...) }
      return true
    } else {
      return set(target, key, value, receiver)
    }
    ]] *)
Definition readonly_set (target : Addr) (key : Key) (value_ : Value)
    (receiver : Value) : M Value :=
  let* locked := gets LOCKED in
  if (locked : bool) then
    (if DEV then
       modify (emit (EvWarn "Set operation failed: target is readonly."))
     else ret tt) ;;;
    ret (VBool true)
  else set target key value_ receiver.

Definition readonly_deleteProperty (target : Addr) (key : Key) : M Value :=
  let* locked := gets LOCKED in
  if (locked : bool) then
    (if DEV then
       modify (emit (EvWarn "Delete operation failed: target is readonly."))
     else ret tt) ;;;
    ret (VBool true)
  else deleteProperty target key.

(** *** One step of user code *)

(** Each call of user code is dispatched on what it is applied to: a raw
    object goes to the object model, a Proxy to its handler table
    ([mutableHandlers] or [readonlyHandlers]), a ref to its accessors.
    The continuation then runs with a smaller budget. *)
Definition exec_step (b : Body) : M Value :=
  match b with
  | Ret v => ret v
  | Throw v => throw v
  | ReflectGet o k receiver cont =>
      let* v := (match o with
                 | VObject a => Reflect_get a k receiver
                 | VProxy a ro => createGetter ro a k receiver
                 | VRef r =>
                     if decide (k = KStr "value") then ref_value_get r
                     else ret VUndefined
                 | VUndefined | VNull => throw TypeError
                 | _ => ret VUndefined
                 end) in
      exec_rec (cont v)
  | ReflectSet o k v receiver cont =>
      let* res := (match o with
                   | VObject a => Reflect_set a k v receiver
                   | VProxy a false => set a k v receiver
                   | VProxy a true => readonly_set a k v receiver
                   | VRef r =>
                       if decide (k = KStr "value")
                       then ref_value_set r v ;;; ret (VBool true)
                       else ret (VBool false)
                   | _ => throw TypeError
                   end) in
      exec_rec (cont res)
  | ReflectDelete o k cont =>
      let* res := (match o with
                   | VObject a => Reflect_deleteProperty a k
                   | VProxy a false => deleteProperty a k
                   | VProxy a true => readonly_deleteProperty a k
                   | VRef _ => ret (VBool true)
                   | _ => throw TypeError
                   end) in
      exec_rec (cont res)
  | ReflectHas o k cont =>
      let* res := (match o with
                   | VObject a => Reflect_has a k
                   | VProxy a _ => has a k
                   | VRef _ => ret (VBool (bool_decide (k = KStr "value")))
                   | _ => throw TypeError
                   end) in
      exec_rec (cont res)
  | ReflectOwnKeys o cont =>
      let* ks := (match o with
                  | VObject a => Reflect_ownKeys a
                  | VProxy a _ => ownKeys a
                  | VRef _ => ret []
                  | _ => throw TypeError
                  end) in
      exec_rec (cont ks)
  | Call e cont =>
      let* v := run e in
      exec_rec (cont v)
  | NewEffect fn options cont =>
      let* e := effect fn options in
      exec_rec (cont e)
  | Stop e cont =>
      modify (stop e) ;;; exec_rec cont
  | PauseTracking cont =>
      modify pauseTracking ;;; exec_rec cont
  | ResumeTracking cont =>
      modify resumeTracking ;;; exec_rec cont
  | SetLocked b cont =>
      modify (set_LOCKED b) ;;; exec_rec cont
  | NewObject o cont =>
      let* a := gets (λ st, length (objects st)) in
      modify (λ st, set_objects (objects st ++ [o]) st) ;;;
      exec_rec (cont a)
  | NewRef v cont =>
      let* r := gets (λ st, length (refs st)) in
      modify (λ st, set_refs (refs st ++ [PlainRef (reactive st v)]) st) ;;;
      exec_rec (cont r)
  | NewComputed getter setter_ cont =>
      let* r := computed_old getter setter_ in
      exec_rec (cont r)
  | NewComputedImpl getter setter_ debugOptions cont =>
      let* r := computed_new getter setter_ debugOptions in
      exec_rec (cont r)
  | TryCatch b handler cont =>
      λ st, match exec_rec b st with
            | Ok v st' => exec_rec (cont v) st'
            | Thrown v st' =>
                (let* x := exec_rec (handler v) in exec_rec (cont x)) st'
            | OutOfFuel => OutOfFuel
            end
  end.

End Engine.

(** ** The interpreter *)

(** [exec DEV fuel b] runs the user code [b]; [sched] is the scheduler
    closure of a [ComputedRefImpl]. Every call into user code, every
    continuation and every step along a prototype chain takes one unit of
    [fuel]. *)
Fixpoint exec (DEV : bool) (fuel : nat) (b : Body) (st : State)
  : Result Value :=
  match fuel with
  | 0 => OutOfFuel
  | S n =>
      exec_step DEV (λ b' st', exec DEV n b' st') (λ r st', sched DEV n r st')
        b st
  end
with sched (DEV : bool) (fuel : nat) (r : RefId) (st : State) : Result unit :=
  match fuel with
  | 0 => OutOfFuel
  | S n =>
      ComputedRefImpl_scheduler DEV (λ b' st', exec DEV n b' st')
        (λ r' st', sched DEV n r' st') r st
  end.

(** * compiler-core/src/transforms/vIf.ts *)

(** The functions of vIf.ts that depend on nothing outside the file:
    [isSameKey], [getParentCondition] with the assignment made through
    its result, [createCodegenNodeForBranch] over the code of the
    children, and the loop of [transformIf] that numbers the branches. *)

(** [ExpressionNode]: what vIf.ts reads of it is its [type] and, of a
    simple expression, [content] and [isStatic]. *)
Inductive ExpressionNode :=
| SIMPLE_EXPRESSION (content : string) (isStatic : bool)
| COMPOUND_EXPRESSION (children : list string).

#[global] Instance ExpressionNode_eq_dec : EqDecision ExpressionNode.
Proof. solve_decision. Defined.

(** [exp.type === branchExp.type] *)
Definition same_expression_type (a b : ExpressionNode) : bool :=
  match a, b with
  | SIMPLE_EXPRESSION _ _, SIMPLE_EXPRESSION _ _
  | COMPOUND_EXPRESSION _, COMPOUND_EXPRESSION _ => true
  | _, _ => false
  end.

(** The [key] prop of a branch, [AttributeNode | DirectiveNode]:
    an attribute with the content of its [value], or a [v-bind]
    directive with its [exp]; each may be missing. *)
Inductive KeyProp :=
| ATTRIBUTE (value : option string)
| DIRECTIVE (exp : option ExpressionNode).

#[global] Instance KeyProp_eq_dec : EqDecision KeyProp.
Proof. solve_decision. Defined.

(** [[
function isSameKey(a: AttributeNode | DirectiveNode | undefined,
                   b: AttributeNode | DirectiveNode): boolean {
  if (!a || a.type !== b.type) { return false }
  if (a.type === NodeTypes.ATTRIBUTE) {
    if (a.value!.content !== (b as AttributeNode).value!.content) { return false }
  } else {
    const exp = a.exp!
    const branchExp = (b as DirectiveNode).exp!
    if (exp.type !== branchExp.type) { return false }
    if (exp.type !== NodeTypes.SIMPLE_EXPRESSION ||
        exp.isStatic !== (branchExp as SimpleExpressionNode).isStatic ||
        exp.content !== (branchExp as SimpleExpressionNode).content) {
      return false
    }
  }
  return true
}
]]
    [!] is erased by the compiler: reading [content] or [type] of a
    missing [value] or [exp] throws a TypeError, here [None]. *)
Definition isSameKey (a : option KeyProp) (b : KeyProp) : option bool :=
  match a with
  | None => Some false
  | Some a =>
      match a, b with
      | ATTRIBUTE av, ATTRIBUTE bv =>
          ac ← av; bc ← bv;
          Some (bool_decide (ac = bc))
      | DIRECTIVE ae, DIRECTIVE be =>
          exp ← ae; branchExp ← be;
          if negb (same_expression_type exp branchExp) then Some false
          else
            match exp, branchExp with
            | SIMPLE_EXPRESSION c s, SIMPLE_EXPRESSION c' s' =>
                Some (negb (negb (bool_decide (s = s'))
                            || negb (bool_decide (c = c'))))
            | _, _ => Some false
            end
      | _, _ => Some false
      end
  end.

(** The code generation nodes that [getParentCondition] walks. *)
Inductive CodegenNode :=
| JS_CONDITIONAL_EXPRESSION (test : ExpressionNode)
    (consequent alternate : CodegenNode)
| JS_CACHE_EXPRESSION (index : nat) (value : CodegenNode)
| VNODE_CALL (tag : string)
| JS_CALL_EXPRESSION (callee : string).

Definition isConditional (n : CodegenNode) : bool :=
  match n with
  | JS_CONDITIONAL_EXPRESSION _ _ _ => true
  | _ => false
  end.

(** [[
function getParentCondition(node: IfConditionalExpression | CacheExpression) {
  while (true) {
    if (node.type === NodeTypes.JS_CONDITIONAL_EXPRESSION) {
      if (node.alternate.type === NodeTypes.JS_CONDITIONAL_EXPRESSION) {
        node = node.alternate
      } else {
        return node
      }
    } else if (node.type === NodeTypes.JS_CACHE_EXPRESSION) {
      node = node.value as IfConditionalExpression
    }
  }
}
]]
    On a node that is neither a conditional nor a cache expression the
    loop changes nothing and never returns: [None]. *)
Fixpoint getParentCondition (node : CodegenNode) : option CodegenNode :=
  match node with
  | JS_CONDITIONAL_EXPRESSION _ _ alternate =>
      if isConditional alternate then getParentCondition alternate
      else Some node
  | JS_CACHE_EXPRESSION _ value => getParentCondition value
  | _ => None
  end.

(** The exit callback of [transformIf] for a branch that is not the root:
    [[
    const parentCondition = getParentCondition(ifNode.codegenNode!)
    parentCondition.alternate = createCodegenNodeForBranch(...)
    ]]
    The assignment goes through the reference that [getParentCondition]
    returns, so it changes [ifNode.codegenNode] in place:
    [set_parent_alternate root x] is the root afterwards. *)
Fixpoint set_parent_alternate (node x : CodegenNode) : option CodegenNode :=
  match node with
  | JS_CONDITIONAL_EXPRESSION test consequent alternate =>
      if isConditional alternate then
        JS_CONDITIONAL_EXPRESSION test consequent
          <$> set_parent_alternate alternate x
      else Some (JS_CONDITIONAL_EXPRESSION test consequent x)
  | JS_CACHE_EXPRESSION index value =>
      JS_CACHE_EXPRESSION index <$> set_parent_alternate value x
  | _ => None
  end.

(** [[
function createCodegenNodeForBranch(branch, keyIndex, context) {
  if (branch.condition) {
    return createConditionalExpression(
      branch.condition,
      createChildrenCodegenNode(branch, keyIndex, context),
      createCallExpression(context.helper(CREATE_COMMENT), [...]))
  } else {
    return createChildrenCodegenNode(branch, keyIndex, context)
  }
}
]]
    with [children] the node that [createChildrenCodegenNode] returns. *)
Definition createCodegenNodeForBranch (condition : option ExpressionNode)
    (children : CodegenNode) : CodegenNode :=
  match condition with
  | Some test =>
      JS_CONDITIONAL_EXPRESSION test children
        (JS_CALL_EXPRESSION "CREATE_COMMENT")
  | None => children
  end.

(** [TemplateChildNode], as far as the sibling loops read it: the type of
    the node and, of an [IfNode], its branches (each a condition and the
    code generated for its children). *)
Inductive TemplateChildNode :=
| IF (branches : list (option ExpressionNode * CodegenNode))
| ELEMENT (tag : string)
| TEXT (content : string)
| COMMENT (content : string).

(** [siblings[i]], which is [undefined] out of range. *)
Definition sibling_at (siblings : list TemplateChildNode) (i : Z)
  : option TemplateChildNode :=
  if (i <? 0)%Z then None else siblings !! Z.to_nat i.

(** [[
let key = 0
while (i-- >= 0) {
  const sibling = siblings[i]
  if (sibling && sibling.type === NodeTypes.IF) {
    key += sibling.branches.length
  }
}
]]
    from the value [i] that [siblings.indexOf(ifNode)] gave, which is
    [-1] when the node is not among the siblings. *)
Fixpoint key_loop (fuel : nat) (siblings : list TemplateChildNode) (i : Z)
    (key : nat) : option nat :=
  match fuel with
  | 0 => None
  | S n =>
      if (0 <=? i)%Z then
        let i := (i - 1)%Z in
        let key := match sibling_at siblings i with
                   | Some (IF branches) => key + length branches
                   | _ => key
                   end in
        key_loop n siblings i key
      else Some key
  end.

(** * Specification vocabulary *)

(** ** Observing an execution *)

Definition final_state {A} (r : Result A) : State :=
  match r with
  | Ok _ st | Thrown _ st => st
  | OutOfFuel => initial_state
  end.

Definition is_ok {A} (r : Result A) : bool :=
  match r with
  | Ok _ _ => true
  | _ => false
  end.

(** [P] holds in the state an execution ends in, whether it returned or
    threw. *)
Definition holds_after {A} (P : State → Prop) (r : Result A) : Prop :=
  match r with
  | Ok _ st' | Thrown _ st' => P st'
  | OutOfFuel => True
  end.

(** The execution left the state as it was. *)
Definition unchanged {A} (st : State) (r : Result A) : Prop :=
  match r with
  | Ok _ st' | Thrown _ st' => st' = st
  | OutOfFuel => True
  end.

(** How many times the wrapped function of [e] was entered (what a test
    spy on the function counts). *)
Definition calls (l : list Event) (e : EffectId) : nat :=
  length (filter (λ ev, ev = EvCall e) l).

(** [effect.computed] is truthy. *)
Definition is_computed (st : State) (e : EffectId) : bool :=
  default false (computed <$> effects st !! e).

(** [effect.active === false] for an existing effect. *)
Definition stopped (st : State) (e : EffectId) : bool :=
  match effects st !! e with
  | Some eff => negb (active eff)
  | None => false
  end.

Definition isComputedRef (st : State) (r : RefId) : bool :=
  match refs st !! r with
  | Some (ComputedOld _) | Some (ComputedImpl _) => true
  | _ => false
  end.

(** ** What trigger runs *)

(** The effects one call of [trigger] hands to [scheduleRun], in order:
    [computedRunners.forEach(run)] then [effects.forEach(run)]. *)
Definition trigger_order (st : State) (target : Target)
    (type : OperationTypes) (key : option Key) : list EffectId :=
  match alist_get target (targetMap st) with
  | None => []
  | Some depsMap =>
      let sets := collect_runners st depsMap target type key in
      sets.2 ++ sets.1
  end.

(** [Array.isArray(target) ? 'length' : ITERATE_KEY] *)
Definition iterationKey (st : State) (target : Target) : Key :=
  if Array_isArray st target then KStr "length" else ITERATE_KEY.

(** The two sets built by [addRunners] hold no effect twice, and sort the
    effects by their [computed] mark. *)
Definition sets_ok (st : State) (sets : list EffectId * list EffectId)
  : Prop :=
  NoDup sets.1 ∧ NoDup sets.2 ∧
  (∀ e, e ∈ sets.1 → is_computed st e = false) ∧
  (∀ e, e ∈ sets.2 → is_computed st e = true).

(** From the specification's words: the kind of trigger a write fires,
    if any. *)
Definition write_trigger_kind (canonical hadKey changed : bool)
  : option OperationTypes :=
  if canonical then
    if negb hadKey then Some ADD
    else if changed then Some SET
    else None
  else None.

(** From the specification's words: "the value actually changed", by
    identity of the value written and the value stored. *)
Definition differs (v old : Value) : bool := negb (bool_decide (v = old)).

(** The same, amended: [NaN] written over [NaN] counts as a change,
    since [!==] tells [NaN] apart from itself. *)
Definition value_changed (v old : Value) : bool :=
  differs v old || bool_decide (old = VNaN).

(** The [extraInfo] that [set] hands to [trigger]: given in development
    builds only. *)
Definition write_info (DEV : bool) (old v : Value) : option ExtraInfo :=
  if DEV then Some {| oldValue := Some old; newValue := Some v |} else None.

(** Zero or one call of [trigger]. *)
Definition fire (DEV : bool) (exec_rec : Body → M Value)
    (sched_rec : RefId → M unit) (target : Target) (key : option Key)
    (kind : option OperationTypes) (extraInfo : option ExtraInfo) : M unit :=
  match kind with
  | Some type => trigger DEV exec_rec sched_rec target type key extraInfo
  | None => ret tt
  end.

(** ** The subscription invariant *)

(** The locations attributed to [e] since its dependencies were last
    cleared. *)
Definition live_step (e : EffectId) (acc : list DepId) (ev : Event)
  : list DepId :=
  match ev with
  | EvCleanup e' => if decide (e' = e) then [] else acc
  | EvTrack e' d => if decide (e' = e) then acc ++ [d] else acc
  | _ => acc
  end.

Definition live_tracks (l : list Event) (e : EffectId) : list DepId :=
  foldl (live_step e) [] l.

(** The locations attributed to [e] since its wrapped function was last
    entered: what was read during its most recent execution. *)
Definition last_run_step (e : EffectId) (acc : list DepId) (ev : Event)
  : list DepId :=
  match ev with
  | EvCall e' => if decide (e' = e) then [] else acc
  | EvTrack e' d => if decide (e' = e) then acc ++ [d] else acc
  | _ => acc
  end.

Definition last_run_reads (l : list Event) (e : EffectId) : list DepId :=
  foldl (last_run_step e) [] l.

(** The running stack names effects; an effect is in a [Dep] exactly
    when the [Dep] is in its [deps]; and [deps] holds exactly the
    locations attributed to the effect since its last [cleanup]. *)
Record Inv (st : State) : Prop := {
  inv_stack : ∀ e, e ∈ activeReactiveEffectStack st → e < length (effects st);
  inv_member : ∀ e d, e ∈ dep_of st d ↔ d ∈ deps_of st e;
  inv_tracked : ∀ e d, d ∈ deps_of st e ↔ d ∈ live_tracks (log st) e
}.

(** ** Relations kept by every execution *)

(** The events whose emission belongs to one elementary update of the
    engine ([subscribe], [cleanup], entering a wrapped function). *)
Definition ghost (ev : Event) : bool :=
  match ev with
  | EvTrack _ _ | EvCleanup _ | EvCall _ => true
  | _ => false
  end.

(** What a relation between the state before and the state after must
    satisfy to hold across every execution: it is a preorder, and every
    elementary update of the engine respects it. The last field is the
    bracket of [run]: cleanup, push, the body, pop. *)
Record Respectable (R : State → State → Prop) : Prop := {
  resp_refl : ∀ st, R st st;
  resp_trans : ∀ a b c, R a b → R b c → R a c;
  resp_objects : ∀ x st, R st (set_objects x st);
  resp_set_dirty : ∀ r b st, R st (set_dirty r b st);
  resp_set_value : ∀ r v st, R st (set_computed_value r v st);
  resp_ref_write : ∀ r v st, R st (update_ref r (set_inner v) st);
  resp_new_ref : ∀ x st, R st (set_refs (refs st ++ [x]) st);
  resp_shouldTrack : ∀ x st, R st (set_shouldTrack x st);
  resp_LOCKED : ∀ x st, R st (set_LOCKED x st);
  resp_emit : ∀ ev st, ghost ev = false → R st (emit ev st);
  resp_subscribe : ∀ e d st,
    head (activeReactiveEffectStack st) = Some e →
    R st (emit (EvTrack e d) (subscribe e d st));
  resp_cleanup : ∀ e st, R st (cleanup e st);
  resp_deactivate : ∀ e st, R st (update_effect e (set_active false) st);
  resp_debug : ∀ e t g st, R st (update_effect e (set_debug t g) st);
  resp_new_effect : ∀ eff st,
    deps eff = [] → active eff = true →
    R st (set_effects (effects st ++ [eff]) st);
  resp_call : ∀ e eff st,
    effects st !! e = Some eff → active eff = false →
    R st (emit (EvCall e) st);
  resp_bracket : ∀ e eff st st1,
    effects st !! e = Some eff → active eff = true →
    e ∉ activeReactiveEffectStack st →
    R (emit (EvCall e) (push e (cleanup e st))) st1 → R st (pop st1)
}.

Definition post {A} (R : State → State → Prop) (st : State) (r : Result A)
  : Prop :=
  match r with
  | Ok _ st' | Thrown _ st' => R st st'
  | OutOfFuel => True
  end.

Definition respects {A} (R : State → State → Prop) (m : M A) : Prop :=
  ∀ st, post R st (m st).

Definition same_stack (st st' : State) : Prop :=
  activeReactiveEffectStack st' = activeReactiveEffectStack st.

(** What never changes in a ref object: its kind and, for a computed,
    its effect. *)
Definition same_ref (o o' : RefObj) : Prop :=
  match o, o' with
  | PlainRef _, PlainRef _ => True
  | ComputedOld c, ComputedOld c' => runner c' = runner c
  | ComputedImpl c, ComputedImpl c' => impl_effect c' = impl_effect c
  | _, _ => False
  end.

Definition refs_persist (st st' : State) : Prop :=
  ∀ r o, refs st !! r = Some o →
         ∃ o', refs st' !! r = Some o' ∧ same_ref o o'.

(** While [e] is on the running stack and is not stopped, its wrapped
    function is not entered again. *)
Definition not_reentered (e : EffectId) (st st' : State) : Prop :=
  activeReactiveEffectStack st' = activeReactiveEffectStack st
  ∧ (stopped st e = true → stopped st' e = true)
  ∧ (e ∈ activeReactiveEffectStack st → stopped st' e = false →
     calls (log st') e = calls (log st) e).

(** ** Calling a scheduler *)


(** ** Attribution of reads *)

(** The effect to which [track] attributes a read: the one on top of
    the running stack, and none while tracking is paused. *)
Definition attributed (st : State) : option EffectId :=
  if shouldTrack st then head (activeReactiveEffectStack st) else None.

(** The key under which [track] files a read. *)
Definition tracked_key (type : OperationTypes) (key : option Key)
  : option Key :=
  if decide (type = ITERATE) then Some ITERATE_KEY else key.

(** The state in which [run] enters the function of an active effect
    that is not running. *)
Definition entered (e : EffectId) (st : State) : State :=
  emit (EvCall e) (push e (cleanup e st)).

(** ** Programs and states used as examples *)

Definition obj (p : list (Key * Value)) : JSObject :=
  {| props := p; proto := VNull; isArray := false; nonReactive := false;
     nonConfigurable := [] |}.

Definition no_options : ReactiveEffectOptions Body :=
  {| opt_lazy := false; opt_computed := false; opt_scheduler := None;
     opt_onTrack := None; opt_onTrigger := None; opt_onStop := None |}.

Definition lazy_options : ReactiveEffectOptions Body :=
  {| opt_lazy := true; opt_computed := false; opt_scheduler := None;
     opt_onTrack := None; opt_onTrigger := None; opt_onStop := None |}.


(** [() => state.n++] on the reactive proxy of [c]. *)
Definition increment (c : Addr) : Body :=
  GetProp (VProxy c false) (KStr "n") (λ v,
    match v with
    | VNumber z => SetProp (VProxy c false) (KStr "n") (VNumber (z + 1)) (Ret v)
    | _ => SetProp (VProxy c false) (KStr "n") VNaN (Ret v)
    end).

(** [const state = reactive({ n: z }); effect(() => state.n++)] *)
Definition self_increment_program (z : Z) : Body :=
  NewObject (obj [(KStr "n", VNumber z)]) (λ c,
  NewEffect (inl (increment c)) no_options (λ e, Ret VUndefined)).

Definition counter_state : State :=
  final_state (exec true 8 (self_increment_program 0) initial_state).

(** [const r = effect(() => { stop(r); return obs.x }, { lazy: true }); r()] *)
Definition self_stop_program : Body :=
  NewObject (obj [(KStr "x", VNumber 1)]) (λ c,
  NewEffect (inl (Stop 0 (GetProp (VProxy c false) (KStr "x") Ret)))
    lazy_options (λ e,
  Call e (λ _, Ret VUndefined))).

Definition self_stop_state : State :=
  final_state (exec true 8 self_stop_program initial_state).

(** [effect(() => state.num)] followed by [stop] of that effect. *)
Definition read_then_stop_program : Body :=
  NewObject (obj [(KStr "num", VNumber 0)]) (λ c,
  NewEffect (inl (GetProp (VProxy c false) (KStr "num") Ret)) no_options (λ e,
  Stop e (Ret VUndefined))).

Definition stopped_state : State :=
  final_state (exec true 8 read_then_stop_program initial_state).

(** A lazily created effect whose body stops the effect (identity 0). *)
Definition stop_inside_program : Body :=
  NewEffect (inl (Stop 0 (Ret (VNumber 1)))) lazy_options (λ e, Ret VUndefined).

(** The state inside the body of that effect, after its [stop]: the
    effect is on the running stack and inactive. *)
Definition inside_stopped_state : State :=
  let st := final_state (exec true 4 stop_inside_program initial_state) in
  final_state
    (exec true 4 (Stop 0 (Ret (VNumber 1)))
       (emit (EvCall 0) (push 0 (cleanup 0 st)))).



(** [[
const obs = reactive({ x: 1 })
const a = effect(() => { pauseTracking(); throw 'boom' }, { lazy: true })
const b = effect(() => obs.x, { lazy: true })
const c = effect(() => { throw 'boom' }, { lazy: true })
]] *)
Definition throwing_program : Body :=
  NewObject (obj [(KStr "x", VNumber 1)]) (λ o,
  NewEffect (inl (PauseTracking (Throw (VString "boom")))) lazy_options (λ a,
  NewEffect (inl (GetProp (VProxy o false) (KStr "x") Ret)) lazy_options (λ b,
  NewEffect (inl (Throw (VString "boom"))) lazy_options (λ c,
  Ret VUndefined)))).

Definition throwing_state : State :=
  final_state (exec true 8 throwing_program initial_state).

(** [const list = reactive([]); effect(() => list.length)] *)
Definition array_program : Body :=
  NewObject {| props := [(KStr "length", VNumber 0)]; proto := VNull;
               isArray := true; nonReactive := false;
               nonConfigurable := [] |} (λ a,
  NewEffect (inl (GetProp (VProxy a false) (KStr "length") Ret)) no_options
    (λ e, Ret VUndefined)).

Definition array_state : State :=
  final_state (exec true 8 array_program initial_state).

(** [const state = reactive({ n: NaN }); effect(() => state.n)] *)
Definition nan_program : Body :=
  NewObject (obj [(KStr "n", VNaN)]) (λ c,
  NewEffect (inl (GetProp (VProxy c false) (KStr "n") Ret)) no_options
    (λ e, Ret VUndefined)).

Definition nan_state : State :=
  final_state (exec true 8 nan_program initial_state).

(** A reactive object holding a ref and a nested object, each under a
    well-known symbol and under an ordinary key, read by a running
    effect. *)
Definition symbol_state : State :=
  set_stack [0]
    (set_effects
       [{| active := true; raw := Ret VUndefined; deps := [];
           computed := false; scheduler := None; onTrack := None;
           onTrigger := None; onStop := None |}]
       (set_refs [PlainRef (VNumber 1)]
          (set_objects
             [obj [(KSym (SymWellKnown "iterator"), VRef 0);
                   (KSym (SymWellKnown "toStringTag"), VObject 1);
                   (KStr "a", VRef 0); (KStr "b", VObject 1)];
              obj []] initial_state))).

(** ** Stopped effects *)

(** [e] is stopped, is not running, and is in no dependency set. *)
Definition retired (e : EffectId) (st : State) : Prop :=
  stopped st e = true ∧ (e ∉ activeReactiveEffectStack st)
  ∧ (∀ d, e ∉ dep_of st d).

Definition stays_retired (e : EffectId) (st st' : State) : Prop :=
  retired e st → retired e st'.

(** [effect(() => state.num)] *)
Definition read_program : Body :=
  NewObject (obj [(KStr "num", VNumber 0)]) (λ c,
  NewEffect (inl (GetProp (VProxy c false) (KStr "num") Ret)) no_options
    (λ e, Ret VUndefined)).

Definition observing_state : State :=
  final_state (exec true 8 read_program initial_state).

(** ** Further vocabulary *)

(** What never changes in an effect: its function, its [computed] mark,
    its scheduler and its [onStop]; and a stopped effect stays stopped. *)
Definition same_effect (eff eff' : ReactiveEffect) : Prop :=
  raw eff' = raw eff ∧ computed eff' = computed eff
  ∧ scheduler eff' = scheduler eff ∧ onStop eff' = onStop eff
  ∧ (active eff = false → active eff' = false).

Definition effects_persist (st st' : State) : Prop :=
  ∀ e eff, effects st !! e = Some eff →
           ∃ eff', effects st' !! e = Some eff' ∧ same_effect eff eff'.

(** The running stack is restored, the effects persist, and the log only
    grows. *)
Definition progress (st st' : State) : Prop :=
  activeReactiveEffectStack st' = activeReactiveEffectStack st
  ∧ effects_persist st st'
  ∧ log st `prefix_of` log st'.

(** How many times the dependencies of [e] were cleared. *)
Definition cleans (l : list Event) (e : EffectId) : nat :=
  length (filter (λ ev, ev = EvCleanup e) l).

(** While [e] is running, is not stopped and is not cleaned up, what is
    attributed to it extends both the locations tracked since its last
    cleanup and the locations tracked since its function was entered. *)
Definition reads_extend (e : EffectId) (st st' : State) : Prop :=
  activeReactiveEffectStack st' = activeReactiveEffectStack st
  ∧ (stopped st e = true → stopped st' e = true)
  ∧ log st `prefix_of` log st'
  ∧ (e ∈ activeReactiveEffectStack st → stopped st' e = false →
     cleans (log st') e = cleans (log st) e →
     ∃ X, live_tracks (log st') e = live_tracks (log st) e ++ X
          ∧ last_run_reads (log st') e = last_run_reads (log st) e ++ X).

(** The effect that [createReactiveEffect] builds. *)
Definition new_effect (fn : Body) (options : ReactiveEffectOptions Body)
  : ReactiveEffect :=
  {| active := true; raw := fn; deps := [];
     computed := opt_computed options; scheduler := opt_scheduler options;
     onTrack := opt_onTrack options; onTrigger := opt_onTrigger options;
     onStop := opt_onStop options |}.

(** [const c = computed(getter); [c.value, c.value]] *)
Definition read_twice (DEV : bool) (exec_rec : Body → M Value)
    (getter : Body) (setter_ : option (Value → Body)) : M (Value * Value) :=
  let* r := computed_old exec_rec getter setter_ in
  let* v1 := ref_value_get DEV exec_rec r in
  let* v2 := ref_value_get DEV exec_rec r in
  ret (v1, v2).

(** [const c = computed(() => state.foo); c.value; effect(() => {},
    { lazy: true })]: a computed that has been read, and a plain effect. *)
Definition computed_program : Body :=
  NewObject (obj [(KStr "foo", VNumber 1)]) (λ c,
  NewComputed (GetProp (VProxy c false) (KStr "foo") Ret) None (λ cv,
  GetProp (VRef cv) (KStr "value") (λ _,
  NewEffect (inl (Ret VUndefined)) lazy_options (λ e, Ret VUndefined)))).

Definition computed_state : State :=
  final_state (exec true 10 computed_program initial_state).







(** The effect belongs to a closure based computed: its scheduler is the
    one that [computed] installs, [() => { dirty = true }]. *)
Definition closure_scheduled (st : State) (e : EffectId) (r : RefId) : Prop :=
  ∃ eff, effects st !! e = Some eff
         ∧ scheduler eff = Some (SchedComputed r)
         ∧ isComputedRef st r = true.

(** Only dirty flags were set, and diagnostic events logged. *)
Definition only_invalidated (st st' : State) : Prop :=
  effects st' = effects st ∧ targetMap st' = targetMap st
  ∧ objects st' = objects st
  ∧ activeReactiveEffectStack st' = activeReactiveEffectStack st
  ∧ (∀ e, calls (log st') e = calls (log st) e)
  ∧ (∀ r, isComputedRef st' r = isComputedRef st r)
  ∧ (∀ r, closure_value st' r = closure_value st r)
  ∧ (∀ r, closure_dirty st r = true → closure_dirty st' r = true).

(** [const c = computed(getterOrOptions); c.value = v] for the closure
    based and for the class based computed. *)
Definition create_and_write_old (DEV : bool) (exec_rec : Body → M Value)
    (sched_rec : RefId → M unit) (getter : Body)
    (setter_ : option (Value → Body)) (v : Value) : M unit :=
  let* r := computed_old exec_rec getter setter_ in
  ref_value_set DEV exec_rec sched_rec r v.

Definition create_and_write_new (DEV : bool) (exec_rec : Body → M Value)
    (sched_rec : RefId → M unit) (getter : Body)
    (setter_ : option (Value → Body))
    (debugOptions : option (option Hook * option Hook)) (v : Value)
  : M unit :=
  let* r := computed_new DEV getter setter_ debugOptions in
  ref_value_set DEV exec_rec sched_rec r v.

(** The tests and consequents along the alternates of a conditional, and
    the alternate the chain ends in. *)
Fixpoint condition_chain (node : CodegenNode)
  : list (ExpressionNode * CodegenNode) * option CodegenNode :=
  match node with
  | JS_CONDITIONAL_EXPRESSION test consequent alternate =>
      if isConditional alternate then
        ((test, consequent) :: (condition_chain alternate).1,
         (condition_chain alternate).2)
      else ([(test, consequent)], Some alternate)
  | JS_CACHE_EXPRESSION _ value => condition_chain value
  | _ => ([], None)
  end.

(** The code of an [IfNode] after its branches were attached one by
    one. *)
Definition attach_branches (root : CodegenNode)
    (branches : list (option ExpressionNode * CodegenNode))
  : option CodegenNode :=
  foldl (λ r b, r ≫= λ root,
           set_parent_alternate root (createCodegenNodeForBranch b.1 b.2))
        (Some root) branches.

(** A key that [isSameKey] can compare: an attribute with a value or a
    directive with a simple expression. *)
Definition comparable_key (a : KeyProp) : bool :=
  match a with
  | ATTRIBUTE (Some _) | DIRECTIVE (Some (SIMPLE_EXPRESSION _ _)) => true
  | _ => false
  end.

(** The number of branches of the [IfNode]s among the first [n]
    siblings. *)
Definition branches_before (siblings : list TemplateChildNode) (n : nat)
  : nat :=
  sum_list_with (λ c, match c with IF bs => length bs | _ => 0 end)
    (take n siblings).

(** What the last branch leaves as the end of the chain. *)
Definition final_alternate
    (branches : list (option ExpressionNode * CodegenNode))
    (before : option CodegenNode) : option CodegenNode :=
  match list.last branches with
  | None => before
  | Some (Some _, _) => Some (JS_CALL_EXPRESSION "CREATE_COMMENT")
  | Some (None, children) => Some children
  end.

(** * Auxiliary lemmas *)

(** ** Strict equality *)

Lemma strict_eq_true a b : strict_eq a b = true ↔ a = b ∧ b ≠ VNaN.
Proof.
  unfold strict_eq. split.
  - destruct a, b; try done; intros H; apply bool_decide_eq_true in H;
      by split.
  - intros [-> Hb]. destruct b; try done; by apply bool_decide_eq_true.
Qed.

Lemma strict_eq_value_changed a b : negb (strict_eq a b) = value_changed a b.
Proof.
  unfold value_changed, differs.
  destruct (strict_eq a b) eqn:He.
  - apply strict_eq_true in He as [-> Hb].
    rewrite bool_decide_eq_true_2 by done.
    by rewrite bool_decide_eq_false_2 by done.
  - simpl. symmetry. apply not_false_iff_true. intros Hc.
    apply orb_false_iff in Hc as [H1 H2].
    apply negb_false_iff, bool_decide_eq_true in H1.
    apply bool_decide_eq_false in H2.
    assert (strict_eq a b = true) by by apply strict_eq_true.
    congruence.
Qed.

(** ** Sets, and the effects collected by trigger *)

Lemma forEach_app {A} (l1 l2 : list A) (f : A → M unit) st :
  forEach (l1 ++ l2) f st = (forEach l1 f ;;; forEach l2 f) st.
Proof.
  revert st. induction l1 as [|x l1 IH]; intros st; simpl.
  - reflexivity.
  - unfold bind. destruct (f x st) as [[] st'|v st'|]; try reflexivity.
    rewrite IH. unfold bind. reflexivity.
Qed.

Lemma set_add_elem e x s : x ∈ set_add e s ↔ x = e ∨ x ∈ s.
Proof.
  unfold set_add. destruct (decide (e ∈ s)).
  - split; [auto|]. intros [->|]; auto.
  - rewrite elem_of_app, list_elem_of_singleton. tauto.
Qed.

Lemma set_add_NoDup e s : NoDup s → NoDup (set_add e s).
Proof.
  intros H. unfold set_add. destruct (decide (e ∈ s)); [done|].
  apply list.NoDup_app. split_and!; [done| |apply NoDup_singleton].
  intros x Hx Hx'. apply list_elem_of_singleton in Hx'. by subst.
Qed.

Lemma addRunners_fold_spec st dep sets :
  sets_ok st sets →
  let sets' := addRunners st sets (Some dep) in
  sets_ok st sets' ∧
  (∀ e, e ∈ sets'.2 ++ sets'.1 ↔ e ∈ sets.2 ++ sets.1 ∨ e ∈ dep).
Proof.
  simpl. revert sets. induction dep as [|x dep IH]; intros [ef cr] Hok; simpl.
  - split; [done|]. intros e. rewrite elem_of_nil. tauto.
  - fold (is_computed st x). destruct (is_computed st x) eqn:Hc.
    + destruct (IH (ef, set_add x cr)) as [H1 H2].
      { destruct Hok as (?&?&?&?). split_and!; simpl in *; auto using set_add_NoDup.
        intros e [->|]%set_add_elem; auto. }
      split; [done|]. intros e. rewrite H2. simpl.
      rewrite !elem_of_app, set_add_elem, elem_of_cons. tauto.
    + destruct (IH (set_add x ef, cr)) as [H1 H2].
      { destruct Hok as (?&?&?&?). split_and!; simpl in *; auto using set_add_NoDup.
        intros e [->|]%set_add_elem; auto. }
      split; [done|]. intros e. rewrite H2. simpl.
      rewrite !elem_of_app, set_add_elem, elem_of_cons. tauto.
Qed.

Lemma addRunners_spec st odep sets :
  sets_ok st sets →
  let sets' := addRunners st sets odep in
  sets_ok st sets' ∧
  (∀ e, e ∈ sets'.2 ++ sets'.1 ↔ e ∈ sets.2 ++ sets.1 ∨ e ∈ default [] odep).
Proof.
  destruct odep as [dep|]; [apply addRunners_fold_spec|].
  intros H; simpl. split; [done|]. intros e. rewrite elem_of_nil. tauto.
Qed.

Lemma sets_ok_nil st : sets_ok st ([], []).
Proof. split_and!; simpl; try apply NoDup_nil_2; intros e []%elem_of_nil. Qed.

Lemma collect_clear_spec st depsMap sets :
  sets_ok st sets →
  let sets' := foldl (λ sets '((_, dep) : option Key * Dep),
                        addRunners st sets (Some dep)) sets depsMap in
  sets_ok st sets' ∧
  (∀ e, e ∈ sets'.2 ++ sets'.1 ↔
        e ∈ sets.2 ++ sets.1 ∨ ∃ k dep, (k, dep) ∈ depsMap ∧ e ∈ dep).
Proof.
  simpl. revert sets. induction depsMap as [|[k dep] m IH]; intros sets Hok; simpl.
  - split; [done|]. intros e. split; [auto|]. intros [|(?&?&[]%elem_of_nil&_)]; done.
  - destruct (addRunners_fold_spec st dep sets Hok) as [Hok' Hm].
    destruct (IH _ Hok') as [H1 H2]. split; [done|].
    intros e. rewrite H2, Hm. split.
    + intros [[|]|(k'&dep'&?&?)]; auto.
      * right. exists k, dep. split; [left|done].
      * right. exists k', dep'. split; [by right|done].
    + intros [|(k'&dep'&[[= -> ->]|]%elem_of_cons&?)]; eauto 10.
Qed.

Lemma collect_runners_ok st depsMap target type key :
  sets_ok st (collect_runners st depsMap target type key).
Proof.
  unfold collect_runners. destruct (decide (type = CLEAR)).
  - apply collect_clear_spec, sets_ok_nil.
  - assert (sets_ok st match key with
      | Some _ => addRunners st ([], []) (alist_get key depsMap)
      | None => ([], []) end) as H.
    { destruct key; [apply addRunners_spec|]; apply sets_ok_nil. }
    case_bool_decide; [apply addRunners_spec|]; done.
Qed.

Lemma trigger_unfold DEV exec_rec sched_rec st target type key extraInfo :
  trigger DEV exec_rec sched_rec target type key extraInfo st
  = forEach (trigger_order st target type key)
      (λ e, scheduleRun DEV exec_rec sched_rec e target type key extraInfo) st.
Proof.
  unfold trigger, trigger_order.
  destruct (alist_get target (targetMap st)) as [depsMap|]; [|done].
  destruct (collect_runners st depsMap target type key) as [ef cr]; simpl.
  by rewrite forEach_app.
Qed.

Lemma trigger_order_ok st target type key :
  ∃ sets, sets_ok st sets ∧ trigger_order st target type key = sets.2 ++ sets.1.
Proof.
  unfold trigger_order.
  destruct (alist_get target (targetMap st)) as [depsMap|].
  - eexists; split; [apply collect_runners_ok|done].
  - exists ([], []); split; [apply sets_ok_nil|done].
Qed.

Lemma dep_of_get st target key depsMap :
  alist_get target (targetMap st) = Some depsMap →
  dep_of st (target, key) = default [] (alist_get key depsMap).
Proof. unfold dep_of, dep_at; simpl. by intros ->. Qed.

(** ** Relations kept by every execution *)

Section Respects.
Variable R : State → State → Prop.

Hypothesis HR : Respectable R.

Let R_refl := resp_refl R HR.
Let R_trans := resp_trans R HR.
Let R_objects := resp_objects R HR.
Let R_set_dirty := resp_set_dirty R HR.
Let R_set_value := resp_set_value R HR.
Let R_ref_write := resp_ref_write R HR.
Let R_new_ref := resp_new_ref R HR.
Let R_shouldTrack := resp_shouldTrack R HR.
Let R_LOCKED := resp_LOCKED R HR.
Let R_emit := resp_emit R HR.
Let R_subscribe := resp_subscribe R HR.
Let R_cleanup := resp_cleanup R HR.
Let R_deactivate := resp_deactivate R HR.
Let R_debug := resp_debug R HR.
Let R_new_effect := resp_new_effect R HR.
Let R_call := resp_call R HR.
Let R_bracket := resp_bracket R HR.

Lemma respects_ret {A} (a : A) : respects R (ret a).
Proof using All. intros st. apply R_refl. Qed.

Lemma respects_throw {A} v : respects R (@throw A v).
Proof using All. intros st. apply R_refl. Qed.

Lemma respects_gets {A} (f : State → A) : respects R (gets f).
Proof using All. intros st. apply R_refl. Qed.

Lemma respects_modify f : (∀ st, R st (f st)) → respects R (modify f).
Proof using Type. intros H st. apply H. Qed.

Lemma respects_bind {A B} (m : M A) (f : A → M B) :
  respects R m → (∀ a, respects R (f a)) → respects R (bind m f).
Proof using All.
  intros Hm Hf st. unfold bind. specialize (Hm st).
  destruct (m st) as [a st'|v st'|]; simpl in *; try done.
  specialize (Hf a st'). destruct (f a st'); simpl in *; eauto.
Qed.

Lemma respects_if {A} (c : bool) (a b : M A) :
  respects R a → respects R b → respects R (if c then a else b).
Proof using Type. by destruct c. Qed.

Lemma post_trans {A} st st' (r : Result A) :
  R st st' → post R st' r → post R st r.
Proof using All. destruct r; simpl; eauto. Qed.

Lemma respects_forEach {A} (l : list A) f :
  (∀ x, respects R (f x)) → respects R (forEach l f).
Proof using All.
  intros Hf. induction l; simpl.
  - apply respects_ret.
  - apply respects_bind; auto.
Qed.

Lemma stack_emit ev st :
  activeReactiveEffectStack (emit ev st) = activeReactiveEffectStack st.
Proof. done. Qed.

Lemma stack_subscribe e d st :
  activeReactiveEffectStack (subscribe e d st) = activeReactiveEffectStack st.
Proof. unfold subscribe. by case_decide. Qed.

Lemma R_track DEV target type key st : R st (track DEV target type key st).
Proof using All.
  unfold track. destruct (shouldTrack st); simpl; [|done].
  destruct (head (activeReactiveEffectStack st)) as [e|] eqn:He; [|done].
  match goal with |- context [subscribe e ?d st] => set (dd := d) end.
  pose proof (R_subscribe e dd st He) as H1.
  destruct (_ && DEV); [|done].
  destruct (_ ≫= onTrack); [|done].
  eapply R_trans; [exact H1|]. by apply R_emit.
Qed.

Lemma R_trackChildRun child st : R st (trackChildRun child st).
Proof using All.
  unfold trackChildRun.
  destruct (head (activeReactiveEffectStack st)) as [p|] eqn:Hp; [|done].
  generalize (default [] (deps <$> effects st !! child)). intros l.
  revert st Hp. induction l as [|d l IH]; intros st Hp; simpl; [done|].
  eapply R_trans; [by apply R_subscribe|]. apply IH.
  by rewrite stack_emit, stack_subscribe.
Qed.

Lemma R_stop e st : R st (stop e st).
Proof using All.
  unfold stop. destruct (effects st !! e) as [eff|]; [|done].
  destruct (active eff); [|done].
  eapply R_trans; [apply R_cleanup|].
  eapply R_trans; [|apply R_deactivate].
  destruct (onStop eff); [by apply R_emit|done].
Qed.

Section WithRec.
Variable DEV : bool.
Variable exec_rec : Body → M Value.
Variable sched_rec : RefId → M unit.
Hypothesis exec_rec_ok : ∀ b, respects R (exec_rec b).
Hypothesis sched_rec_ok : ∀ r, respects R (sched_rec r).

Lemma respects_run e : respects R (run exec_rec e).
Proof using All.
  intros st. unfold run.
  destruct (effects st !! e) as [eff|] eqn:He; [|apply R_refl].
  destruct (active eff) eqn:Ha; simpl.
  - case_bool_decide as Hs; [|apply R_refl].
    unfold finally_pop.
    pose proof (exec_rec_ok (raw eff)
                  (emit (EvCall e) (push e (cleanup e st)))) as H.
    destruct (exec_rec _ _); simpl in *; eauto.
  - eapply post_trans; [|apply exec_rec_ok]. by eapply R_call.
Qed.

Lemma respects_createReactiveEffect fn o :
  respects R (createReactiveEffect fn o).
Proof using All. intros st. simpl. by apply R_new_effect. Qed.

Lemma respects_effect fn o : respects R (effect exec_rec fn o).
Proof using All.
  unfold effect. apply respects_bind.
  - destruct fn; [apply respects_ret|].
    intros st. destruct (effects st !! _); apply R_refl.
  - intros b. apply respects_bind; [apply respects_createReactiveEffect|].
    intros e. destruct (negb _); [|apply respects_ret].
    apply respects_bind; [apply respects_run|]. intros; apply respects_ret.
Qed.

Lemma respects_call_scheduler s e :
  respects R (call_scheduler exec_rec sched_rec s e).
Proof using All.
  destruct s; simpl.
  - apply respects_bind; [done|]. intros; apply respects_ret.
  - apply respects_modify. intros; apply R_set_dirty.
  - done.
Qed.

Lemma respects_scheduleRun e target type key x :
  respects R (scheduleRun DEV exec_rec sched_rec e target type key x).
Proof using All.
  intros st. unfold scheduleRun.
  destruct (effects st !! e) as [eff|]; [|apply R_refl].
  set (st1 := call_onTrigger _ _ _ _ _ _ _ _).
  assert (R st st1) as H1.
  { subst st1. unfold call_onTrigger. destruct (onTrigger eff); [|done].
    destruct DEV; [by apply R_emit|done]. }
  destruct (scheduler eff) as [s|].
  - eapply post_trans; [|apply respects_call_scheduler].
    eapply R_trans; [exact H1|]. by apply R_emit.
  - eapply post_trans; [exact H1|].
    apply respects_bind; [apply respects_run|]. intros; apply respects_ret.
Qed.

Lemma respects_trigger target type key x :
  respects R (trigger DEV exec_rec sched_rec target type key x).
Proof using All.
  intros st. rewrite trigger_unfold.
  apply respects_forEach. intros. apply respects_scheduleRun.
Qed.

Ltac resp_known :=
  first
    [ apply exec_rec_ok | apply sched_rec_ok
    | apply respects_run | apply respects_effect
    | apply respects_createReactiveEffect
    | apply respects_scheduleRun | apply respects_trigger
    | apply respects_call_scheduler ].

Ltac resp_prim :=
  first
    [ apply R_track | apply R_trackChildRun | apply R_stop
    | apply R_set_dirty | apply R_set_value | apply R_ref_write
    | apply R_new_ref | apply R_objects
    | apply R_shouldTrack | apply R_LOCKED
    | apply R_debug | (apply R_emit; reflexivity) | apply R_refl ].

Ltac resp :=
  repeat first
    [ resp_known
    | apply respects_ret | apply respects_throw | apply respects_gets
    | apply respects_modify; intros ?; resp_prim
    | apply respects_bind; [|intros ?]
    | match goal with
      | |- respects _ (if _ then _ else _) => apply respects_if
      | |- respects _ (match ?x with _ => _ end) => destruct x
      end ].

Lemma respects_ref_get r v : respects R (ref_get DEV r v).
Proof using All. unfold ref_get. resp. Qed.

Lemma respects_ref_set r v :
  respects R (ref_set DEV exec_rec sched_rec r v).
Proof using All.
  intros st. unfold ref_set.
  eapply post_trans; [|apply respects_trigger]. apply R_ref_write.
Qed.

Lemma respects_computed_get_value r c :
  respects R (computed_get_value exec_rec r c).
Proof using All.
  unfold computed_get_value. resp.
Qed.

Lemma respects_call_setter s v : respects R (call_setter DEV exec_rec s v).
Proof using All. unfold call_setter. resp. Qed.

Lemma respects_triggerRefValue r :
  respects R (triggerRefValue DEV exec_rec sched_rec r).
Proof using All. unfold triggerRefValue. resp. Qed.

Lemma respects_ComputedRefImpl_scheduler r :
  respects R (ComputedRefImpl_scheduler DEV exec_rec sched_rec r).
Proof using All.
  unfold ComputedRefImpl_scheduler. resp.
Qed.

Lemma respects_ComputedRefImpl_get_value r c :
  respects R (ComputedRefImpl_get_value DEV exec_rec r c).
Proof using All.
  unfold ComputedRefImpl_get_value, trackRefValue. resp.
Qed.

Lemma respects_ComputedRefImpl_new g s ro :
  respects R (ComputedRefImpl_new g s ro).
Proof using All. unfold ComputedRefImpl_new. resp. Qed.

Lemma respects_computed_old g s : respects R (computed_old exec_rec g s).
Proof using All. unfold computed_old. resp. Qed.

Lemma respects_computed_new g s d : respects R (computed_new DEV g s d).
Proof using All.
  unfold computed_new. resp; try apply respects_ComputedRefImpl_new.
  apply respects_modify; intros st.
  destruct (refs st !! _) as [[]|]; resp_prim.
Qed.

Lemma respects_ref_value_get r :
  respects R (ref_value_get DEV exec_rec r).
Proof using All.
  intros st. unfold ref_value_get.
  destruct (refs st !! r) as [[]|]; [apply respects_ref_get
    |apply respects_computed_get_value
    |apply respects_ComputedRefImpl_get_value|apply R_refl].
Qed.

Lemma respects_ref_value_set r v :
  respects R (ref_value_set DEV exec_rec sched_rec r v).
Proof using All.
  intros st. unfold ref_value_set.
  destruct (refs st !! r) as [[]|]; [apply respects_ref_set
    |apply respects_call_setter|apply respects_call_setter|apply R_refl].
Qed.

Lemma respects_assign_value o v :
  respects R (assign_value DEV exec_rec sched_rec o v).
Proof using All.
  destruct o; simpl; try apply respects_ret. apply respects_ref_value_set.
Qed.

Lemma respects_Reflect_get t k rcv : respects R (Reflect_get exec_rec t k rcv).
Proof using All.
  intros st. unfold Reflect_get.
  destruct (own_property st t k); [apply R_refl|].
  destruct (proto_of st t); try apply R_refl; apply exec_rec_ok.
Qed.

Lemma R_write_property a k v st : R st (write_property a k v st).
Proof using All. apply R_objects. Qed.

Lemma respects_Reflect_set t k v rcv :
  respects R (Reflect_set exec_rec t k v rcv).
Proof using All.
  intros st. unfold Reflect_set.
  assert (post R st (match rcv with
            | VObject r | VProxy r _ =>
                Ok (VBool true) (write_property r k v st)
            | _ => Ok (VBool false) st end)) as Hd.
  { destruct rcv; simpl; try apply R_refl; apply R_write_property. }
  destruct (own_property st t k); [done|].
  destruct (proto_of st t); try done; apply exec_rec_ok.
Qed.

Lemma respects_Reflect_deleteProperty t k :
  respects R (Reflect_deleteProperty t k).
Proof using All.
  intros st. unfold Reflect_deleteProperty.
  destruct (hasOwn st t k && negb (configurable st t k)); [apply R_refl|].
  apply R_objects.
Qed.

Lemma respects_Reflect_has t k : respects R (Reflect_has exec_rec t k).
Proof using All.
  intros st. unfold Reflect_has.
  destruct (own_property st t k); [apply R_refl|].
  destruct (proto_of st t); try apply R_refl; apply exec_rec_ok.
Qed.

Lemma respects_Reflect_ownKeys t : respects R (Reflect_ownKeys t).
Proof using All. apply respects_gets. Qed.

Lemma respects_createGetter ro t k rcv :
  respects R (createGetter DEV exec_rec ro t k rcv).
Proof using All.
  unfold createGetter. apply respects_bind; [apply respects_Reflect_get|].
  intros res. destruct (_ && _); [apply respects_ret|].
  destruct res; resp. apply respects_ref_value_get.
Qed.

Lemma respects_set t k v rcv :
  respects R (set DEV exec_rec sched_rec t k v rcv).
Proof using All.
  unfold set. apply respects_bind; [apply respects_gets|]. intros hadKey.
  apply respects_bind; [apply respects_Reflect_get|]. intros old.
  destruct (_ && _).
  - apply respects_bind; [apply respects_assign_value|].
    intros; apply respects_ret.
  - apply respects_bind; [apply respects_Reflect_set|]. intros res.
    resp.
Qed.

Lemma respects_deleteProperty t k :
  respects R (deleteProperty DEV exec_rec sched_rec t k).
Proof using All.
  unfold deleteProperty.
  apply respects_bind; [apply respects_gets|]. intros hadKey.
  apply respects_bind; [apply respects_Reflect_get|]. intros old.
  apply respects_bind; [apply respects_Reflect_deleteProperty|]. intros res.
  resp.
Qed.

Lemma respects_has t k : respects R (has DEV exec_rec t k).
Proof using All.
  unfold has. apply respects_bind; [apply respects_Reflect_has|].
  intros; resp.
Qed.

Lemma respects_ownKeys t : respects R (ownKeys DEV t).
Proof using All. unfold ownKeys, Reflect_ownKeys. resp. Qed.

Lemma respects_readonly_set t k v rcv :
  respects R (readonly_set DEV exec_rec sched_rec t k v rcv).
Proof using All.
  unfold readonly_set. apply respects_bind; [apply respects_gets|].
  intros []; [resp|apply respects_set].
Qed.

Lemma respects_readonly_deleteProperty t k :
  respects R (readonly_deleteProperty DEV exec_rec sched_rec t k).
Proof using All.
  unfold readonly_deleteProperty.
  apply respects_bind; [apply respects_gets|].
  intros []; [resp|apply respects_deleteProperty].
Qed.

Lemma respects_exec_step b :
  respects R (exec_step DEV exec_rec sched_rec b).
Proof using All.
  destruct b; simpl.
  - apply respects_ret.
  - apply respects_throw.
  - apply respects_bind; [|done].
    destruct o; try apply respects_ret; try apply respects_throw.
    + apply respects_Reflect_get.
    + apply respects_createGetter.
    + case_decide; [apply respects_ref_value_get|apply respects_ret].
  - apply respects_bind; [|done].
    destruct o; try apply respects_throw.
    + apply respects_Reflect_set.
    + destruct ro; [apply respects_readonly_set|apply respects_set].
    + case_decide; [|apply respects_ret].
      apply respects_bind; [apply respects_ref_value_set|].
      intros; apply respects_ret.
  - apply respects_bind; [|done].
    destruct o; try apply respects_throw; try apply respects_ret.
    + apply respects_Reflect_deleteProperty.
    + destruct ro; [apply respects_readonly_deleteProperty
                   |apply respects_deleteProperty].
  - apply respects_bind; [|done].
    destruct o; try apply respects_throw; try apply respects_ret.
    + apply respects_Reflect_has.
    + apply respects_has.
  - apply respects_bind; [|done].
    destruct o; try apply respects_throw; try apply respects_ret.
    + apply respects_Reflect_ownKeys.
    + apply respects_ownKeys.
  - resp.
  - resp.
  - resp.
  - resp.
  - resp.
  - resp.
  - resp.
  - resp.
  - apply respects_bind; [apply respects_computed_old|done].
  - apply respects_bind; [apply respects_computed_new|done].
  - intros st. pose proof (exec_rec_ok b st) as H.
    destruct (exec_rec b st) as [v st'|v st'|]; simpl in *; [| |done].
    + eapply post_trans; [exact H|]. apply exec_rec_ok.
    + eapply post_trans; [exact H|]. resp.
Qed.
End WithRec.

Lemma exec_sched_respects DEV fuel :
  (∀ b, respects R (exec DEV fuel b)) ∧ (∀ r, respects R (sched DEV fuel r)).
Proof using All.
  induction fuel as [|n [IHe IHs]]; [by split; intros ? ?|].
  split.
  - intros b st. simpl. apply respects_exec_step; done.
  - intros r st. simpl. apply respects_ComputedRefImpl_scheduler; done.
Qed.

Lemma exec_respects DEV fuel b : respects R (exec DEV fuel b).
Proof using All. apply exec_sched_respects. Qed.

Lemma run_respects DEV fuel e : respects R (run (exec DEV fuel) e).
Proof using All.
  apply respects_run with (DEV := DEV) (sched_rec := sched DEV fuel);
    apply exec_sched_respects.
Qed.

Lemma trigger_respects DEV fuel target type key x :
  respects R (trigger DEV (exec DEV fuel) (sched DEV fuel) target type key x).
Proof using All. apply respects_trigger; apply exec_sched_respects. Qed.
End Respects.

(** ** The running stack *)

Lemma stack_cleanup e st :
  activeReactiveEffectStack (cleanup e st) = activeReactiveEffectStack st.
Proof. unfold cleanup. by destruct (effects st !! e). Qed.

Lemma same_stack_respectable : Respectable same_stack.
Proof.
  split; unfold same_stack; try done.
  - congruence.
  - intros. by rewrite stack_emit, stack_subscribe.
  - intros. apply stack_cleanup.
  - intros e eff st0 st1 _ _ _ H. simpl. rewrite H. simpl.
    by rewrite stack_cleanup.
Qed.

Lemma exec_same_stack DEV fuel b st : post same_stack st (exec DEV fuel b st).
Proof. apply exec_respects, same_stack_respectable. Qed.

Lemma run_same_stack DEV fuel e st :
  post same_stack st (run (exec DEV fuel) e st).
Proof. apply run_respects, same_stack_respectable. Qed.

(** ** The subscription invariant *)

Section alist_facts.
Context {K V : Type} `{EqDecision K}.
Implicit Types (m : list (K * V)).

Lemma alist_get_set_eq k v m : alist_get k (alist_set k v m) = Some v.
Proof.
  induction m as [|[k' v'] m IH]; simpl.
  - by rewrite decide_True.
  - destruct (decide (k = k')); simpl.
    + by rewrite decide_True.
    + by rewrite decide_False.
Qed.

Lemma alist_get_set_ne k k' v m :
  k ≠ k' → alist_get k' (alist_set k v m) = alist_get k' m.
Proof.
  intros Hne. induction m as [|[k0 v0] m IH]; simpl.
  - by rewrite decide_False.
  - destruct (decide (k = k0)) as [->|]; simpl.
    + by rewrite !decide_False.
    + destruct (decide (k' = k0)); done.
Qed.
End alist_facts.

Lemma dep_at_set t k x tm d' :
  dep_at (alist_set t (alist_set k x (default [] (alist_get t tm))) tm) d'
  = if decide (d' = (t, k)) then x else dep_at tm d'.
Proof.
  destruct d' as [t' k']. unfold dep_at; simpl.
  destruct (decide (t = t')) as [<-|Ht].
  - rewrite alist_get_set_eq.
    destruct (decide (k = k')) as [<-|Hk].
    + rewrite alist_get_set_eq. by rewrite decide_True.
    + rewrite alist_get_set_ne by exact Hk.
      rewrite decide_False by congruence.
      destruct (alist_get t tm); reflexivity.
  - rewrite alist_get_set_ne by done.
    rewrite decide_False by congruence. done.
Qed.

Lemma dep_of_subscribe e d st d' :
  dep_of (subscribe e d st) d'
  = if decide (d' = d) then set_add e (dep_of st d) else dep_of st d'.
Proof.
  destruct d as [t k]. unfold subscribe, dep_of; simpl.
  fold (dep_at (targetMap st) (t, k)).
  assert (default [] (alist_get k (default [] (alist_get t (targetMap st))))
          = dep_at (targetMap st) (t, k)) as ->.
  { unfold dep_at; simpl. by destruct (alist_get t (targetMap st)). }
  unfold set_add. destruct (decide (e ∈ dep_at (targetMap st) (t, k))); simpl;
    apply dep_at_set.
Qed.

Lemma deps_of_update e f st e' :
  deps_of (update_effect e f st) e'
  = if decide (e' = e) then default [] (deps ∘ f <$> effects st !! e)
    else deps_of st e'.
Proof.
  unfold deps_of, update_effect; simpl.
  destruct (decide (e' = e)) as [->|].
  - rewrite list_lookup_alter_eq. by destruct (effects st !! e).
  - by rewrite list_lookup_alter_ne.
Qed.

Lemma deps_of_subscribe e d st e' :
  is_Some (effects st !! e) →
  deps_of (subscribe e d st) e'
  = if decide (e' = e ∧ e ∉ dep_of st d) then deps_of st e ++ [d]
    else deps_of st e'.
Proof.
  intros [eff He]. unfold subscribe.
  assert (default [] (alist_get d.2 (default [] (alist_get d.1 (targetMap st))))
          = dep_of st d) as ->.
  { unfold dep_of, dep_at. by destruct (alist_get d.1 (targetMap st)). }
  destruct (decide (e ∈ dep_of st d)).
  - rewrite decide_False by tauto. done.
  - rewrite deps_of_update. simpl.
    destruct (decide (e' = e)) as [->|].
    + rewrite decide_True by done. unfold deps_of. by rewrite He.
    + rewrite decide_False by tauto. done.
Qed.

Lemma log_subscribe e d st : log (subscribe e d st) = log st.
Proof. unfold subscribe. by case_decide. Qed.

Lemma set_delete_elem e x s : x ∈ set_delete e s ↔ x ≠ e ∧ x ∈ s.
Proof. unfold set_delete. by rewrite list_elem_of_filter. Qed.

Lemma dep_at_update d f tm d' :
  f [] = [] →
  dep_at (dep_update d f tm) d'
  = if decide (d' = d) then f (dep_at tm d') else dep_at tm d'.
Proof.
  intros Hf. destruct d as [t k]. unfold dep_update; simpl.
  destruct (alist_get t tm) as [depsMap|] eqn:Ht.
  - destruct (alist_get k depsMap) as [dep|] eqn:Hk.
    + replace depsMap with (default [] (alist_get t tm)) at 1 by by rewrite Ht.
      rewrite dep_at_set. case_decide as Hd; [|done].
      subst d'. unfold dep_at; simpl. by rewrite Ht, Hk.
    + case_decide as Hd; [|done]. subst d'. unfold dep_at; simpl.
      rewrite Ht, Hk. simpl. by rewrite Hf.
  - case_decide as Hd; [|done]. subst d'. unfold dep_at; simpl.
    rewrite Ht. by rewrite Hf.
Qed.

Lemma dep_at_cleanup_fold e ds tm d' x :
  x ∈ dep_at (foldl (λ tm d, dep_update d (set_delete e) tm) tm ds) d'
  ↔ x ∈ dep_at tm d' ∧ (d' ∈ ds → x ≠ e).
Proof.
  revert tm. induction ds as [|d ds IH]; intros tm; simpl.
  - split; [intros; split; [done|by intros ?%elem_of_nil]|tauto].
  - rewrite IH, dep_at_update by done. rewrite elem_of_cons.
    case_decide as Hd.
    + subst d'. rewrite set_delete_elem. tauto.
    + tauto.
Qed.

Lemma live_tracks_snoc l ev e :
  live_tracks (l ++ [ev]) e = live_step e (live_tracks l e) ev.
Proof. unfold live_tracks. by rewrite foldl_app. Qed.

Lemma Inv_ext st st' :
  activeReactiveEffectStack st' = activeReactiveEffectStack st →
  effects st' = effects st → targetMap st' = targetMap st →
  log st' = log st → Inv st → Inv st'.
Proof.
  intros Hs He Ht Hl [H1 H2 H3]. split.
  - rewrite Hs, He. done.
  - intros e d. unfold dep_of, deps_of. rewrite Ht, He. apply H2.
  - intros e d. unfold deps_of. rewrite Hl, He. apply H3.
Qed.

Lemma Inv_emit ev st :
  (∀ e d, ev ≠ EvTrack e d) → (∀ e, ev ≠ EvCleanup e) →
  Inv st → Inv (emit ev st).
Proof.
  intros Ht Hc [H1 H2 H3]. split; [done|done|].
  intros e d. simpl. rewrite live_tracks_snoc.
  destruct ev; simpl; try apply H3.
  - by destruct (Hc e0).
  - by destruct (Ht e0 d0).
Qed.

Lemma Inv_subscribe e d st :
  head (activeReactiveEffectStack st) = Some e →
  Inv st → Inv (emit (EvTrack e d) (subscribe e d st)).
Proof.
  intros He [H1 H2 H3].
  assert (is_Some (effects st !! e)) as Hv.
  { apply lookup_lt_is_Some, H1.
    destruct (activeReactiveEffectStack st); simplify_eq/=. left. }
  split.
  - intros e'. simpl. rewrite stack_subscribe. intros ?%H1.
    unfold subscribe. case_decide; simpl; [done|]. by rewrite length_alter.
  - intros e' d'. unfold dep_of at 1. simpl targetMap.
    fold (dep_of (subscribe e d st) d').
    assert (deps_of (emit (EvTrack e d) (subscribe e d st)) e'
            = deps_of (subscribe e d st) e') as -> by done.
    rewrite dep_of_subscribe, deps_of_subscribe by done.
    pose proof (H2 e d). pose proof (H2 e' d'). pose proof (H2 e d').
    pose proof (H2 e' d).
    destruct (decide (d' = d)) as [->|Hd];
      destruct (decide (e' = e ∧ e ∉ dep_of st d)) as [[-> Hn]|Hn];
      rewrite ?set_add_elem, ?elem_of_app, ?list_elem_of_singleton;
      try tauto.
    destruct (decide (e' = e)) as [->|]; [|tauto].
    destruct (decide (e ∈ dep_of st d)); tauto.
  - intros e' d'. simpl log. rewrite live_tracks_snoc, log_subscribe. simpl.
    assert (deps_of (emit (EvTrack e d) (subscribe e d st)) e'
            = deps_of (subscribe e d st) e') as -> by done.
    rewrite deps_of_subscribe by done.
    pose proof (H3 e d) as H3e. pose proof (H2 e d) as H2e.
    specialize (H3 e' d').
    destruct (decide (e = e')) as [<-|Hne].
    + rewrite elem_of_app, list_elem_of_singleton.
      destruct (decide (e = e ∧ e ∉ dep_of st d)) as [[_ Hn]|Hn].
      * rewrite elem_of_app, list_elem_of_singleton. tauto.
      * destruct (decide (e ∈ dep_of st d)); [|tauto].
        split; [tauto|]. intros [?| ->]; tauto.
    + rewrite decide_False by (intros [? _]; congruence). done.
Qed.

Lemma Inv_cleanup e st : Inv st → Inv (cleanup e st).
Proof.
  intros [H1 H2 H3]. unfold cleanup.
  destruct (effects st !! e) as [eff|] eqn:He; [|done].
  assert (deps_of st e = deps eff) as Hde by (unfold deps_of; by rewrite He).
  split.
  - intros e'. simpl. rewrite length_alter. apply H1.
  - intros e' d'. unfold dep_of. simpl targetMap.
    rewrite dep_at_cleanup_fold. fold (dep_of st d').
    match goal with |- _ ↔ _ ∈ deps_of ?s _ =>
      assert (∀ x, deps_of s x = deps_of (update_effect e (set_deps [])
                (set_targetMap (targetMap s) st)) x) as -> by done end.
    rewrite deps_of_update. simpl. unfold deps_of at 1. simpl effects.
    fold (deps_of st e'). rewrite He. simpl.
    specialize (H2 e' d'). rewrite <- Hde.
    destruct (decide (e' = e)) as [->|].
    + rewrite elem_of_nil. tauto.
    + tauto.
  - intros e' d'. simpl log. rewrite live_tracks_snoc. simpl.
    match goal with |- _ ∈ deps_of ?s _ ↔ _ =>
      assert (∀ x, deps_of s x = deps_of (update_effect e (set_deps [])
                (set_targetMap (targetMap s) st)) x) as -> by done end.
    rewrite deps_of_update. simpl. unfold deps_of at 1. simpl effects.
    fold (deps_of st e'). rewrite He. simpl.
    destruct (decide (e = e')) as [<-|].
    + by rewrite decide_True.
    + rewrite decide_False by done. apply H3.
Qed.

Lemma Inv_update_effect e f st :
  (∀ eff, deps (f eff) = deps eff) → Inv st → Inv (update_effect e f st).
Proof.
  intros Hf [H1 H2 H3].
  assert (∀ x, deps_of (update_effect e f st) x = deps_of st x) as Hd.
  { intros x. rewrite deps_of_update. case_decide as Hx; [|done]. subst.
    unfold deps_of. destruct (effects st !! e); simpl; [apply Hf|done]. }
  split.
  - intros e'. simpl. rewrite length_alter. apply H1.
  - intros e' d'. rewrite Hd. apply H2.
  - intros e' d'. rewrite Hd. apply H3.
Qed.

Lemma Inv_new_effect eff st :
  deps eff = [] → Inv st → Inv (set_effects (effects st ++ [eff]) st).
Proof.
  intros Hd [H1 H2 H3].
  assert (∀ x, deps_of (set_effects (effects st ++ [eff]) st) x = deps_of st x)
    as Hx.
  { intros x. unfold deps_of. simpl.
    destruct (decide (x < length (effects st))).
    - by rewrite lookup_app_l.
    - rewrite lookup_app_r by lia. rewrite (lookup_ge_None_2 (effects st)) by lia.
      destruct (x - length (effects st)); simpl; [by rewrite Hd|done]. }
  split.
  - intros e ?%H1. simpl. rewrite length_app. lia.
  - intros e d. rewrite Hx. apply H2.
  - intros e d. rewrite Hx. apply H3.
Qed.

Lemma Inv_push e st :
  is_Some (effects st !! e) → Inv st → Inv (push e st).
Proof.
  intros He [H1 H2 H3]. split; [|done|done].
  intros e' [->|?]%elem_of_cons; [by apply lookup_lt_is_Some|by apply H1].
Qed.

Lemma Inv_pop st : Inv st → Inv (pop st).
Proof.
  intros [H1 H2 H3]. split; [|done|done].
  intros e He. apply H1. simpl in He.
  destruct (activeReactiveEffectStack st); [done|by right].
Qed.

Lemma effects_length_cleanup e st :
  length (effects (cleanup e st)) = length (effects st).
Proof.
  unfold cleanup. destruct (effects st !! e); [|done]. simpl.
  by rewrite length_alter.
Qed.

Lemma Inv_respectable : Respectable (λ st st', Inv st → Inv st').
Proof.
  split; try done.
  - auto.
  - intros x st0. by apply Inv_ext.
  - intros r b0 st0. by apply Inv_ext.
  - intros r v st0. by apply Inv_ext.
  - intros r v st0. by apply Inv_ext.
  - intros x st0. by apply Inv_ext.
  - intros x st0. by apply Inv_ext.
  - intros x st0. by apply Inv_ext.
  - intros ev st0 Hg. apply Inv_emit; by destruct ev.
  - intros. by apply Inv_subscribe.
  - intros. by apply Inv_cleanup.
  - intros. by apply Inv_update_effect.
  - intros. by apply Inv_update_effect.
  - intros. by apply Inv_new_effect.
  - intros. by apply Inv_emit.
  - intros e eff st0 st1 He Ha Hs H HI. apply Inv_pop, H.
    apply Inv_emit; [done|done|]. apply Inv_push; [|by apply Inv_cleanup].
    apply lookup_lt_is_Some. rewrite effects_length_cleanup.
    by apply lookup_lt_is_Some.
Qed.

Lemma exec_Inv DEV fuel b st :
  post (λ st st', Inv st → Inv st') st (exec DEV fuel b st).
Proof. apply exec_respects, Inv_respectable. Qed.

Lemma Inv_initial : Inv initial_state.
Proof.
  split.
  - intros e []%elem_of_nil.
  - intros e d. unfold dep_of, dep_at, deps_of. simpl.
    split; intros []%elem_of_nil.
  - intros e d. unfold deps_of. simpl. split; intros []%elem_of_nil.
Qed.

(** ** Running an effect *)

Lemma run_reentrant exec_rec e eff st :
  effects st !! e = Some eff → active eff = true →
  e ∈ activeReactiveEffectStack st →
  run exec_rec e st = Ok VUndefined st.
Proof.
  intros He Ha Hs. unfold run. rewrite He, Ha. simpl.
  by rewrite bool_decide_eq_false_2 by tauto.
Qed.

(** ** Reads under a built-in symbol *)

Lemma createGetter_builtin DEV exec_rec isReadonly target key receiver st :
  isSymbol key && builtInSymbols_has key = true →
  createGetter DEV exec_rec isReadonly target key receiver st
  = Reflect_get exec_rec target key receiver st.
Proof.
  intros Hk. unfold createGetter, bind.
  destruct (Reflect_get exec_rec target key receiver st); [|done|done].
  by rewrite Hk.
Qed.

Lemma Reflect_get_unchanged exec_rec target key receiver st :
  (∀ o, unchanged st (exec_rec (ReflectGet o key receiver Ret) st)) →
  unchanged st (Reflect_get exec_rec target key receiver st).
Proof.
  intros H. unfold Reflect_get.
  destruct (own_property st target key); [done|].
  destruct (proto_of st target); try done; apply H.
Qed.

Lemma exec_Ret DEV fuel v st : unchanged st (exec DEV fuel (Ret v) st).
Proof. by destruct fuel. Qed.

Lemma exec_ReflectGet_builtin DEV fuel o key receiver st :
  isSymbol key && builtInSymbols_has key = true →
  unchanged st (exec DEV fuel (ReflectGet o key receiver Ret) st).
Proof.
  intros Hk. revert o st.
  induction fuel as [|n IH]; intros o st; [done|].
  simpl. unfold bind.
  assert (∀ a, unchanged st
            (Reflect_get (λ b' st', exec DEV n b' st') a key receiver st))
    as Hget.
  { intros a. apply Reflect_get_unchanged. intros o'. apply IH. }
  destruct o; simpl; try done; try apply exec_Ret.
  - specialize (Hget a).
    destruct (Reflect_get _ a key receiver st) as [v st'|v st'|];
      simpl in *; subst; try done. apply exec_Ret.
  - rewrite createGetter_builtin by done. specialize (Hget a).
    destruct (Reflect_get _ a key receiver st) as [v st'|v st'|];
      simpl in *; subst; try done. apply exec_Ret.
  - destruct key; [done|]. rewrite decide_False by done. apply exec_Ret.
Qed.

(** ** Ref objects persist *)

Lemma same_ref_refl o : same_ref o o.
Proof. by destruct o. Qed.

Lemma same_ref_trans o1 o2 o3 : same_ref o1 o2 → same_ref o2 o3 → same_ref o1 o3.
Proof. destruct o1, o2, o3; simpl; try done; congruence. Qed.

Lemma refs_persist_refl st : refs_persist st st.
Proof. intros r o H. exists o. split; [done|apply same_ref_refl]. Qed.

Lemma refs_persist_trans a b c :
  refs_persist a b → refs_persist b c → refs_persist a c.
Proof.
  intros H1 H2 r o Ho. destruct (H1 r o Ho) as (o1 & Ho1 & Hs1).
  destruct (H2 r o1 Ho1) as (o2 & Ho2 & Hs2).
  exists o2. split; [done|]. by eapply same_ref_trans.
Qed.

Lemma refs_persist_same st st' : refs st' = refs st → refs_persist st st'.
Proof. intros H r o Ho. rewrite H. exists o. split; [done|apply same_ref_refl]. Qed.

Lemma refs_persist_alter f r st :
  (∀ o, same_ref o (f o)) → refs_persist st (set_refs (alter f r (refs st)) st).
Proof.
  intros Hf r' o Ho. simpl. destruct (decide (r = r')) as [->|].
  - rewrite list_lookup_alter_eq, Ho. simpl. eauto.
  - rewrite list_lookup_alter_ne by done. exists o. split; [done|apply same_ref_refl].
Qed.

Lemma refs_cleanup e st : refs (cleanup e st) = refs st.
Proof. unfold cleanup. by destruct (effects st !! e). Qed.

Lemma refs_subscribe e d st : refs (subscribe e d st) = refs st.
Proof. unfold subscribe. by case_decide. Qed.

Lemma refs_persist_respectable : Respectable refs_persist.
Proof.
  split.
  - apply refs_persist_refl.
  - apply refs_persist_trans.
  - intros. by apply refs_persist_same.
  - intros. apply refs_persist_alter. by intros [].
  - intros. apply refs_persist_alter. by intros [].
  - intros. apply refs_persist_alter. by intros [].
  - intros x st0 r o Ho. simpl. exists o. split; [|apply same_ref_refl].
    rewrite lookup_app_l; [done|]. by eapply lookup_lt_Some.
  - intros. by apply refs_persist_same.
  - intros. by apply refs_persist_same.
  - intros. by apply refs_persist_same.
  - intros. apply refs_persist_same. simpl. apply refs_subscribe.
  - intros. apply refs_persist_same. apply refs_cleanup.
  - intros. by apply refs_persist_same.
  - intros. by apply refs_persist_same.
  - intros. by apply refs_persist_same.
  - intros. by apply refs_persist_same.
  - intros e0 eff st0 st1 _ _ _ H r o Ho.
    destruct (H r o) as (o' & Ho' & Hs); [simpl; by rewrite refs_cleanup|].
    exists o'. done.
Qed.

Lemma run_refs_persist DEV fuel e st :
  post refs_persist st (run (exec DEV fuel) e st).
Proof. apply run_respects, refs_persist_respectable. Qed.

(** ** Counting executions *)

Lemma calls_snoc l ev e :
  calls (l ++ [ev]) e = calls l e + (if decide (ev = EvCall e) then 1 else 0).
Proof.
  unfold calls. rewrite list.filter_app, length_app. f_equal.
  rewrite list.filter_cons, list.filter_nil. by case_decide.
Qed.

Lemma calls_emit ev st e :
  (∀ e', ev ≠ EvCall e') → calls (log (emit ev st)) e = calls (log st) e.
Proof. intros H. simpl. rewrite calls_snoc, decide_False by done. lia. Qed.


Lemma calls_trackChildRun child st e :
  calls (log (trackChildRun child st)) e = calls (log st) e.
Proof.
  unfold trackChildRun.
  destruct (head (activeReactiveEffectStack st)) as [p|]; [|done].
  generalize (default [] (deps <$> effects st !! child)). intros l.
  revert st. induction l as [|d l IH]; intros st; simpl; [done|].
  rewrite IH, calls_emit by done. by rewrite log_subscribe.
Qed.

(** ** Computed values *)

Lemma closure_dirty_set_dirty r b st :
  isComputedRef st r = true → closure_dirty (set_dirty r b st) r = b.
Proof.
  unfold isComputedRef, closure_dirty, set_dirty. simpl.
  rewrite list_lookup_alter_eq. by destruct (refs st !! r) as [[]|].
Qed.

Lemma closure_value_set_dirty r b st :
  closure_value (set_dirty r b st) r = closure_value st r.
Proof.
  unfold closure_value, set_dirty. simpl.
  rewrite list_lookup_alter_eq. by destruct (refs st !! r) as [[]|].
Qed.


Lemma closure_dirty_set_value r v st :
  closure_dirty (set_computed_value r v st) r = closure_dirty st r.
Proof.
  unfold closure_dirty, set_computed_value, update_ref. simpl.
  rewrite list_lookup_alter_eq. by destruct (refs st !! r) as [[]|].
Qed.


Lemma scheduleRun_scheduler DEV exec_rec sched_rec effect eff s target type
    key x st :
  effects st !! effect = Some eff → scheduler eff = Some s →
  scheduleRun DEV exec_rec sched_rec effect target type key x st
  = call_scheduler exec_rec sched_rec s effect
      (emit (EvScheduler effect)
         (call_onTrigger DEV eff effect target type key x st)).
Proof. intros He Hs. unfold scheduleRun. by rewrite He, Hs. Qed.


Lemma refs_trackChildRun child st : refs (trackChildRun child st) = refs st.
Proof.
  unfold trackChildRun.
  destruct (head (activeReactiveEffectStack st)) as [p|]; [|done].
  generalize (default [] (deps <$> effects st !! child)). intros l.
  revert st. induction l as [|d l IH]; intros st; simpl; [done|].
  rewrite IH. simpl. apply refs_subscribe.
Qed.



Lemma run_fresh exec_rec e eff st :
  effects st !! e = Some eff → active eff = true →
  e ∉ activeReactiveEffectStack st →
  run exec_rec e st
  = finally_pop (exec_rec (raw eff)) (emit (EvCall e) (push e (cleanup e st))).
Proof.
  intros He Ha Hs. unfold run. rewrite He, Ha. simpl.
  by rewrite bool_decide_eq_true_2.
Qed.

(** ** Who is added to a dependency set *)

Lemma dep_of_track DEV target type key st e d :
  e ∈ dep_of (track DEV target type key st) d → e ∉ dep_of st d →
  head (activeReactiveEffectStack st) = Some e ∧ shouldTrack st = true
  ∧ d = (target, if decide (type = ITERATE) then Some ITERATE_KEY else key).
Proof.
  unfold track. destruct (shouldTrack st); simpl; [|done].
  destruct (head (activeReactiveEffectStack st)) as [p|]; [|done].
  set (k := if decide (type = ITERATE) then Some ITERATE_KEY else key).
  intros Hin Hnot.
  assert (e ∈ dep_of (subscribe p (target, k) st) d) as Hs.
  { destruct (_ && DEV); [|exact Hin].
    destruct (_ ≫= onTrack); exact Hin. }
  rewrite dep_of_subscribe in Hs. case_decide as Hd; [|done]. subst d.
  apply set_add_elem in Hs as [->|?]; done.
Qed.

Lemma dep_of_trackChildRun child st e d :
  e ∈ dep_of (trackChildRun child st) d → e ∉ dep_of st d →
  head (activeReactiveEffectStack st) = Some e ∧ d ∈ deps_of st child.
Proof.
  unfold trackChildRun, deps_of.
  destruct (head (activeReactiveEffectStack st)) as [p|]; [|done].
  generalize (default [] (deps <$> effects st !! child)). intros l.
  revert st. induction l as [|d' l IH]; intros st; simpl; [done|].
  intros Hin Hnot.
  destruct (decide (e ∈ dep_of (emit (EvTrack p d') (subscribe p d' st)) d))
    as [Hm|Hm].
  - assert (dep_of (emit (EvTrack p d') (subscribe p d' st)) d
            = dep_of (subscribe p d' st) d) as Heq by done.
    rewrite Heq, dep_of_subscribe in Hm. case_decide; [|done]. subst d'.
    apply set_add_elem in Hm as [->|?]; [|done]. split; [done|left].
  - destruct (IH _ Hin Hm) as [? ?]. split; [done|by right].
Qed.

Lemma cleanup_clears e eff st :
  Inv st → effects st !! e = Some eff →
  (∀ d, e ∉ dep_of (cleanup e st) d) ∧ deps_of (cleanup e st) e = [].
Proof.
  intros HI He. pose proof (Inv_cleanup e st HI) as [_ H2 _].
  assert (deps_of (cleanup e st) e = []) as Hd.
  { unfold cleanup. rewrite He.
    match goal with |- deps_of ?s _ = _ =>
      assert (∀ x, deps_of s x = deps_of (update_effect e (set_deps [])
                (set_targetMap (targetMap s) st)) x) as -> by done end.
    rewrite deps_of_update, decide_True by done. simpl. by rewrite He. }
  split; [|done]. intros d Hin. apply H2 in Hin. rewrite Hd in Hin.
  by apply elem_of_nil in Hin.
Qed.

Lemma scheduleRun_running DEV exec_rec sched_rec e eff target type key x st :
  effects st !! e = Some eff → active eff = true → scheduler eff = None →
  e ∈ activeReactiveEffectStack st →
  scheduleRun DEV exec_rec sched_rec e target type key x st
  = Ok tt (call_onTrigger DEV eff e target type key x st).
Proof.
  intros He Ha Hs Hin. unfold scheduleRun. rewrite He, Hs.
  unfold bind. rewrite (run_reentrant _ _ eff); [done| |done|].
  - unfold call_onTrigger. destruct (onTrigger eff); [|done]. by destruct DEV.
  - unfold call_onTrigger. destruct (onTrigger eff); [|done]. by destruct DEV.
Qed.

(** ** No re-entry of a running effect *)

Lemma not_reentered_refl e st : not_reentered e st st.
Proof. done. Qed.

Lemma not_reentered_trans e a b c :
  not_reentered e a b → not_reentered e b c → not_reentered e a c.
Proof.
  intros (Hs1 & Hi1 & Hc1) (Hs2 & Hi2 & Hc2). split_and!.
  - congruence.
  - auto.
  - intros Hin Hc. rewrite Hc2; [|by rewrite Hs1|done].
    apply Hc1; [done|]. destruct (stopped b e) eqn:Hb; [|done].
    rewrite Hi2 in Hc; done.
Qed.

Lemma not_reentered_same e st st' :
  activeReactiveEffectStack st' = activeReactiveEffectStack st →
  effects st' = effects st → log st' = log st → not_reentered e st st'.
Proof.
  intros Hs He Hl. unfold not_reentered, stopped. by rewrite Hs, He, Hl.
Qed.

Lemma stopped_update e f st e' :
  (∀ eff, active (f eff) = true → active eff = true) →
  stopped st e' = true → stopped (update_effect e f st) e' = true.
Proof.
  intros Hf. unfold stopped, update_effect. simpl.
  destruct (decide (e = e')) as [->|].
  - rewrite list_lookup_alter_eq. destruct (effects st !! e') as [eff|]; [|done].
    simpl. specialize (Hf eff). destruct (active eff), (active (f eff)); auto.
  - by rewrite list_lookup_alter_ne.
Qed.

Lemma not_reentered_update e f st e' :
  (∀ eff, active (f eff) = true → active eff = true) →
  not_reentered e' st (update_effect e f st).
Proof. intros Hf. split_and!; [done|by apply stopped_update|done]. Qed.

Lemma stopped_subscribe e d st e' :
  stopped (subscribe e d st) e' = stopped st e'.
Proof.
  unfold subscribe. case_decide; [done|]. unfold stopped, update_effect. simpl.
  destruct (decide (e = e')) as [->|].
  - rewrite list_lookup_alter_eq. by destruct (effects st !! e').
  - by rewrite list_lookup_alter_ne.
Qed.

Lemma stopped_cleanup e st e' : stopped (cleanup e st) e' = stopped st e'.
Proof.
  unfold cleanup. destruct (effects st !! e) eqn:He; [|done].
  unfold stopped. simpl. destruct (decide (e = e')) as [->|].
  - rewrite list_lookup_alter_eq, He. done.
  - by rewrite list_lookup_alter_ne.
Qed.

Lemma log_cleanup e st e' :
  calls (log (cleanup e st)) e' = calls (log st) e'.
Proof.
  unfold cleanup. destruct (effects st !! e); [|done]. simpl.
  rewrite calls_snoc, decide_False by done. lia.
Qed.

Lemma not_reentered_respectable e0 : Respectable (not_reentered e0).
Proof.
  split.
  - apply not_reentered_refl.
  - apply not_reentered_trans.
  - intros. by apply not_reentered_same.
  - intros. by apply not_reentered_same.
  - intros. by apply not_reentered_same.
  - intros. by apply not_reentered_same.
  - intros. by apply not_reentered_same.
  - intros. by apply not_reentered_same.
  - intros. by apply not_reentered_same.
  - intros ev st0 Hg. split_and!; [done|done|]. intros _ _. simpl.
    rewrite calls_snoc, decide_False; [lia|]. by destruct ev.
  - intros e1 d st0 _. split_and!.
    + by rewrite stack_emit, stack_subscribe.
    + intros H. unfold stopped in *. simpl.
      fold (stopped (subscribe e1 d st0) e0). by rewrite stopped_subscribe.
    + intros _ _. simpl. rewrite calls_snoc, decide_False by done.
      rewrite log_subscribe. lia.
  - intros e1 st0. split_and!.
    + apply stack_cleanup.
    + by rewrite stopped_cleanup.
    + intros _ _. apply log_cleanup.
  - intros. apply not_reentered_update. by intros [].
  - intros. apply not_reentered_update. by intros [].
  - intros eff st0 Hd Ha. split_and!; [done| |done].
    unfold stopped. simpl. destruct (effects st0 !! e0) eqn:He0; [|done].
    rewrite lookup_app_l by by eapply lookup_lt_Some. by rewrite He0.
  - intros e1 eff st0 He1 Ha. split_and!; [done|done|].
    intros _ Hns. simpl. rewrite calls_snoc.
    case_decide as Heq; [|lia]. simplify_eq.
    unfold stopped in Hns. simpl in Hns. rewrite He1, Ha in Hns. done.
  - intros e1 eff st0 st1 He1 Ha Hs (Hs1 & Hi1 & Hc1). split_and!.
    + simpl. rewrite Hs1. simpl. by rewrite stack_cleanup.
    + intros H. apply Hi1. unfold stopped in *. simpl.
      fold (stopped (cleanup e1 st0) e0). by rewrite stopped_cleanup.
    + intros Hin Hns. simpl. rewrite Hc1.
      * simpl. rewrite calls_snoc, log_cleanup.
        rewrite decide_False; [lia|]. intros [= ->]. done.
      * simpl. rewrite stack_cleanup. by right.
      * done.
Qed.

(** One invocation of an effect that is not already running enters its
    wrapped function exactly once, whatever the function triggers, unless
    the effect is stopped meanwhile. *)
Lemma run_calls_once DEV fuel e eff st :
  effects st !! e = Some eff → active eff = true →
  e ∉ activeReactiveEffectStack st →
  holds_after (λ st', stopped st' e = false →
                      calls (log st') e = calls (log st) e + 1)
    (run (exec DEV fuel) e st).
Proof.
  intros He Ha Hs. rewrite (run_fresh _ _ eff) by done.
  unfold finally_pop.
  pose proof (exec_respects _ (not_reentered_respectable e) DEV fuel (raw eff)
                (emit (EvCall e) (push e (cleanup e st)))) as H.
  assert (calls (log (emit (EvCall e) (push e (cleanup e st)))) e
          = calls (log st) e + 1) as Hc.
  { simpl. rewrite calls_snoc, log_cleanup. by rewrite decide_True. }
  destruct (exec DEV fuel (raw eff) _) as [v st1|v st1|]; simpl in *;
    [| |done].
  - destruct H as (_ & _ & H). intros Hns. rewrite <- Hc.
    apply H; [left|done].
  - destruct H as (_ & _ & H). intros Hns. rewrite <- Hc.
    apply H; [left|done].
Qed.

(** ** Stopped effects *)

Lemma stays_retired_same e st st' :
  activeReactiveEffectStack st' = activeReactiveEffectStack st →
  effects st' = effects st → targetMap st' = targetMap st →
  stays_retired e st st'.
Proof.
  intros Hs He Ht. unfold stays_retired, retired, stopped, dep_of.
  by rewrite Hs, He, Ht.
Qed.

Lemma dep_of_cleanup e st x d :
  x ∈ dep_of (cleanup e st) d → x ∈ dep_of st d.
Proof.
  unfold cleanup. destruct (effects st !! e); [|done].
  unfold dep_of. simpl. rewrite dep_at_cleanup_fold. tauto.
Qed.

Lemma stays_retired_respectable e0 : Respectable (stays_retired e0).
Proof.
  split.
  - by intros st H.
  - intros a b c H1 H2 H. auto.
  - intros. by apply stays_retired_same.
  - intros. by apply stays_retired_same.
  - intros. by apply stays_retired_same.
  - intros. by apply stays_retired_same.
  - intros. by apply stays_retired_same.
  - intros. by apply stays_retired_same.
  - intros. by apply stays_retired_same.
  - intros. by apply stays_retired_same.
  - intros e1 d st0 Hh (Hst & Hs & Hd). split_and!.
    + unfold stopped in *. simpl.
      fold (stopped (subscribe e1 d st0) e0). by rewrite stopped_subscribe.
    + by rewrite stack_emit, stack_subscribe.
    + intros d'.
      assert (dep_of (emit (EvTrack e1 d) (subscribe e1 d st0)) d'
              = dep_of (subscribe e1 d st0) d') as -> by done.
      rewrite dep_of_subscribe. case_decide; [|done].
      rewrite set_add_elem. intros [->|?]; [|by eapply Hd].
      apply Hs. destruct (activeReactiveEffectStack st0); simplify_eq/=.
      left.
  - intros e1 st0 (Hst & Hs & Hd). split_and!.
    + by rewrite stopped_cleanup.
    + by rewrite stack_cleanup.
    + intros d Hin. eapply Hd, dep_of_cleanup, Hin.
  - intros e1 st0 (Hst & Hs & Hd). split_and!; [|done|done].
    apply stopped_update; [by intros []|done].
  - intros e1 t g st0 (Hst & Hs & Hd). split_and!; [|done|done].
    apply stopped_update; [by intros []|done].
  - intros eff st0 _ _ (Hst & Hs & Hd). split_and!; [|done|done].
    unfold stopped in *. simpl. destruct (effects st0 !! e0) eqn:He0; [|done].
    rewrite lookup_app_l by by eapply lookup_lt_Some. by rewrite He0.
  - intros. by apply stays_retired_same.
  - intros e1 eff st0 st1 He1 Ha Hs1 H (Hst & Hs & Hd).
    assert (e0 ≠ e1) as Hne.
    { intros ->. unfold stopped in Hst. rewrite He1, Ha in Hst. done. }
    destruct H as (Hst1 & Hs1' & Hd1).
    { split_and!.
      - unfold stopped in *. simpl.
        fold (stopped (cleanup e1 st0) e0). by rewrite stopped_cleanup.
      - simpl. rewrite stack_cleanup. intros [?|?]%elem_of_cons; done.
      - intros d Hin. eapply Hd, dep_of_cleanup, Hin. }
    split_and!; [done| |done].
    simpl. intros Hin. apply Hs1'.
    destruct (activeReactiveEffectStack st1); [done|]. by right.
Qed.

Lemma stop_active e eff st :
  effects st !! e = Some eff → active eff = true →
  ∃ eff', effects (stop e st) !! e = Some eff' ∧ active eff' = false.
Proof.
  intros He Ha. unfold stop. rewrite He, Ha.
  unfold update_effect. simpl. rewrite list_lookup_alter_eq.
  match goal with |- context [effects ?s !! e] =>
    assert (is_Some (effects s !! e)) as [x ->] end; [|simpl; eauto].
  apply lookup_lt_is_Some.
  destruct (onStop eff); simpl; rewrite effects_length_cleanup;
    by eapply lookup_lt_Some.
Qed.

Lemma stop_stop e st : stop e (stop e st) = stop e st.
Proof.
  destruct (effects st !! e) as [eff|] eqn:He.
  2:{ unfold stop. rewrite He. by rewrite He. }
  destruct (active eff) eqn:Ha.
  2:{ unfold stop. rewrite He, Ha. by rewrite He, Ha. }
  destruct (stop_active e eff st He Ha) as (eff' & He' & Ha').
  unfold stop at 1. by rewrite He', Ha'.
Qed.

Lemma retired_stop e eff st :
  Inv st → effects st !! e = Some eff → active eff = true →
  e ∉ activeReactiveEffectStack st → retired e (stop e st).
Proof.
  intros HI He Ha Hs.
  destruct (cleanup_clears e eff st HI He) as [Hd _].
  unfold stop. rewrite He, Ha.
  set (st1 := match onStop eff with
              | Some h => emit (EvOnStop h e) (cleanup e st)
              | None => cleanup e st end).
  assert (effects st1 = effects (cleanup e st)
          ∧ targetMap st1 = targetMap (cleanup e st)
          ∧ activeReactiveEffectStack st1 = activeReactiveEffectStack st)
    as (He1 & Ht1 & Hs1).
  { subst st1. destruct (onStop eff); simpl; by rewrite stack_cleanup. }
  split_and!.
  - unfold stopped, update_effect. simpl. rewrite list_lookup_alter_eq, He1.
    assert (is_Some (effects (cleanup e st) !! e)) as [x ->]; [|done].
    apply lookup_lt_is_Some. rewrite effects_length_cleanup.
    by eapply lookup_lt_Some.
  - simpl. by rewrite Hs1.
  - intros d. unfold dep_of. simpl. rewrite Ht1. apply Hd.
Qed.

Lemma Inv_final_state DEV fuel b :
  Inv (final_state (exec DEV fuel b initial_state)).
Proof.
  pose proof (exec_Inv DEV fuel b initial_state) as H.
  destruct (exec DEV fuel b initial_state); simpl in *;
    auto using Inv_initial.
Qed.

Lemma effects_cleanup_lookup e eff st :
  effects st !! e = Some eff →
  effects (cleanup e st) !! e = Some (set_deps [] eff).
Proof.
  intros He. unfold cleanup. rewrite He. simpl.
  by rewrite list_lookup_alter_eq, He.
Qed.

Lemma stop_lookup e eff st :
  effects st !! e = Some eff → active eff = true →
  effects (stop e st) !! e = Some (set_active false (set_deps [] eff)).
Proof.
  intros He Ha. unfold stop. rewrite He, Ha.
  unfold update_effect. simpl. rewrite list_lookup_alter_eq.
  destruct (onStop eff); simpl; by rewrite (effects_cleanup_lookup e eff).
Qed.

Lemma stop_log e eff st :
  effects st !! e = Some eff → active eff = true →
  log (stop e st)
  = log st ++ [EvCleanup e]
      ++ match onStop eff with Some h => [EvOnStop h e] | None => [] end.
Proof.
  intros He Ha. unfold stop. rewrite He, Ha. unfold cleanup. rewrite He.
  destruct (onStop eff); simpl; by rewrite <- ?app_assoc, ?app_nil_r.
Qed.

(** ** Lemmas for the further properties *)

Lemma same_effect_refl eff : same_effect eff eff.
Proof. by repeat split. Qed.

Lemma same_effect_trans a b c :
  same_effect a b → same_effect b c → same_effect a c.
Proof.
  intros (?&?&?&?&?) (?&?&?&?&?). repeat split; try congruence. auto.
Qed.

Lemma effects_persist_refl st : effects_persist st st.
Proof. intros e eff H. exists eff. split; [done|apply same_effect_refl]. Qed.

Lemma effects_persist_trans a b c :
  effects_persist a b → effects_persist b c → effects_persist a c.
Proof.
  intros H1 H2 e eff He. destruct (H1 e eff He) as (eff1 & He1 & Hs1).
  destruct (H2 e eff1 He1) as (eff2 & He2 & Hs2).
  exists eff2. split; [done|]. by eapply same_effect_trans.
Qed.

Lemma effects_persist_update e f st :
  (∀ eff, same_effect eff (f eff)) →
  effects_persist st (update_effect e f st).
Proof.
  intros Hf e' eff He. unfold update_effect. simpl.
  destruct (decide (e = e')) as [->|].
  - rewrite list_lookup_alter_eq, He. simpl. eauto.
  - rewrite list_lookup_alter_ne by done. exists eff.
    split; [done|apply same_effect_refl].
Qed.

Lemma effects_persist_same st st' :
  effects st' = effects st → effects_persist st st'.
Proof. intros H e eff He. rewrite H. exists eff. split; [done|apply same_effect_refl]. Qed.

Lemma effects_persist_cleanup e st : effects_persist st (cleanup e st).
Proof.
  unfold cleanup. destruct (effects st !! e) eqn:He;
    [|apply effects_persist_refl].
  intros e' eff He'. simpl. destruct (decide (e = e')) as [->|].
  - rewrite list_lookup_alter_eq, He'. simpl. eexists. split; [done|].
    by repeat split.
  - rewrite list_lookup_alter_ne by done. exists eff.
    split; [done|apply same_effect_refl].
Qed.

Lemma effects_persist_subscribe e d st : effects_persist st (subscribe e d st).
Proof.
  unfold subscribe. case_decide; [by apply effects_persist_same|].
  intros e' eff He'. unfold update_effect. simpl.
  destruct (decide (e = e')) as [->|].
  - rewrite list_lookup_alter_eq, He'. simpl. eexists. split; [done|].
    by repeat split.
  - rewrite list_lookup_alter_ne by done. exists eff.
    split; [done|apply same_effect_refl].
Qed.

Lemma log_cleanup_prefix e st : log st `prefix_of` log (cleanup e st).
Proof.
  unfold cleanup. destruct (effects st !! e); [|done]. simpl.
  by apply prefix_app_r.
Qed.

Lemma progress_refl st : progress st st.
Proof. split_and!; [done|apply effects_persist_refl|done]. Qed.

Lemma progress_trans a b c : progress a b → progress b c → progress a c.
Proof.
  intros (Hs1 & He1 & Hl1) (Hs2 & He2 & Hl2). split_and!.
  - congruence.
  - by eapply effects_persist_trans.
  - by etrans.
Qed.

Lemma progress_same st st' :
  activeReactiveEffectStack st' = activeReactiveEffectStack st →
  effects st' = effects st → log st' = log st → progress st st'.
Proof.
  intros Hs He Hl. split_and!; [done|by apply effects_persist_same|].
  by rewrite Hl.
Qed.

Lemma progress_respectable : Respectable progress.
Proof.
  split.
  - apply progress_refl.
  - apply progress_trans.
  - intros. by apply progress_same.
  - intros. by apply progress_same.
  - intros. by apply progress_same.
  - intros. by apply progress_same.
  - intros. by apply progress_same.
  - intros. by apply progress_same.
  - intros. by apply progress_same.
  - intros ev st _. split_and!; [done|by apply effects_persist_same|].
    simpl. by apply prefix_app_r.
  - intros e d st _. split_and!.
    + by rewrite stack_emit, stack_subscribe.
    + apply (effects_persist_subscribe e d st).
    + simpl. rewrite log_subscribe. by apply prefix_app_r.
  - intros e st. split_and!.
    + apply stack_cleanup.
    + apply effects_persist_cleanup.
    + apply log_cleanup_prefix.
  - intros e st. split_and!; [done| |done].
    apply effects_persist_update. intros eff. by repeat split.
  - intros e t g st. split_and!; [done| |done].
    apply effects_persist_update. intros eff. by repeat split.
  - intros eff st _ _. split_and!; [done| |done].
    intros e eff' He. simpl. exists eff'. split; [|apply same_effect_refl].
    rewrite lookup_app_l; [done|]. by eapply lookup_lt_Some.
  - intros e eff st _ _. split_and!; [done|by apply effects_persist_same|].
    simpl. by apply prefix_app_r.
  - intros e eff st st1 He Ha Hs (Hs1 & He1 & Hl1). split_and!.
    + simpl. rewrite Hs1. simpl. by rewrite stack_cleanup.
    + eapply effects_persist_trans; [apply (effects_persist_cleanup e)|].
      exact He1.
    + simpl. etrans; [apply (log_cleanup_prefix e)|].
      etrans; [|exact Hl1]. simpl. by apply prefix_app_r.
Qed.

Lemma calls_prefix l l' e : l `prefix_of` l' → (calls l e ≤ calls l' e)%nat.
Proof.
  intros [k ->]. unfold calls. rewrite list.filter_app, length_app. lia.
Qed.

Lemma scheduleRun_progress DEV fuel e target type key x st :
  post progress st
    (scheduleRun DEV (exec DEV fuel) (sched DEV fuel) e target type key x st).
Proof.
  apply respects_scheduleRun; try apply progress_respectable;
    apply exec_sched_respects, progress_respectable.
Qed.

(** [run] of an effect that is not running enters its function, be the
    effect active or stopped. *)
Lemma run_enters DEV fuel e eff st :
  effects st !! e = Some eff → e ∉ activeReactiveEffectStack st →
  holds_after (λ st', calls (log st) e < calls (log st') e)
    (run (exec DEV fuel) e st).
Proof.
  intros He Hs. unfold run. rewrite He.
  destruct (active eff); simpl.
  - rewrite bool_decide_eq_true_2 by done. unfold finally_pop.
    pose proof (exec_respects _ progress_respectable DEV fuel (raw eff)
                  (emit (EvCall e) (push e (cleanup e st)))) as H.
    assert (calls (log (emit (EvCall e) (push e (cleanup e st)))) e
            = calls (log st) e + 1) as Hc.
    { simpl. rewrite calls_snoc, log_cleanup. by rewrite decide_True. }
    destruct (exec DEV fuel (raw eff) _) as [v st1|v st1|]; [| |done];
      destruct H as (_ & _ & Hl); apply (calls_prefix _ _ e) in Hl;
      rewrite Hc in Hl; change (calls (log st) e < calls (log st1) e); lia.
  - pose proof (exec_respects _ progress_respectable DEV fuel (raw eff)
                  (emit (EvCall e) st)) as H.
    assert (calls (log (emit (EvCall e) st)) e = calls (log st) e + 1) as Hc.
    { simpl. rewrite calls_snoc. by rewrite decide_True. }
    destruct (exec DEV fuel (raw eff) _) as [v st1|v st1|]; [| |done];
      destruct H as (_ & _ & Hl); apply (calls_prefix _ _ e) in Hl;
      rewrite Hc in Hl; change (calls (log st) e < calls (log st1) e); lia.
Qed.

Lemma scheduleRun_enters DEV fuel e eff target type key x st :
  effects st !! e = Some eff → scheduler eff = None →
  e ∉ activeReactiveEffectStack st →
  holds_after (λ st', calls (log st) e < calls (log st') e)
    (scheduleRun DEV (exec DEV fuel) (sched DEV fuel) e target type key x st).
Proof.
  intros He Hsch Hs. unfold scheduleRun. rewrite He, Hsch.
  set (st0 := call_onTrigger DEV eff e target type key x st).
  assert (effects st0 = effects st
          ∧ activeReactiveEffectStack st0 = activeReactiveEffectStack st
          ∧ calls (log st0) e = calls (log st) e) as (He0 & Hs0 & Hc0).
  { subst st0. unfold call_onTrigger. destruct (onTrigger eff); [|done].
    destruct DEV; [|done]. split_and!; [done|done|]. by apply calls_emit. }
  pose proof (run_enters DEV fuel e eff st0) as H.
  rewrite He0, Hs0, Hc0 in H. specialize (H He Hs).
  unfold bind. by destruct (run (exec DEV fuel) e st0).
Qed.

Lemma forEach_scheduleRun_enters DEV fuel target type key x l :
  ∀ st st' e eff,
    forEach l (λ e, scheduleRun DEV (exec DEV fuel) (sched DEV fuel) e target
                      type key x) st = Ok tt st' →
    e ∈ l → effects st !! e = Some eff → scheduler eff = None →
    e ∉ activeReactiveEffectStack st →
    calls (log st) e < calls (log st') e.
Proof.
  induction l as [|a l IH]; intros st st' e eff Hrun Hin He Hsch Hs.
  { by apply elem_of_nil in Hin. }
  simpl in Hrun. unfold bind in Hrun.
  pose proof (scheduleRun_progress DEV fuel a target type key x st) as Hp.
  destruct (scheduleRun DEV _ _ a target type key x st) as [[] st1|?|] eqn:Ha;
    [|done|done].
  simpl in Hp. destruct Hp as (Hs1 & He1 & Hl1).
  destruct (He1 e eff He) as (eff1 & Heff1 & (_ & _ & Hsch1 & _)).
  destruct (decide (e ∈ l)) as [Hl|Hl].
  - pose proof (IH st1 st' e eff1 Hrun Hl Heff1) as H.
    rewrite Hsch1, Hs1 in H. specialize (H Hsch Hs).
    apply (calls_prefix _ _ e) in Hl1. lia.
  - apply elem_of_cons in Hin as [->|?]; [|done].
    pose proof (scheduleRun_enters DEV fuel a eff target type key x st He Hsch
                  Hs) as H.
    rewrite Ha in H. simpl in H.
    assert (post progress st1
              (forEach l (λ e, scheduleRun DEV (exec DEV fuel) (sched DEV fuel)
                                 e target type key x) st1)) as Hrest.
    { apply respects_forEach; [apply progress_respectable|].
      intros y st2. apply scheduleRun_progress. }
    rewrite Hrun in Hrest. destruct Hrest as (_ & _ & Hl2).
    apply (calls_prefix _ _ a) in Hl2. lia.
Qed.

Lemma last_run_reads_snoc l ev e :
  last_run_reads (l ++ [ev]) e = last_run_step e (last_run_reads l e) ev.
Proof. unfold last_run_reads. by rewrite foldl_app. Qed.

Lemma cleans_snoc l ev e :
  cleans (l ++ [ev]) e
  = cleans l e + (if decide (ev = EvCleanup e) then 1 else 0).
Proof.
  unfold cleans. rewrite list.filter_app, length_app. f_equal.
  rewrite list.filter_cons, list.filter_nil. by case_decide.
Qed.

Lemma cleans_prefix l l' e : l `prefix_of` l' → (cleans l e ≤ cleans l' e)%nat.
Proof.
  intros [k ->]. unfold cleans. rewrite list.filter_app, length_app. lia.
Qed.

Lemma reads_extend_refl e st : reads_extend e st st.
Proof. split_and!; [done|done|done|]. intros _ _ _. exists []. by rewrite !app_nil_r. Qed.

Lemma reads_extend_trans e a b c :
  reads_extend e a b → reads_extend e b c → reads_extend e a c.
Proof.
  intros (Hs1 & Hi1 & Hl1 & Hx1) (Hs2 & Hi2 & Hl2 & Hx2). split_and!.
  - congruence.
  - auto.
  - by etrans.
  - intros Hin Hns Hc.
    pose proof (cleans_prefix _ _ e Hl1). pose proof (cleans_prefix _ _ e Hl2).
    assert (stopped b e = false) as Hb.
    { destruct (stopped b e) eqn:Hb; [|done]. rewrite Hi2 in Hns; done. }
    destruct Hx1 as (X1 & Ha1 & Hb1); [done|done|lia|].
    destruct Hx2 as (X2 & Ha2 & Hb2); [by rewrite Hs1|done|lia|].
    exists (X1 ++ X2). rewrite Ha2, Ha1, Hb2, Hb1. by rewrite !app_assoc.
Qed.

(** A step that leaves the stack and the stopped effects alone and adds
    one event to the log. *)
Lemma reads_extend_event e ev st st' :
  activeReactiveEffectStack st' = activeReactiveEffectStack st →
  (stopped st e = true → stopped st' e = true) →
  log st' = log st ++ [ev] →
  ev ≠ EvCall e →
  reads_extend e st st'.
Proof.
  intros Hs Hi Hl Hev. split_and!; [done|done|rewrite Hl; by apply prefix_app_r|].
  intros _ _. rewrite Hl, cleans_snoc, live_tracks_snoc, last_run_reads_snoc.
  intros Hc. destruct ev as [e1|e1|e1 d| | | | |]; simpl;
    try (exists []; by rewrite !app_nil_r).
  - destruct (decide (e1 = e)) as [->|]; [done|].
    exists []. by rewrite !app_nil_r.
  - destruct (decide (e1 = e)) as [->|].
    + rewrite decide_True in Hc by done. lia.
    + exists []. by rewrite !app_nil_r.
  - destruct (decide (e1 = e)) as [->|]; [by eexists|].
    exists []. by rewrite !app_nil_r.
Qed.

Lemma reads_extend_same e st st' :
  activeReactiveEffectStack st' = activeReactiveEffectStack st →
  (stopped st e = true → stopped st' e = true) →
  log st' = log st → reads_extend e st st'.
Proof.
  intros Hs Hi Hl. split_and!; [done|done|by rewrite Hl|].
  intros _ _ _. rewrite Hl. exists []. by rewrite !app_nil_r.
Qed.

Lemma reads_extend_cleanup e e1 st : reads_extend e st (cleanup e1 st).
Proof.
  destruct (effects st !! e1) as [eff1|] eqn:He1.
  - destruct (decide (e1 = e)) as [->|Hne].
    + split_and!.
      * apply stack_cleanup.
      * by rewrite stopped_cleanup.
      * apply log_cleanup_prefix.
      * intros _ _. unfold cleanup. rewrite He1. simpl.
        rewrite cleans_snoc, decide_True by done. lia.
    + apply (reads_extend_event e (EvCleanup e1)).
      * apply stack_cleanup.
      * by rewrite stopped_cleanup.
      * unfold cleanup. by rewrite He1.
      * done.
  - unfold cleanup. rewrite He1. apply reads_extend_refl.
Qed.

Lemma reads_extend_respectable e0 : Respectable (reads_extend e0).
Proof.
  split.
  - apply reads_extend_refl.
  - apply reads_extend_trans.
  - intros. by apply reads_extend_same.
  - intros. by apply reads_extend_same.
  - intros. by apply reads_extend_same.
  - intros. by apply reads_extend_same.
  - intros. by apply reads_extend_same.
  - intros. by apply reads_extend_same.
  - intros. by apply reads_extend_same.
  - intros ev st Hg. apply (reads_extend_event e0 ev); try done.
    intros ->. done.
  - intros e d st _. apply (reads_extend_event e0 (EvTrack e d)).
    + by rewrite stack_emit, stack_subscribe.
    + intros H. unfold stopped in *. simpl.
      fold (stopped (subscribe e d st) e0). by rewrite stopped_subscribe.
    + simpl. by rewrite log_subscribe.
    + done.
  - intros e st. apply reads_extend_cleanup.
  - intros e st. apply reads_extend_same; [done| |done].
    apply stopped_update. by intros [].
  - intros e t g st. apply reads_extend_same; [done| |done].
    apply stopped_update. by intros [].
  - intros eff st _ _. apply reads_extend_same; [done| |done].
    unfold stopped. simpl. destruct (effects st !! e0) eqn:He0; [|done].
    rewrite lookup_app_l by by eapply lookup_lt_Some. by rewrite He0.
  - intros e eff st He Ha. destruct (decide (e = e0)) as [->|Hne].
    + split_and!; [done|done|simpl; by apply prefix_app_r|].
      intros _ Hns. unfold stopped in Hns. simpl in Hns.
      rewrite He, Ha in Hns. done.
    + apply (reads_extend_event e0 (EvCall e)); try done. congruence.
  - intros e eff st st1 He Ha Hs (Hs1 & Hi1 & Hl1 & Hx1).
    pose proof (reads_extend_cleanup e0 e st) as (Hsc & Hic & Hlc & Hxc).
    assert (log (emit (EvCall e) (push e (cleanup e st)))
            = log (cleanup e st) ++ [EvCall e]) as Hlog by done.
    split_and!.
    + simpl. rewrite Hs1. simpl. by rewrite stack_cleanup.
    + intros H. apply Hi1. unfold stopped in *. simpl.
      fold (stopped (cleanup e st) e0). by rewrite stopped_cleanup.
    + simpl. etrans; [exact Hlc|]. etrans; [|exact Hl1].
      rewrite Hlog. by apply prefix_app_r.
    + intros Hin Hns Hc. simpl in Hc.
      assert (e0 ≠ e) as Hne by (intros ->; done).
      pose proof (cleans_prefix _ _ e0 Hlc) as Hle1.
      pose proof (cleans_prefix _ _ e0 Hl1) as Hle2.
      rewrite Hlog, cleans_snoc, decide_False in Hle2 by done.
      destruct Hxc as (X0 & Ha0 & Hb0); [done| |lia|].
      { rewrite stopped_cleanup. destruct (stopped st e0) eqn:Hst; [|done].
        assert (stopped (cleanup e st) e0 = true) as Hcs
          by by rewrite stopped_cleanup.
        assert (stopped (emit (EvCall e) (push e (cleanup e st))) e0 = true)
          as Hss by exact Hcs.
        apply Hi1 in Hss. simpl in Hns. unfold stopped in *. simpl in *.
        congruence. }
      destruct Hx1 as (X1 & Ha1 & Hb1).
      * simpl. rewrite stack_cleanup. by right.
      * exact Hns.
      * rewrite Hlog, cleans_snoc, decide_False by done. lia.
      * exists (X0 ++ X1). simpl. rewrite Ha1, Hb1, Hlog.
        rewrite live_tracks_snoc, last_run_reads_snoc. simpl.
        rewrite decide_False by congruence.
        rewrite Ha0, Hb0. by rewrite !app_assoc.
Qed.

Lemma live_tracks_cleanup e eff st :
  effects st !! e = Some eff → live_tracks (log (cleanup e st)) e = [].
Proof.
  intros He. unfold cleanup. rewrite He. simpl.
  rewrite live_tracks_snoc. simpl. by rewrite decide_True.
Qed.

Lemma cleans_cleanup e eff st :
  effects st !! e = Some eff →
  cleans (log (cleanup e st)) e = cleans (log st) e + 1.
Proof.
  intros He. unfold cleanup. rewrite He. simpl.
  by rewrite cleans_snoc, decide_True.
Qed.

Lemma trigger_order_elem st target type key e :
  type ≠ CLEAR →
  e ∈ trigger_order st target type key ↔
    (is_Some key ∧ e ∈ dep_of st (target, key))
    ∨ ((type = ADD ∨ type = DELETE)
       ∧ e ∈ dep_of st (target, Some (iterationKey st target))).
Proof.
  intros Hty. unfold trigger_order.
  destruct (alist_get target (targetMap st)) as [depsMap|] eqn:Hm.
  2:{ unfold dep_of, dep_at. simpl. rewrite Hm.
      split; [by intros ?%elem_of_nil|].
      by intros [[_ ?%elem_of_nil]|[_ ?%elem_of_nil]]. }
  rewrite !(dep_of_get _ _ _ _ Hm). unfold collect_runners.
  destruct (decide (type = CLEAR)); [done|].
  fold (iterationKey st target).
  set (s1 := match key with
             | Some _ => addRunners st ([], []) (alist_get key depsMap)
             | None => ([], []) end).
  assert (sets_ok st s1 ∧
          ∀ x, x ∈ s1.2 ++ s1.1 ↔
               is_Some key ∧ x ∈ default [] (alist_get key depsMap))
    as [Hok1 H1].
  { subst s1. destruct key as [k|].
    - destruct (addRunners_spec st (alist_get (Some k) depsMap) ([], []))
        as [? H]; [apply sets_ok_nil|]. split; [done|].
      intros x. rewrite H. simpl. rewrite elem_of_nil.
      split; [intros [[]|]; eauto|]. intros [_ ?]; auto.
    - split; [apply sets_ok_nil|]. intros x; simpl. rewrite elem_of_nil.
      split; [done|]. intros [[? [=]] _]. }
  case_bool_decide as Hk.
  - destruct (addRunners_spec st
      (alist_get (Some (iterationKey st target)) depsMap) s1 Hok1) as [_ H2].
    rewrite H2, H1. tauto.
  - rewrite H1. tauto.
Qed.

Lemma alist_get_elem {K V} `{EqDecision K} (k : K) (v : V) m :
  alist_get k m = Some v → (k, v) ∈ m.
Proof.
  induction m as [|[k' v'] m IH]; simpl; [done|].
  case_decide as Hk.
  - intros [= ->]. subst. left.
  - intros H. right. by apply IH.
Qed.

Lemma trigger_order_NoDup st target type key :
  NoDup (trigger_order st target type key).
Proof.
  destruct (trigger_order_ok st target type key)
    as ([ef cr] & (Hef & Hcr & Hp & Hc) & ->).
  simpl in *. apply list.NoDup_app. split_and!; [done| |done].
  intros e He He'. apply Hc in He. apply Hp in He'. congruence.
Qed.

Lemma NoDup_only {A} (l : list A) x :
  NoDup l → (∀ y, y ∈ l ↔ y = x) → l = [x].
Proof.
  intros Hnd H. destruct l as [|a l].
  - exfalso. eapply elem_of_nil. by apply (H x).
  - assert (a = x) as -> by (apply H; left).
    destruct l as [|b l]; [done|].
    assert (b = x) as -> by (apply H; right; left).
    apply list.NoDup_cons in Hnd as [Hn _]. exfalso. apply Hn. left.
Qed.

(** A keyed [trigger] other than ADD, DELETE and CLEAR, on a key with a
    single subscriber, collects that subscriber and nobody else. *)
Lemma trigger_order_single st target type key e :
  type ≠ CLEAR → type ≠ ADD → type ≠ DELETE →
  dep_of st (target, Some key) = [e] →
  trigger_order st target type (Some key) = [e].
Proof.
  intros H1 H2 H3 Hd. apply NoDup_only; [apply trigger_order_NoDup|].
  intros y. rewrite trigger_order_elem by done. rewrite Hd.
  rewrite list_elem_of_singleton. split.
  - intros [[_ ?]|[[?|?] _]]; done.
  - intros ->. left. split; [by eexists|done].
Qed.

Lemma trigger_order_clear st target key k e :
  e ∈ dep_of st (target, k) → e ∈ trigger_order st target CLEAR key.
Proof.
  unfold trigger_order, dep_of, dep_at. simpl.
  destruct (alist_get target (targetMap st)) as [depsMap|] eqn:Hm; simpl;
    [|done].
  destruct (alist_get k depsMap) as [dep|] eqn:Hk; simpl;
    [|by intros ?%elem_of_nil].
  intros He. unfold collect_runners. simpl.
  destruct (collect_clear_spec st depsMap ([], []) (sets_ok_nil st)) as [_ H].
  apply H. right. exists k, dep. split; [by apply alist_get_elem|done].
Qed.

Lemma track_running DEV target type key e st :
  shouldTrack st = true → head (activeReactiveEffectStack st) = Some e →
  targetMap (track DEV target type key st)
  = targetMap (subscribe e (target, tracked_key type key) st)
  ∧ effects (track DEV target type key st)
    = effects (subscribe e (target, tracked_key type key) st)
  ∧ objects (track DEV target type key st) = objects st.
Proof.
  intros Hsh Hh. unfold track, tracked_key. rewrite Hsh, Hh. simpl.
  assert (objects (subscribe e (target,
            if decide (type = ITERATE) then Some ITERATE_KEY else key) st)
          = objects st) as Ho.
  { unfold subscribe. by case_decide. }
  destruct (_ && DEV); [|done].
  by destruct (_ ≫= onTrack).
Qed.

Lemma objects_track DEV target type key st :
  objects (track DEV target type key st) = objects st.
Proof.
  unfold track. destruct (shouldTrack st); simpl; [|done].
  destruct (head (activeReactiveEffectStack st)) as [e|]; [|done].
  assert (objects (subscribe e (target,
            if decide (type = ITERATE) then Some ITERATE_KEY else key) st)
          = objects st) as Ho.
  { unfold subscribe. by case_decide. }
  destruct (_ && DEV); [|done].
  by destruct (_ ≫= onTrack).
Qed.

Lemma iterationKey_track DEV target type key st t :
  iterationKey (track DEV target type key st) t = iterationKey st t.
Proof. unfold iterationKey, Array_isArray. by rewrite objects_track. Qed.

Lemma dep_of_track_running DEV target type key e st d :
  shouldTrack st = true → head (activeReactiveEffectStack st) = Some e →
  dep_of (track DEV target type key st) d
  = if decide (d = (target, tracked_key type key))
    then set_add e (dep_of st d) else dep_of st d.
Proof.
  intros Hsh Hh.
  destruct (track_running DEV target type key e st Hsh Hh) as (Ht & _ & _).
  unfold dep_of at 1. rewrite Ht.
  fold (dep_of (subscribe e (target, tracked_key type key) st) d).
  rewrite dep_of_subscribe. by case_decide; subst.
Qed.

Lemma track_notified DEV target type key e st :
  shouldTrack st = true → head (activeReactiveEffectStack st) = Some e →
  e ∈ dep_of (track DEV target type key st) (target, tracked_key type key)
  ∧ (∀ e' d, e' ∈ dep_of st d → e' ∈ dep_of (track DEV target type key st) d)
  ∧ (is_Some (tracked_key type key) → ∀ kind,
       e ∈ trigger_order (track DEV target type key st) target kind
             (tracked_key type key))
  ∧ (∀ key', e ∈ trigger_order (track DEV target type key st) target CLEAR
                   key')
  ∧ (type = ITERATE → Array_isArray st target = false → ∀ key',
       e ∈ trigger_order (track DEV target type key st) target ADD key'
       ∧ e ∈ trigger_order (track DEV target type key st) target DELETE key')
  ∧ (type = ITERATE → Array_isArray st target = true →
     (∀ k, e ∉ dep_of st (target, k)) →
     ∀ kind key', kind ≠ CLEAR → key' ≠ Some ITERATE_KEY →
       e ∉ trigger_order (track DEV target type key st) target kind key').
Proof.
  intros Hsh Hh.
  assert (e ∈ dep_of (track DEV target type key st)
                (target, tracked_key type key)) as Hin.
  { rewrite (dep_of_track_running _ _ _ _ e) by done.
    rewrite decide_True by done. apply set_add_elem. by left. }
  split_and!.
  - done.
  - intros e' d He'. rewrite (dep_of_track_running _ _ _ _ e) by done.
    case_decide; [|done]. apply set_add_elem. by right.
  - intros Hk kind. destruct (decide (kind = CLEAR)) as [->|Hc].
    + by eapply trigger_order_clear.
    + apply trigger_order_elem; [done|]. by left.
  - intros key'. by eapply trigger_order_clear.
  - intros -> Harr key'. unfold tracked_key in Hin.
    rewrite decide_True in Hin by done.
    assert (iterationKey (track DEV target ITERATE key st) target
            = ITERATE_KEY) as Hik.
    { rewrite iterationKey_track. unfold iterationKey. by rewrite Harr. }
    split; (apply trigger_order_elem; [done|]; right; rewrite Hik;
            split; [auto|exact Hin]).
  - intros -> Harr Hno kind key' Hkind Hkey Hcontra.
    apply trigger_order_elem in Hcontra; [|done].
    assert (iterationKey (track DEV target ITERATE key st) target
            = KStr "length") as Hik.
    { rewrite iterationKey_track. unfold iterationKey. by rewrite Harr. }
    rewrite Hik in Hcontra.
    rewrite !(dep_of_track_running _ _ _ _ e) in Hcontra by done.
    unfold tracked_key in Hcontra.
    rewrite !(decide_True (P := ITERATE = ITERATE)) in Hcontra by done.
    destruct Hcontra as [[_ H]|[_ H]].
    + rewrite decide_False in H by congruence. by eapply Hno.
    + rewrite decide_False in H by (intros [=]). by eapply Hno.
Qed.

Lemma dep_of_subscribe_mono p d' st e d :
  e ∈ dep_of st d → e ∈ dep_of (emit (EvTrack p d') (subscribe p d' st)) d.
Proof.
  intros He.
  assert (dep_of (emit (EvTrack p d') (subscribe p d' st)) d
          = dep_of (subscribe p d' st) d) as -> by done.
  rewrite dep_of_subscribe. case_decide; [|done]. subst.
  apply set_add_elem. by right.
Qed.

Lemma dep_of_subscribe_fold_mono p l : ∀ st e d,
  e ∈ dep_of st d →
  e ∈ dep_of (foldl (λ st dep, emit (EvTrack p dep) (subscribe p dep st))
                st l) d.
Proof.
  induction l as [|d' l IH]; intros st e d He; simpl; [done|].
  by apply IH, dep_of_subscribe_mono.
Qed.

Lemma dep_of_subscribe_fold_all p l : ∀ st d,
  d ∈ l →
  p ∈ dep_of (foldl (λ st dep, emit (EvTrack p dep) (subscribe p dep st))
                st l) d.
Proof.
  induction l as [|d' l IH]; intros st d Hd; simpl.
  { by apply elem_of_nil in Hd. }
  destruct (decide (d = d')) as [->|Hne].
  - apply dep_of_subscribe_fold_mono.
    assert (dep_of (emit (EvTrack p d') (subscribe p d' st)) d'
            = dep_of (subscribe p d' st) d') as -> by done.
    rewrite dep_of_subscribe, decide_True by done.
    apply set_add_elem. by left.
  - apply IH. apply elem_of_cons in Hd as [?|?]; done.
Qed.

Lemma is_computed_persist st st' e :
  effects_persist st st' → is_Some (effects st !! e) →
  is_computed st' e = is_computed st e.
Proof.
  intros Hp [eff He]. destruct (Hp e eff He) as (eff' & He' & (_ & Hc & _)).
  unfold is_computed. by rewrite He, He'.
Qed.

Lemma is_computed_Some st e : is_computed st e = true → is_Some (effects st !! e).
Proof. unfold is_computed. by destruct (effects st !! e). Qed.

Lemma Array_isArray_objects st st' t :
  (∀ a, isArray <$> objects st' !! a = isArray <$> objects st !! a) →
  Array_isArray st' t = Array_isArray st t.
Proof. intros H. unfold Array_isArray. destruct t; [|done]. by rewrite H. Qed.

Lemma isArray_alter_props f a st b :
  isArray <$> alter (λ o, set_props (f (props o)) o) a (objects st) !! b
  = isArray <$> objects st !! b.
Proof.
  destruct (decide (a = b)) as [->|].
  - rewrite list_lookup_alter_eq. by destruct (objects st !! b).
  - by rewrite list_lookup_alter_ne.
Qed.

Lemma trigger_order_write a k v st target type key :
  trigger_order (write_property a k v st) target type key
  = trigger_order st target type key.
Proof.
  unfold trigger_order, collect_runners.
  rewrite (Array_isArray_objects st); [done|].
  intros b. apply isArray_alter_props.
Qed.

Lemma trigger_order_remove a k st target type key :
  trigger_order (remove_property a k st) target type key
  = trigger_order st target type key.
Proof.
  unfold trigger_order, collect_runners.
  rewrite (Array_isArray_objects st); [done|].
  intros b. apply isArray_alter_props.
Qed.

(** A [trigger] whose only subscriber is an active effect without a
    scheduler that is not running enters that effect exactly once. *)
Lemma trigger_single_subscriber DEV fuel target type key x e eff st :
  trigger_order st target type key = [e] →
  effects st !! e = Some eff → active eff = true → scheduler eff = None →
  e ∉ activeReactiveEffectStack st →
  holds_after
    (λ st', stopped st' e = false → calls (log st') e = calls (log st) e + 1)
    (trigger DEV (exec DEV fuel) (sched DEV fuel) target type key x st).
Proof.
  intros Hord He Ha Hsch Hs. rewrite trigger_unfold, Hord. simpl.
  unfold bind at 1. unfold scheduleRun. rewrite He, Hsch.
  set (st2 := call_onTrigger DEV eff e target type key x st).
  assert (effects st2 = effects st
          ∧ activeReactiveEffectStack st2 = activeReactiveEffectStack st
          ∧ calls (log st2) e = calls (log st) e) as (He2 & Hs2 & Hc2).
  { subst st2. unfold call_onTrigger. destruct (onTrigger eff); [|done].
    destruct DEV; [|done]. split_and!; [done|done|].
    by rewrite calls_emit by done. }
  pose proof (run_calls_once DEV fuel e eff st2) as H.
  rewrite He2, Hs2, Hc2 in H. specialize (H He Ha Hs).
  unfold bind. by destruct (run (exec DEV fuel) e st2).
Qed.

Lemma set_own DEV exec_rec sched_rec target key v old st :
  own_property st target key = Some old → isRef old = false →
  set DEV exec_rec sched_rec target key v (VProxy target false) st
  = (if strict_eq (toRaw v) old then ret (VBool true)
     else trigger DEV exec_rec sched_rec (TObject target) SET (Some key)
            (if DEV then Some {| oldValue := Some old;
                                 newValue := Some (toRaw v) |} else None) ;;;
          ret (VBool true))
      (write_property target key (toRaw v) st).
Proof.
  intros Ho Hr. unfold set, bind at 1 2, gets, hasOwn. simpl.
  unfold Reflect_get at 1. rewrite Ho, Hr. simpl.
  unfold bind at 1. unfold Reflect_set. rewrite Ho.
  rewrite bool_decide_eq_true_2 by done.
  destruct DEV, (strict_eq (toRaw v) old); done.
Qed.

Lemma deleteProperty_own DEV exec_rec sched_rec target key old st :
  own_property st target key = Some old → configurable st target key = true →
  deleteProperty DEV exec_rec sched_rec target key st
  = (trigger DEV exec_rec sched_rec (TObject target) DELETE (Some key)
       (if DEV then Some {| oldValue := Some old; newValue := None |}
        else None) ;;;
     ret (VBool true)) (remove_property target key st).
Proof.
  intros Ho Hc. unfold deleteProperty, bind at 1 2, gets. simpl.
  unfold Reflect_get at 1. rewrite Ho. simpl.
  unfold bind at 1. unfold Reflect_deleteProperty. rewrite Hc.
  rewrite andb_false_r. unfold hasOwn. rewrite Ho. simpl.
  by destruct DEV.
Qed.

Lemma deleteProperty_fixed DEV exec_rec sched_rec target key old st :
  own_property st target key = Some old → configurable st target key = false →
  deleteProperty DEV exec_rec sched_rec target key st = Ok (VBool false) st.
Proof.
  intros Ho Hc. unfold deleteProperty, bind at 1 2, gets. simpl.
  unfold Reflect_get at 1. rewrite Ho. simpl.
  unfold bind at 1. unfold Reflect_deleteProperty. rewrite Hc.
  unfold hasOwn. rewrite Ho. simpl. done.
Qed.

Lemma deleteProperty_missing DEV exec_rec sched_rec target key st :
  own_property st target key = None → proto_of st target = VNull →
  deleteProperty DEV exec_rec sched_rec target key st
  = Ok (VBool true) (remove_property target key st).
Proof.
  intros Ho Hp. unfold deleteProperty, bind at 1 2, gets. simpl.
  unfold Reflect_get at 1. rewrite Ho, Hp. simpl.
  unfold bind at 1. unfold Reflect_deleteProperty, hasOwn. rewrite Ho. simpl.
  done.
Qed.

Lemma computed_get_clean exec_rec r c st :
  closure_dirty st r = false →
  computed_get_value exec_rec r c st
  = Ok (closure_value st r) (trackChildRun (runner c) st).
Proof.
  intros Hd. unfold computed_get_value, bind, gets, modify, ret.
  rewrite Hd. unfold closure_value. by rewrite refs_trackChildRun.
Qed.

Lemma computed_get_dirty exec_rec r c st :
  closure_dirty st r = true →
  computed_get_value exec_rec r c st
  = match run exec_rec (runner c) st with
    | Ok v st1 =>
        let st2 := trackChildRun (runner c)
                     (set_dirty r false (set_computed_value r v st1)) in
        Ok (closure_value st2 r) st2
    | Thrown v st1 => Thrown v st1
    | OutOfFuel => OutOfFuel
    end.
Proof.
  intros Hd. unfold computed_get_value, bind, gets, modify, ret.
  rewrite Hd. by destruct (run exec_rec (runner c) st).
Qed.

Lemma stopped_persist st st' e :
  effects_persist st st' → stopped st e = true → stopped st' e = true.
Proof.
  unfold stopped. intros Hp. destruct (effects st !! e) as [eff|] eqn:He;
    [|done].
  destruct (Hp e eff He) as (eff' & -> & (_ & _ & _ & _ & Ha)).
  intros H. rewrite Ha; [done|]. by destruct (active eff).
Qed.

Lemma dep_of_cleanup_elem e st x d :
  x ∈ dep_of (cleanup e st) d
  ↔ x ∈ dep_of st d ∧ (d ∈ deps_of st e → x ≠ e).
Proof.
  unfold cleanup, deps_of. destruct (effects st !! e) as [eff|] eqn:He.
  - unfold dep_of. simpl. by rewrite dep_at_cleanup_fold.
  - simpl. split; [intros H; split; [done|by intros ?%elem_of_nil]|tauto].
Qed.

Lemma deps_of_cleanup_other e e' st :
  e' ≠ e → deps_of (cleanup e st) e' = deps_of st e'.
Proof.
  intros Hne. unfold cleanup. destruct (effects st !! e) eqn:He; [|done].
  unfold deps_of. simpl. by rewrite list_lookup_alter_ne.
Qed.

Lemma stop_targetMap e st :
  targetMap (stop e st) = targetMap (cleanup e st)
  ∨ stop e st = st.
Proof.
  unfold stop. destruct (effects st !! e) as [eff|]; [|by right].
  destruct (active eff); [|by right]. left. by destruct (onStop eff).
Qed.

Lemma track_paused DEV target type key st :
  shouldTrack st = false ∨ activeReactiveEffectStack st = [] →
  track DEV target type key st = st.
Proof.
  intros [H|H]; unfold track; rewrite H; [done|].
  by destruct (shouldTrack st).
Qed.

Lemma only_invalidated_refl st : only_invalidated st st.
Proof. by repeat split. Qed.

Lemma only_invalidated_trans a b c :
  only_invalidated a b → only_invalidated b c → only_invalidated a c.
Proof.
  intros (E1&T1&O1&S1&Hc1&Hi1&Hv1&Hd1) (E2&T2&O2&S2&Hc2&Hi2&Hv2&Hd2).
  split_and!.
  - by rewrite E2.
  - by rewrite T2.
  - by rewrite O2.
  - by rewrite S2.
  - intros e. by rewrite Hc2.
  - intros r. by rewrite Hi2.
  - intros r. by rewrite Hv2.
  - auto.
Qed.

Lemma isComputedRef_set_dirty r b st r' :
  isComputedRef (set_dirty r b st) r' = isComputedRef st r'.
Proof.
  unfold isComputedRef, set_dirty. simpl.
  destruct (decide (r = r')) as [->|].
  - rewrite list_lookup_alter_eq. by destruct (refs st !! r') as [[]|].
  - by rewrite list_lookup_alter_ne.
Qed.

Lemma closure_dirty_set_dirty_other r b st r' :
  r ≠ r' → closure_dirty (set_dirty r b st) r' = closure_dirty st r'.
Proof.
  intros Hne. unfold closure_dirty, set_dirty. simpl.
  by rewrite list_lookup_alter_ne.
Qed.

Lemma closure_value_set_dirty_any r b st r' :
  closure_value (set_dirty r b st) r' = closure_value st r'.
Proof.
  destruct (decide (r = r')) as [->|]; [apply closure_value_set_dirty|].
  unfold closure_value, set_dirty. simpl. by rewrite list_lookup_alter_ne.
Qed.

Lemma scheduleRun_closure DEV exec_rec sched_rec e r target type key x st :
  closure_scheduled st e r →
  ∃ st', scheduleRun DEV exec_rec sched_rec e target type key x st = Ok tt st'
         ∧ only_invalidated st st' ∧ closure_dirty st' r = true.
Proof.
  intros (eff & He & Hs & Hr).
  rewrite (scheduleRun_scheduler _ _ _ _ eff _) by done. simpl.
  eexists. split; [reflexivity|].
  set (st0 := emit (EvScheduler e)
                (call_onTrigger DEV eff e target type key x st)).
  assert (effects st0 = effects st ∧ targetMap st0 = targetMap st
          ∧ objects st0 = objects st ∧ refs st0 = refs st
          ∧ activeReactiveEffectStack st0 = activeReactiveEffectStack st
          ∧ ∀ e', calls (log st0) e' = calls (log st) e')
    as (H1 & H2 & H3 & H4 & H5 & H6).
  { subst st0. unfold call_onTrigger. destruct (onTrigger eff);
      [destruct DEV|]; split_and!; try done; intros e'; simpl;
      rewrite ?calls_snoc, ?decide_False by done; lia. }
  assert (isComputedRef st0 r = true) as Hr0.
  { unfold isComputedRef in *. by rewrite H4. }
  split; [|by apply closure_dirty_set_dirty].
  split_and!; try done.
  - intros r'. rewrite isComputedRef_set_dirty. unfold isComputedRef.
    by rewrite H4.
  - intros r'. rewrite closure_value_set_dirty_any. unfold closure_value.
    by rewrite H4.
  - intros r' Hd. destruct (decide (r = r')) as [<-|Hne].
    + by apply closure_dirty_set_dirty.
    + rewrite closure_dirty_set_dirty_other by done. unfold closure_dirty in *.
      by rewrite H4.
Qed.

Lemma closure_scheduled_invalidated st st' e r :
  only_invalidated st st' → closure_scheduled st e r →
  closure_scheduled st' e r.
Proof.
  intros (He & _ & _ & _ & _ & Hi & _) (eff & ? & ? & ?).
  exists eff. rewrite He, Hi. done.
Qed.

Lemma forEach_closure DEV exec_rec sched_rec target type key x cr : ∀ st,
  (∀ c, c ∈ cr → ∃ r, closure_scheduled st c r) →
  ∃ st', forEach cr (λ e, scheduleRun DEV exec_rec sched_rec e target type
                            key x) st = Ok tt st'
         ∧ only_invalidated st st'
         ∧ ∀ c r, c ∈ cr → closure_scheduled st c r →
                  closure_dirty st' r = true.
Proof.
  induction cr as [|c cr IH]; intros st Hall.
  { exists st. split_and!; [done|apply only_invalidated_refl|].
    by intros c r ?%elem_of_nil. }
  destruct (Hall c) as [r Hr]; [left|].
  destruct (scheduleRun_closure DEV exec_rec sched_rec c r target type key x
              st Hr) as (st1 & Hrun & Hinv & Hd).
  destruct (IH st1) as (st2 & Hrun2 & Hinv2 & Hd2).
  { intros c' Hc'. destruct (Hall c') as [r' Hr']; [by right|].
    exists r'. by eapply closure_scheduled_invalidated. }
  exists st2. split_and!.
  - simpl. unfold bind. by rewrite Hrun.
  - by eapply only_invalidated_trans.
  - intros c' r' Hc' Hr'.
    destruct (scheduleRun_closure DEV exec_rec sched_rec c' r' target type
                key x st Hr') as (_ & _ & _ & _).
    apply elem_of_cons in Hc' as [->|Hc'].
    + destruct Hr as (eff & He & Hs & _), Hr' as (eff' & He' & Hs' & _).
      assert (r' = r) as -> by congruence.
      destruct Hinv2 as (_&_&_&_&_&_&_&Hk). by apply Hk.
    + apply (Hd2 c' r' Hc'). by eapply closure_scheduled_invalidated.
Qed.

Lemma computed_new_created DEV getter setter_ dbg st :
  ∃ st' eff,
    computed_new DEV getter setter_ dbg st = Ok (length (refs st)) st'
    ∧ refs st'
      = refs st ++ [ComputedImpl
                      {| _value := VUndefined; _dirty := true;
                         impl_effect := length (effects st);
                         _setter := setter_;
                         IS_READONLY := match setter_ with
                                        | None => true | Some _ => false end |}]
    ∧ effects st' = effects st ++ [eff]
    ∧ active eff = true ∧ raw eff = getter ∧ deps eff = []
    ∧ scheduler eff = Some (SchedComputedImpl (length (refs st)))
    ∧ (onTrack eff, onTrigger eff)
      = (if DEV then default (None, None) dbg else (None, None))
    ∧ log st' = log st ∧ targetMap st' = targetMap st
    ∧ objects st' = objects st
    ∧ activeReactiveEffectStack st' = activeReactiveEffectStack st.
Proof.
  unfold computed_new, ComputedRefImpl_new, bind, gets, modify, ret,
    createReactiveEffect. simpl.
  destruct dbg as [[t g]|]; [destruct DEV|]; simpl.
  - rewrite lookup_app_r, Nat.sub_diag by lia. simpl.
    unfold update_effect. simpl.
    rewrite alter_app_r_alt, Nat.sub_diag by lia. simpl.
    do 2 eexists. split_and!; reflexivity.
  - do 2 eexists. split_and!; reflexivity.
  - do 2 eexists. split_and!; try reflexivity. by destruct DEV.
Qed.

Lemma computed_old_created exec_rec getter setter_ st :
  computed_old exec_rec getter setter_ st
  = Ok (length (refs st))
      (set_refs (refs st ++ [ComputedOld
                               {| dirty := true; value := VUndefined;
                                  runner := length (effects st);
                                  setter := setter_ |}])
         (set_effects
            (effects st ++
               [{| active := true; raw := getter; deps := [];
                   computed := true;
                   scheduler := Some (SchedComputed (length (refs st)));
                   onTrack := None; onTrigger := None; onStop := None |}])
            st)).
Proof. done. Qed.

Lemma isSameKey_true x y :
  isSameKey (Some x) y = Some true ↔ x = y ∧ comparable_key x = true.
Proof.
  destruct x as [[x|]|[[c s|l]|]], y as [[y|]|[[c' s'|l']|]]; simpl;
    (split; [intros H|intros [H1 H2]]);
    repeat case_bool_decide; simplify_eq/=; done.
Qed.

Lemma isSameKey_throws x y :
  isSameKey (Some x) y = None ↔
    (∃ v, x = ATTRIBUTE v ∧ ∃ w, y = ATTRIBUTE w ∧ (v = None ∨ w = None))
    ∨ (∃ v, x = DIRECTIVE v ∧ ∃ w, y = DIRECTIVE w ∧ (v = None ∨ w = None)).
Proof.
  split.
  - destruct x as [[x|]|[[c s|l]|]], y as [[y|]|[[c' s'|l']|]]; simpl;
      intros H; try discriminate;
      try (left; eexists; split; [done|]; eexists; split; [done|]; auto; fail);
      try (right; eexists; split; [done|]; eexists; split; [done|]; auto;
           fail).
  - intros [(v & -> & w & -> & [->| ->])|(v & -> & w & -> & [->| ->])];
      simpl; try done.
    + by destruct v.
    + by destruct v.
Qed.

Lemma getParentCondition_last node p :
  getParentCondition node = Some p →
  ∃ test consequent alternate,
    p = JS_CONDITIONAL_EXPRESSION test consequent alternate
    ∧ isConditional alternate = false.
Proof.
  induction node as [t c IHc a IHa|i v IHv| |]; simpl; try done.
  destruct (isConditional a) eqn:Ha; [apply IHa|].
  intros [= <-]. eauto.
Qed.

Lemma set_parent_alternate_conditional node x node' :
  set_parent_alternate node x = Some node' →
  isConditional node' = isConditional node.
Proof.
  destruct node as [t c a|i v| |]; simpl; try done.
  - destruct (isConditional a); [|by intros [= <-]].
    destruct (set_parent_alternate a x); simpl; [|done]. by intros [= <-].
  - destruct (set_parent_alternate v x); simpl; [|done]. by intros [= <-].
Qed.

Lemma condition_chain_conditional x :
  isConditional x = true → (condition_chain x).1 ≠ [].
Proof.
  destruct x as [t c a| | |]; try done. simpl. by destruct (isConditional a).
Qed.

Lemma set_parent_alternate_chain node x :
  is_Some (getParentCondition node) →
  ∃ node', set_parent_alternate node x = Some node'
    ∧ condition_chain node'
      = if isConditional x
        then ((condition_chain node).1 ++ (condition_chain x).1,
              (condition_chain x).2)
        else ((condition_chain node).1, Some x).
Proof.
  induction node as [t c IHc a IHa|i v IHv| |]; simpl;
    try (by intros [? [=]]).
  - destruct (isConditional a) eqn:Ha.
    + intros Hs. destruct (IHa Hs) as (a' & Heq & Hch). rewrite Heq. simpl.
      eexists. split; [done|]. simpl.
      rewrite (set_parent_alternate_conditional a x a' Heq), Ha.
      rewrite Hch. by destruct (isConditional x).
    + intros _. eexists. split; [done|]. simpl.
      destruct (isConditional x) eqn:Hx; [|done].
      destruct x as [t' c' a'| | |]; try done; simpl;
        by destruct (isConditional a').
  - intros Hs. destruct (IHv Hs) as (v' & Heq & Hch). rewrite Heq. simpl.
    eexists. split; [done|]. done.
Qed.

Lemma getParentCondition_returns node :
  is_Some (getParentCondition node) ↔ (condition_chain node).1 ≠ [].
Proof.
  induction node as [t c IHc a IHa|i v IHv| |]; simpl.
  - destruct (isConditional a) eqn:Ha; simpl; [|split; [done|by eexists]].
    split; [done|]. intros _. by apply IHa, condition_chain_conditional.
  - done.
  - split; [by intros [? [=]]|done].
  - split; [by intros [? [=]]|done].
Qed.

Lemma attach_branches_snoc root bs b :
  attach_branches root (bs ++ [b])
  = attach_branches root bs ≫= λ r,
      set_parent_alternate r (createCodegenNodeForBranch b.1 b.2).
Proof. unfold attach_branches. by rewrite foldl_app. Qed.

Lemma attach_branches_chain bs : ∀ root,
  (condition_chain root).1 ≠ [] →
  (∀ b, b ∈ bs → b.1 = None → isConditional b.2 = false) →
  ∃ root', attach_branches root bs = Some root'
    ∧ (condition_chain root').1
      = (condition_chain root).1 ++ omap (λ b, (λ t, (t, b.2)) <$> b.1) bs
    ∧ (condition_chain root').2
      = final_alternate bs (condition_chain root).2.
Proof.
  induction bs as [|b bs IH] using rev_ind; intros root Hne Hbs.
  { exists root. split_and!; [done|by rewrite app_nil_r|done]. }
  destruct (IH root Hne) as (r & Hr & Hc1 & Hc2).
  { intros b' Hb'. apply Hbs. apply elem_of_app. by left. }
  rewrite attach_branches_snoc, Hr. simpl.
  assert (is_Some (getParentCondition r)) as Hs.
  { apply getParentCondition_returns. rewrite Hc1.
    intros [? _]%app_eq_nil. done. }
  destruct (set_parent_alternate_chain r
              (createCodegenNodeForBranch b.1 b.2) Hs) as (r' & Hr' & Hch).
  exists r'. split; [done|]. rewrite Hch.
  unfold final_alternate. rewrite last_snoc, omap_app. simpl.
  destruct b as [[t|] ch]; simpl.
  - rewrite Hc1. by rewrite app_assoc.
  - assert (isConditional ch = false) as ->.
    { apply (Hbs (None, ch)); [|done]. apply elem_of_app. right. by left. }
    simpl. by rewrite Hc1, app_nil_r.
Qed.

Lemma branches_before_S siblings n :
  branches_before siblings (S n)
  = branches_before siblings n
    + match siblings !! n with Some (IF bs) => length bs | _ => 0 end.
Proof.
  unfold branches_before. destruct (siblings !! n) as [x|] eqn:Hx.
  - rewrite (take_S_r _ _ x) by done. rewrite sum_list_with_app. simpl.
    destruct x; lia.
  - apply lookup_ge_None in Hx. rewrite !take_ge by lia. lia.
Qed.

Lemma key_loop_spec siblings n : ∀ k key,
  key_loop (S (S n) + k) siblings (Z.of_nat n) key
  = Some (key + branches_before siblings n).
Proof.
  induction n as [|n IH]; intros k key.
  - simpl. unfold branches_before. simpl. f_equal. lia.
  - replace (S (S (S n)) + k) with (S (S (S n) + k)) by lia.
    cbn [key_loop].
    replace (0 <=? Z.of_nat (S n))%Z with true by (symmetry; apply Z.leb_le; lia).
    replace (Z.of_nat (S n) - 1)%Z with (Z.of_nat n) by lia.
    unfold sibling_at.
    replace (Z.of_nat n <? 0)%Z with false by (symmetry; apply Z.ltb_ge; lia).
    rewrite Nat2Z.id, IH, branches_before_S.
    destruct (siblings !! n) as [[]|]; f_equal; lia.
Qed.

Lemma branches_before_mono siblings p q :
  (p ≤ q)%nat →
  (branches_before siblings p ≤ branches_before siblings q)%nat.
Proof.
  induction 1 as [|q _ IH]; [done|]. rewrite branches_before_S. lia.
Qed.

(** ** Invalidation of computed values *)









(** * Properties of the specification *)

(** C1. One call of [trigger] runs the effects of [trigger_order], one
    by one, through [scheduleRun]; no effect occurs twice in that list,
    however many of the selected dependency sets hold it, and every
    effect marked [computed] stands before every effect that is not. *)
Theorem trigger_computed_first_once DEV exec_rec sched_rec st target type key
    extraInfo :
  trigger DEV exec_rec sched_rec target type key extraInfo st
  = forEach (trigger_order st target type key)
      (λ e, scheduleRun DEV exec_rec sched_rec e target type key extraInfo) st
  ∧ NoDup (trigger_order st target type key)
  ∧ (∀ i j a b,
       trigger_order st target type key !! i = Some a →
       trigger_order st target type key !! j = Some b →
       is_computed st a = true → is_computed st b = false → i < j).
Proof.
  split; [apply trigger_unfold|].
  destruct (trigger_order_ok st target type key) as ([ef cr] & (Hef & Hcr & Hp & Hc) & ->).
  simpl in *. split.
  - apply list.NoDup_app. split_and!; [done| |done].
    intros e He He'. apply Hc in He. apply Hp in He'. congruence.
  - intros i j a b Hi Hj Ha Hb.
    apply lookup_app_Some in Hi as [Hi|[_ Hi]].
    2:{ apply list_elem_of_lookup_2, Hp in Hi. congruence. }
    apply lookup_app_Some in Hj as [Hj|[Hj _]].
    { apply list_elem_of_lookup_2, Hc in Hj. congruence. }
    apply lookup_lt_Some in Hi. lia.
Qed.

(** C2, amended. From a state satisfying [Inv], every execution ends in
    a state satisfying [Inv], also in the middle of a run: an effect is
    in the dependency set of a location exactly when the location is in
    its [deps], exactly when the location was attributed to it since its
    dependencies were last cleared. [run] of an active effect that is
    not running is [cleanup], push, the body, pop; after the [cleanup]
    the effect is in no dependency set and its [deps] is empty. [track]
    adds only the effect on top of the running stack, only while
    tracking is not paused, and only to the location read;
    [trackChildRun] adds only the effect on top of the running stack,
    to the locations of the child. *)
Theorem membership_is_tracking_since_cleanup DEV fuel b st :
  Inv st →
  holds_after Inv (exec DEV fuel b st)
  ∧ (∀ e eff, effects st !! e = Some eff → active eff = true →
       e ∉ activeReactiveEffectStack st →
       run (exec DEV fuel) e st
       = finally_pop (exec DEV fuel (raw eff))
           (emit (EvCall e) (push e (cleanup e st)))
       ∧ (∀ d, e ∉ dep_of (cleanup e st) d)
       ∧ deps_of (cleanup e st) e = [])
  ∧ (∀ target type key e d,
       e ∈ dep_of (track DEV target type key st) d → e ∉ dep_of st d →
       head (activeReactiveEffectStack st) = Some e ∧ shouldTrack st = true
       ∧ d = (target, if decide (type = ITERATE) then Some ITERATE_KEY
                      else key))
  ∧ (∀ child e d,
       e ∈ dep_of (trackChildRun child st) d → e ∉ dep_of st d →
       head (activeReactiveEffectStack st) = Some e ∧ d ∈ deps_of st child).
Proof.
  intros HI. split_and!.
  - pose proof (exec_Inv DEV fuel b st) as H.
    destruct (exec DEV fuel b st); simpl in *; auto.
  - intros e eff He Ha Hs. split; [by apply run_fresh|].
    by apply (cleanup_clears e eff).
  - intros target type key e d. apply dep_of_track.
  - intros child e d. apply dep_of_trackChildRun.
Qed.

(** The program [effect(() => state.num); stop(runner)] from the initial
    state. *)
Lemma membership_is_tracking_since_cleanup_witness :
  holds_after Inv (exec true 8 read_then_stop_program initial_state).
Proof.
  apply (membership_is_tracking_since_cleanup true 8 read_then_stop_program
           initial_state).
  split.
  - intros e He. vm_compute in He. by apply elem_of_nil in He.
  - intros e d. unfold dep_of, dep_at, deps_of. simpl.
    split; intros []%elem_of_nil.
  - intros e d. unfold deps_of. simpl. split; intros []%elem_of_nil.
Defined.

(** C2 as stated fails after [stop]: no effect is running, [state.num]
    was read during the most recent execution of effect 0, and effect 0
    is not in the dependency set of [state.num]. *)
Lemma membership_counterexample :
  activeReactiveEffectStack stopped_state = []
  ∧ (TObject 0, Some (KStr "num")) ∈ last_run_reads (log stopped_state) 0
  ∧ 0 ∉ dep_of stopped_state (TObject 0, Some (KStr "num")).
Proof.
  split_and!.
  - vm_compute. reflexivity.
  - vm_compute. left.
  - vm_compute. intros []%elem_of_nil.
Qed.





(** C5, amended. A write through the mutable handler whose previous
    value is not a ref, and whose [Reflect.set] returns, is that
    [Reflect.set] followed by at most one [trigger]: none when the
    target is not the raw receiver; otherwise ADD when the key was not
    an own key; SET when it was and the raw new value is another value
    than the old one, or the old value is [NaN]; none when the raw new
    value is the old value and not [NaN]. *)
Theorem set_fires_at_most_one_trigger DEV exec_rec sched_rec target key value_
    receiver st old st0 result st1 :
  Reflect_get exec_rec target key (VObject target) st = Ok old st0 →
  isRef old = false →
  Reflect_set exec_rec target key (toRaw value_) receiver st0 = Ok result st1 →
  set DEV exec_rec sched_rec target key value_ receiver st
  = (fire DEV exec_rec sched_rec (TObject target) (Some key)
       (write_trigger_kind
          (bool_decide (VObject target = toRaw receiver))
          (hasOwn st target key)
          (value_changed (toRaw value_) old))
       (write_info DEV old (toRaw value_)) ;;;
     ret result) st1
  ∧ (VObject target = toRaw receiver → hasOwn st target key = false →
     set DEV exec_rec sched_rec target key value_ receiver st
     = (trigger DEV exec_rec sched_rec (TObject target) ADD (Some key)
          (write_info DEV old (toRaw value_)) ;;;
        ret result) st1)
  ∧ (VObject target = toRaw receiver → hasOwn st target key = true →
     toRaw value_ ≠ old ∨ old = VNaN →
     set DEV exec_rec sched_rec target key value_ receiver st
     = (trigger DEV exec_rec sched_rec (TObject target) SET (Some key)
          (write_info DEV old (toRaw value_)) ;;;
        ret result) st1)
  ∧ (hasOwn st target key = true → toRaw value_ = old → old ≠ VNaN →
     set DEV exec_rec sched_rec target key value_ receiver st = Ok result st1)
  ∧ (VObject target ≠ toRaw receiver →
     set DEV exec_rec sched_rec target key value_ receiver st = Ok result st1)
  ∧ (∀ ro, receiver = VProxy target ro → VObject target = toRaw receiver).
Proof.
  intros Hget Hold Hset.
  assert (set DEV exec_rec sched_rec target key value_ receiver st
  = (fire DEV exec_rec sched_rec (TObject target) (Some key)
       (write_trigger_kind
          (bool_decide (VObject target = toRaw receiver))
          (hasOwn st target key)
          (value_changed (toRaw value_) old))
       (write_info DEV old (toRaw value_)) ;;;
     ret result) st1) as Heq.
  { rewrite <- strict_eq_value_changed.
    unfold set, bind at 1 2. simpl. rewrite Hget, Hold. simpl.
    unfold bind at 1. rewrite Hset.
    unfold write_trigger_kind, fire, write_info.
    destruct (bool_decide (VObject target = toRaw receiver)),
      DEV, (hasOwn st target key), (strict_eq (toRaw value_) old); done. }
  split_and!; [done| | | | |].
  - intros Hc Hk. rewrite Heq, Hk. by rewrite bool_decide_eq_true_2.
  - intros Hc Hk Hch. rewrite Heq, Hk.
    rewrite bool_decide_eq_true_2 by done.
    assert (value_changed (toRaw value_) old = true) as ->; [|done].
    unfold value_changed, differs. destruct Hch as [Hne| ->].
    + by rewrite bool_decide_eq_false_2.
    + rewrite (bool_decide_eq_true_2 (VNaN = VNaN)) by done.
      apply orb_true_r.
  - intros Hk Hv Hn. rewrite Heq, Hk.
    assert (value_changed (toRaw value_) old = false) as ->.
    { unfold value_changed, differs. rewrite bool_decide_eq_true_2 by done.
      by rewrite bool_decide_eq_false_2. }
    unfold write_trigger_kind.
    by destruct (bool_decide (VObject target = toRaw receiver)).
  - intros Hne. rewrite Heq. by rewrite bool_decide_eq_false_2.
  - by intros ro ->.
Qed.

(** [state.n = 4] on the counter whose [n] is 1 triggers SET, and
    [state.n = 1] triggers nothing. *)
Lemma set_fires_at_most_one_trigger_witness :
  set true (exec true 8) (sched true 8) 0 (KStr "n") (VNumber 4)
    (VProxy 0 false) counter_state
  = (trigger true (exec true 8) (sched true 8) (TObject 0) SET
       (Some (KStr "n"))
       (Some {| oldValue := Some (VNumber 1); newValue := Some (VNumber 4) |})
     ;;; ret (VBool true))
      (write_property 0 (KStr "n") (VNumber 4) counter_state)
  ∧ set true (exec true 8) (sched true 8) 0 (KStr "n") (VNumber 1)
      (VProxy 0 false) counter_state
    = Ok (VBool true) counter_state.
Proof.
  split.
  - edestruct (set_fires_at_most_one_trigger true (exec true 8) (sched true 8)
                 0 (KStr "n") (VNumber 4) (VProxy 0 false) counter_state
                 (VNumber 1) counter_state (VBool true)
                 (write_property 0 (KStr "n") (VNumber 4) counter_state))
      as (_ & _ & H & _).
    + vm_compute. reflexivity.
    + reflexivity.
    + vm_compute. reflexivity.
    + apply H; [reflexivity|vm_compute; reflexivity|by left].
  - edestruct (set_fires_at_most_one_trigger true (exec true 8) (sched true 8)
                 0 (KStr "n") (VNumber 1) (VProxy 0 false) counter_state
                 (VNumber 1) counter_state (VBool true) counter_state)
      as (_ & _ & _ & H & _).
    + vm_compute. reflexivity.
    + reflexivity.
    + vm_compute. reflexivity.
    + apply H; [vm_compute; reflexivity|reflexivity|done].
Defined.

(** C5 as stated fails for [NaN] written over [NaN]: the key exists and
    the value written is the value stored, yet SET is triggered and the
    effect reading [state.n] is executed again. *)
Lemma set_nan_counterexample :
  own_property nan_state 0 (KStr "n") = Some VNaN
  ∧ differs (toRaw VNaN) VNaN = false
  ∧ set true (exec true 8) (sched true 8) 0 (KStr "n") VNaN (VProxy 0 false)
      nan_state
    = (trigger true (exec true 8) (sched true 8) (TObject 0) SET
         (Some (KStr "n"))
         (Some {| oldValue := Some VNaN; newValue := Some VNaN |})
       ;;; ret (VBool true)) nan_state
  ∧ dep_of nan_state (TObject 0, Some (KStr "n")) = [0]
  ∧ calls (log nan_state) 0 = 1
  ∧ is_ok (set true (exec true 8) (sched true 8) 0 (KStr "n") VNaN
             (VProxy 0 false) nan_state) = true
  ∧ calls (log (final_state
                  (set true (exec true 8) (sched true 8) 0 (KStr "n") VNaN
                     (VProxy 0 false) nan_state))) 0 = 2.
Proof. split_and!; vm_compute; reflexivity. Qed.

(** C6, amended. [trigger] on a target that was never tracked returns
    and changes nothing. On a tracked target, for a kind other than
    CLEAR the effects notified are exactly those of the dependency set
    of the key, when a key is given, and, for ADD and DELETE, those of
    the dependency set of the iteration key, which is ['length'] for an
    array; for CLEAR they are the effects of every dependency set of
    the target. The list is computed from the state before any effect
    is run. *)
Theorem trigger_notified_set DEV exec_rec sched_rec st target type key
    extraInfo :
  (alist_get target (targetMap st) = None →
   trigger DEV exec_rec sched_rec target type key extraInfo st = Ok tt st)
  ∧ (∀ e, is_Some (alist_get target (targetMap st)) → type ≠ CLEAR →
       (e ∈ trigger_order st target type key ↔
          (is_Some key ∧ e ∈ dep_of st (target, key)) ∨
          ((type = ADD ∨ type = DELETE) ∧
           e ∈ dep_of st (target, Some (iterationKey st target)))))
  ∧ (∀ e depsMap, alist_get target (targetMap st) = Some depsMap →
       type = CLEAR →
       (e ∈ trigger_order st target type key ↔
          ∃ k dep, (k, dep) ∈ depsMap ∧ e ∈ dep))
  ∧ trigger DEV exec_rec sched_rec target type key extraInfo st
    = forEach (trigger_order st target type key)
        (λ e, scheduleRun DEV exec_rec sched_rec e target type key extraInfo)
        st.
Proof.
  split_and!.
  - intros H. unfold trigger. by rewrite H.
  - intros e [depsMap Hm] Hty. unfold trigger_order. rewrite Hm.
    rewrite !(dep_of_get _ _ _ _ Hm). unfold collect_runners.
    destruct (decide (type = CLEAR)); [done|].
    fold (iterationKey st target).
    set (s1 := match key with
               | Some _ => addRunners st ([], []) (alist_get key depsMap)
               | None => ([], []) end).
    assert (sets_ok st s1 ∧
            ∀ x, x ∈ s1.2 ++ s1.1 ↔ is_Some key ∧ x ∈ default [] (alist_get key depsMap))
      as [Hok1 H1].
    { subst s1. destruct key as [k|].
      - destruct (addRunners_spec st (alist_get (Some k) depsMap) ([], []))
          as [? H]; [apply sets_ok_nil|]. split; [done|].
        intros x. rewrite H. simpl. rewrite elem_of_nil.
        split; [intros [[]|]; eauto|]. intros [_ ?]; auto.
      - split; [apply sets_ok_nil|]. intros x; simpl. rewrite elem_of_nil.
        split; [done|]. intros [[? [=]] _]. }
    case_bool_decide as Hk.
    + destruct (addRunners_spec st
        (alist_get (Some (iterationKey st target)) depsMap) s1 Hok1) as [_ H2].
      rewrite H2, H1. tauto.
    + rewrite H1. tauto.
  - intros e depsMap Hm ->. unfold trigger_order. rewrite Hm.
    unfold collect_runners. simpl.
    destruct (collect_clear_spec st depsMap ([], []) (sets_ok_nil st)) as [_ H].
    rewrite H. simpl. rewrite elem_of_nil. tauto.
  - apply trigger_unfold.
Qed.

(** C6 as stated fails for CLEAR: effect 0 is notified although no key
    is given and the kind is neither ADD nor DELETE. *)
Lemma trigger_clear_counterexample :
  is_Some (alist_get (TObject 0) (targetMap counter_state))
  ∧ 0 ∈ trigger_order counter_state (TObject 0) CLEAR None
  ∧ ¬ ((is_Some (None : option Key)
        ∧ 0 ∈ dep_of counter_state (TObject 0, None))
       ∨ ((CLEAR = ADD ∨ CLEAR = DELETE)
          ∧ 0 ∈ dep_of counter_state
                  (TObject 0, Some (iterationKey counter_state (TObject 0))))).
Proof.
  split_and!.
  - vm_compute. eauto.
  - vm_compute. left.
  - intros [[[? [=]] _]|[[[=]|[=]] _]].
Qed.

(** C7, amended. For an active effect that is on the running stack,
    [run] returns [undefined] and changes nothing, and so does a
    notification of it, apart from the [onTrigger] callback. A stopped
    effect is executed directly, also when it is on the running stack.
    One [run] of an active effect that is not running enters its
    function exactly once, whatever the function triggers, unless the
    effect is stopped meanwhile. The effect [state.n++] is executed once
    when it is created, leaving [n] at 1, and once for a later write of
    4, leaving [n] at 5. *)
Theorem active_reentry_is_skipped DEV fuel e eff st :
  effects st !! e = Some eff →
  (active eff = true → e ∈ activeReactiveEffectStack st →
     run (exec DEV fuel) e st = Ok VUndefined st)
  ∧ (active eff = true → e ∈ activeReactiveEffectStack st →
     scheduler eff = None →
     ∀ target type key x,
       scheduleRun DEV (exec DEV fuel) (sched DEV fuel) e target type key x st
       = Ok tt (call_onTrigger DEV eff e target type key x st))
  ∧ (active eff = false →
     run (exec DEV fuel) e st = exec DEV fuel (raw eff) (emit (EvCall e) st))
  ∧ (active eff = true → e ∉ activeReactiveEffectStack st →
     holds_after (λ st', stopped st' e = false →
                         calls (log st') e = calls (log st) e + 1)
       (run (exec DEV fuel) e st))
  ∧ (let st1 := final_state
                  (exec true 8 (self_increment_program 0) initial_state) in
     is_ok (exec true 8 (self_increment_program 0) initial_state) = true
     ∧ calls (log st1) 0 = 1
     ∧ own_property st1 0 (KStr "n") = Some (VNumber 1)
     ∧ let r := exec true 8
                  (SetProp (VProxy 0 false) (KStr "n") (VNumber 4)
                     (Ret VUndefined)) st1 in
       is_ok r = true
       ∧ calls (log (final_state r)) 0 = 2
       ∧ own_property (final_state r) 0 (KStr "n") = Some (VNumber 5)).
Proof.
  intros He. split_and!.
  - intros Ha Hin. by apply (run_reentrant _ _ eff).
  - intros Ha Hin Hs target type key x. by apply scheduleRun_running.
  - intros Ha. unfold run. by rewrite He, Ha.
  - intros Ha Hs. by apply (run_calls_once DEV fuel e eff).
  - vm_compute. done.
Qed.

(** The counter effect, running, invoked again. *)
Lemma active_reentry_is_skipped_witness :
  run (exec true 4) 0 (push 0 counter_state)
  = Ok VUndefined (push 0 counter_state).
Proof.
  eapply (active_reentry_is_skipped true 4 0).
  - vm_compute. reflexivity.
  - vm_compute. reflexivity.
  - vm_compute. left.
Defined.

(** C7 as stated fails for an effect that stopped itself: it is on the
    running stack, and invoking it executes its function. *)
Lemma reentry_counterexample :
  0 ∈ activeReactiveEffectStack inside_stopped_state
  ∧ (active <$> effects inside_stopped_state !! 0) = Some false
  ∧ run (exec true 4) 0 inside_stopped_state
    = Ok (VNumber 1) (emit (EvCall 0) inside_stopped_state)
  ∧ run (exec true 4) 0 inside_stopped_state
    ≠ Ok VUndefined inside_stopped_state.
Proof.
  split_and!.
  - vm_compute. left.
  - vm_compute. reflexivity.
  - vm_compute. reflexivity.
  - vm_compute. intros [=].
Qed.

(** C8, amended. When [run] throws, the running stack is what it was
    before the call. For an active effect that was not running, the body
    threw with the effect on top of the stack, the same value is thrown
    on, and the state is the state the body left with the stack popped;
    for a stopped effect the throw of the body is the throw of [run].
    The pause flag is not restored: it is what the body left. If it is
    what it was, a read is attributed to the same effect as before the
    call. An effect run afterwards has the reads of its function
    attributed to itself, and is subscribed by them, if tracking is on
    in the state the throw left; if the body threw with tracking paused,
    the reads of an effect run afterwards are attributed to nobody and
    subscribe nobody. *)
Theorem run_throw_restores_stack DEV fuel e st v st' :
  run (exec DEV fuel) e st = Thrown v st' →
  activeReactiveEffectStack st' = activeReactiveEffectStack st
  ∧ (∀ eff, effects st !! e = Some eff → active eff = true →
       e ∉ activeReactiveEffectStack st →
       ∃ st1,
         exec DEV fuel (raw eff) (emit (EvCall e) (push e (cleanup e st)))
           = Thrown v st1
         ∧ head (activeReactiveEffectStack st1) = Some e
         ∧ st' = pop st1
         ∧ shouldTrack st' = shouldTrack st1)
  ∧ (∀ eff, effects st !! e = Some eff → active eff = false →
       exec DEV fuel (raw eff) (emit (EvCall e) st) = Thrown v st')
  ∧ (shouldTrack st' = shouldTrack st → attributed st' = attributed st)
  ∧ (∀ e2 eff2, effects st' !! e2 = Some eff2 → active eff2 = true →
       e2 ∉ activeReactiveEffectStack st' →
       run (exec DEV fuel) e2 st'
       = finally_pop (exec DEV fuel (raw eff2)) (entered e2 st')
       ∧ (shouldTrack st' = true →
          attributed (entered e2 st') = Some e2
          ∧ ∀ target type key,
              e2 ∈ dep_of (track DEV target type key (entered e2 st'))
                     (target, tracked_key type key))
       ∧ (shouldTrack st' = false →
          attributed (entered e2 st') = None
          ∧ ∀ target type key,
              track DEV target type key (entered e2 st') = entered e2 st')).
Proof.
  intros Hrun. split_and!.
  - pose proof (run_same_stack DEV fuel e st) as H. by rewrite Hrun in H.
  - intros eff He Ha Hs. unfold run in Hrun. rewrite He, Ha in Hrun.
    simpl in Hrun. rewrite bool_decide_eq_true_2 in Hrun by done.
    unfold finally_pop in Hrun.
    pose proof (exec_same_stack DEV fuel (raw eff)
                  (emit (EvCall e) (push e (cleanup e st)))) as Hb.
    destruct (exec DEV fuel (raw eff) _) as [?|v1 st1|]; simplify_eq.
    exists st1. split_and!; [done| |done|done].
    unfold same_stack in Hb. simpl in Hb. rewrite Hb. done.
  - intros eff He Ha. unfold run in Hrun. by rewrite He, Ha in Hrun.
  - intros Hsh. unfold attributed. rewrite Hsh.
    pose proof (run_same_stack DEV fuel e st) as H. rewrite Hrun in H.
    unfold same_stack in H. simpl in H. by rewrite H.
  - intros e2 eff2 He2 Ha2 Hs2.
    assert (shouldTrack (entered e2 st') = shouldTrack st') as Hsh.
    { unfold entered, cleanup. by rewrite He2. }
    assert (head (activeReactiveEffectStack (entered e2 st')) = Some e2)
      as Hh.
    { unfold entered, cleanup. by rewrite He2. }
    split_and!.
    + by apply run_fresh.
    + intros Ht. rewrite Ht in Hsh. split.
      * unfold attributed. by rewrite Hsh.
      * intros target type key.
        by destruct (track_notified DEV target type key e2 (entered e2 st')
                       Hsh Hh) as [H _].
    + intros Ht. rewrite Ht in Hsh. split.
      * unfold attributed. by rewrite Hsh.
      * intros target type key. apply track_paused. by left.
Qed.

(** The effect [c], whose function throws, invoked when the function of
    the effect [b] has just been entered. *)
Lemma run_throw_restores_stack_witness :
  is_ok (run (exec true 3) 2 (entered 1 throwing_state)) = false
  ∧ activeReactiveEffectStack
      (final_state (run (exec true 3) 2 (entered 1 throwing_state))) = [1]
  ∧ attributed (final_state (run (exec true 3) 2 (entered 1 throwing_state)))
    = Some 1.
Proof.
  edestruct (run_throw_restores_stack true 3 2 (entered 1 throwing_state)
               (VString "boom")
               (final_state (run (exec true 3) 2 (entered 1 throwing_state))))
    as (H1 & _ & _ & H4 & _).
  - vm_compute. reflexivity.
  - split_and!.
    + vm_compute. reflexivity.
    + rewrite H1. vm_compute. reflexivity.
    + rewrite H4; vm_compute; reflexivity.
Defined.

(** C8 as stated fails when the body throws with tracking paused: [a]
    throws, the stack is what it was, and [b], run next, reads [obs.x]
    and is subscribed to nothing, whereas [b] run before [a] is
    subscribed to [obs.x]. *)
Lemma run_throw_counterexample :
  is_ok (run (exec true 4) 0 throwing_state) = false
  ∧ activeReactiveEffectStack (final_state (run (exec true 4) 0 throwing_state))
    = activeReactiveEffectStack throwing_state
  ∧ shouldTrack throwing_state = true
  ∧ shouldTrack (final_state (run (exec true 4) 0 throwing_state)) = false
  ∧ run (exec true 4) 1 throwing_state
    = Ok (VNumber 1)
        (final_state (run (exec true 4) 1 throwing_state))
  ∧ deps_of (final_state (run (exec true 4) 1 throwing_state)) 1
    = [(TObject 0, Some (KStr "x"))]
  ∧ run (exec true 4) 1 (final_state (run (exec true 4) 0 throwing_state))
    = Ok (VNumber 1)
        (final_state
           (run (exec true 4) 1
              (final_state (run (exec true 4) 0 throwing_state))))
  ∧ deps_of (final_state
               (run (exec true 4) 1
                  (final_state (run (exec true 4) 0 throwing_state)))) 1
    = []
  ∧ dep_of (final_state
              (run (exec true 4) 1
                 (final_state (run (exec true 4) 0 throwing_state))))
      (TObject 0, Some (KStr "x"))
    = [].
Proof. split_and!; vm_compute; reflexivity. Qed.

(** C9. An effect whose function calls [stop] on the effect and then
    reads [obs.x]: after its first run the effect is inactive, nothing
    is running, and the effect is in the dependency set of [obs.x]; a
    later write of [obs.x] executes the function again. *)
Theorem stop_while_running_resubscribes :
  is_ok (exec true 8 self_stop_program initial_state) = true
  ∧ (active <$> effects self_stop_state !! 0) = Some false
  ∧ activeReactiveEffectStack self_stop_state = []
  ∧ dep_of self_stop_state (TObject 0, Some (KStr "x")) = [0]
  ∧ calls (log self_stop_state) 0 = 1
  ∧ let r := exec true 8
               (SetProp (VProxy 0 false) (KStr "x") (VNumber 2)
                  (Ret VUndefined)) self_stop_state in
    is_ok r = true ∧ calls (log (final_state r)) 0 = 2.
Proof. vm_compute. done. Qed.

(** C10. A read through the get handler under a built-in symbol is the
    plain [Reflect.get]: it leaves the state as it is, so no track
    event is recorded, and an own property is returned as stored, be it
    a ref or an object. *)
Theorem get_builtin_symbol_returns_raw DEV fuel isReadonly target key
    receiver st :
  isSymbol key && builtInSymbols_has key = true →
  createGetter DEV (exec DEV fuel) isReadonly target key receiver st
  = Reflect_get (exec DEV fuel) target key receiver st
  ∧ unchanged st
      (createGetter DEV (exec DEV fuel) isReadonly target key receiver st)
  ∧ (∀ v, own_property st target key = Some v →
       createGetter DEV (exec DEV fuel) isReadonly target key receiver st
       = Ok v st).
Proof.
  intros Hk. rewrite createGetter_builtin by done. split_and!; [done| |].
  - apply Reflect_get_unchanged. intros o.
    by apply exec_ReflectGet_builtin.
  - intros v Hv. unfold Reflect_get. by rewrite Hv.
Qed.

(** A ref and an object stored under [Symbol.iterator] and
    [Symbol.toStringTag], read through the reactive proxy by a running
    effect. *)
Lemma get_builtin_symbol_returns_raw_witness :
  createGetter true (exec true 5) false 0 (KSym (SymWellKnown "iterator"))
    (VProxy 0 false) symbol_state = Ok (VRef 0) symbol_state
  ∧ createGetter true (exec true 5) false 0 (KSym (SymWellKnown "toStringTag"))
      (VProxy 0 false) symbol_state = Ok (VObject 1) symbol_state.
Proof.
  split.
  - apply (get_builtin_symbol_returns_raw true 5 false 0
             (KSym (SymWellKnown "iterator")) (VProxy 0 false) symbol_state);
      vm_compute; reflexivity.
  - apply (get_builtin_symbol_returns_raw true 5 false 0
             (KSym (SymWellKnown "toStringTag")) (VProxy 0 false)
             symbol_state); vm_compute; reflexivity.
Defined.

(** * Further properties *)

(** X1. [stop] of an active effect that has no [onStop] callback and is
    not running: its dependencies are cleared once and nothing else is
    observed; a second [stop] changes nothing; the effect is inactive
    and in no dependency set, and stays so through every later
    execution, also one that invokes the stopped effect, which executes
    its function directly. *)
Theorem stop_outside_run_is_final DEV fuel b e eff st :
  Inv st → effects st !! e = Some eff → active eff = true →
  onStop eff = None →
  e ∉ activeReactiveEffectStack st →
  stop e (stop e st) = stop e st
  ∧ log (stop e st) = log st ++ [EvCleanup e]
  ∧ retired e (stop e st)
  ∧ holds_after (retired e) (exec DEV fuel b (stop e st))
  ∧ run (exec DEV fuel) e (stop e st)
    = exec DEV fuel (raw eff) (emit (EvCall e) (stop e st))
  ∧ holds_after (retired e) (run (exec DEV fuel) e (stop e st)).
Proof.
  intros HI He Ha Hno Hs.
  pose proof (retired_stop e eff st HI He Ha Hs) as Hr.
  split_and!.
  - apply stop_stop.
  - rewrite (stop_log e eff) by done. rewrite Hno. by rewrite app_nil_r.
  - done.
  - pose proof (exec_respects _ (stays_retired_respectable e) DEV fuel b
                  (stop e st)) as H.
    destruct (exec DEV fuel b (stop e st)); simpl in *; auto.
  - unfold run. by rewrite (stop_lookup e eff).
  - pose proof (run_respects _ (stays_retired_respectable e) DEV fuel e
                  (stop e st)) as H.
    destruct (run (exec DEV fuel) e (stop e st)); simpl in *; auto.
Qed.

(** The effect reading [state.num], stopped, and a later write of
    [state.num]. *)
Lemma stop_outside_run_is_final_witness :
  retired 0 (stop 0 observing_state)
  ∧ holds_after (retired 0)
      (exec true 8
         (SetProp (VProxy 0 false) (KStr "num") (VNumber 9) (Ret VUndefined))
         (stop 0 observing_state)).
Proof.
  edestruct (stop_outside_run_is_final true 8
               (SetProp (VProxy 0 false) (KStr "num") (VNumber 9)
                  (Ret VUndefined)) 0
               {| active := true;
                  raw := GetProp (VProxy 0 false) (KStr "num") Ret;
                  deps := [(TObject 0, Some (KStr "num"))];
                  computed := false; scheduler := None; onTrack := None;
                  onTrigger := None; onStop := None |}
               observing_state)
    as (_ & _ & H1 & H2 & _).
  - apply Inv_final_state.
  - vm_compute. reflexivity.
  - vm_compute. reflexivity.
  - reflexivity.
  - vm_compute. intros H. by apply elem_of_nil in H.
  - split; [exact H1|exact H2].
Defined.

(** X2. Every execution, every [run] and every [trigger] that returns or
    throws leaves the running stack as it found it. *)
Theorem execution_restores_stack DEV fuel st :
  (∀ b, holds_after
          (λ st', activeReactiveEffectStack st' = activeReactiveEffectStack st)
          (exec DEV fuel b st))
  ∧ (∀ e, holds_after
          (λ st', activeReactiveEffectStack st' = activeReactiveEffectStack st)
          (run (exec DEV fuel) e st))
  ∧ (∀ target type key x, holds_after
          (λ st', activeReactiveEffectStack st' = activeReactiveEffectStack st)
          (trigger DEV (exec DEV fuel) (sched DEV fuel) target type key x st)).
Proof.
  split_and!.
  - intros b. pose proof (exec_same_stack DEV fuel b st) as H.
    by destruct (exec DEV fuel b st).
  - intros e. pose proof (run_same_stack DEV fuel e st) as H.
    by destruct (run (exec DEV fuel) e st).
  - intros target type key x.
    pose proof (trigger_respects _ same_stack_respectable DEV fuel target type
                  key x st) as H.
    by destruct (trigger DEV _ _ target type key x st).
Qed.

(** X3. A [trigger] that returns has entered the function of every
    effect it collected that has no scheduler and was not running, at
    least once, whatever the effects run before it have done: none of
    the collected effects is skipped. *)
Theorem trigger_runs_every_subscriber DEV fuel target type key x st st' e eff :
  trigger DEV (exec DEV fuel) (sched DEV fuel) target type key x st
  = Ok tt st' →
  e ∈ trigger_order st target type key →
  effects st !! e = Some eff → scheduler eff = None →
  e ∉ activeReactiveEffectStack st →
  calls (log st) e < calls (log st') e.
Proof.
  intros Hrun Hin He Hsch Hs. rewrite trigger_unfold in Hrun.
  by eapply forEach_scheduleRun_enters.
Qed.

(** A SET of [state.n] on the counter. *)
Lemma trigger_runs_every_subscriber_witness :
  calls (log counter_state) 0
  < calls (log (final_state
                  (trigger true (exec true 8) (sched true 8) (TObject 0) SET
                     (Some (KStr "n")) None counter_state))) 0.
Proof.
  eapply (trigger_runs_every_subscriber true 8 (TObject 0) SET
            (Some (KStr "n")) None counter_state).
  - vm_compute. reflexivity.
  - vm_compute. left.
  - vm_compute. reflexivity.
  - vm_compute. reflexivity.
  - vm_compute. intros H. by apply elem_of_nil in H.
Defined.

(** X4. While [LOCKED] is set, a write or a delete through the readonly
    handlers returns [true] and changes neither the objects, the refs,
    the dependency store nor the effects, and executes no effect. *)
Theorem readonly_locked_write_is_refused DEV exec_rec sched_rec target key v
    receiver st :
  LOCKED st = true →
  (∃ st', readonly_set DEV exec_rec sched_rec target key v receiver st
          = Ok (VBool true) st'
          ∧ objects st' = objects st ∧ refs st' = refs st
          ∧ targetMap st' = targetMap st ∧ effects st' = effects st
          ∧ ∀ e, calls (log st') e = calls (log st) e)
  ∧ (∃ st', readonly_deleteProperty DEV exec_rec sched_rec target key st
            = Ok (VBool true) st'
            ∧ objects st' = objects st ∧ refs st' = refs st
            ∧ targetMap st' = targetMap st ∧ effects st' = effects st
            ∧ ∀ e, calls (log st') e = calls (log st) e).
Proof.
  intros HL. split.
  - unfold readonly_set, bind, gets. rewrite HL. destruct DEV.
    + eexists (emit _ st). split_and!; try reflexivity.
      intros e. by apply calls_emit.
    + by exists st.
  - unfold readonly_deleteProperty, bind, gets. rewrite HL. destruct DEV.
    + eexists (emit _ st). split_and!; try reflexivity.
      intros e. by apply calls_emit.
    + by exists st.
Qed.

(** [state.n = 4] through a readonly proxy of the counter. *)
Lemma readonly_locked_write_is_refused_witness :
  ∃ st', readonly_set true (exec true 8) (sched true 8) 0 (KStr "n")
           (VNumber 4) (VProxy 0 true) counter_state
         = Ok (VBool true) st'
         ∧ objects st' = objects counter_state.
Proof.
  destruct (readonly_locked_write_is_refused true (exec true 8) (sched true 8)
              0 (KStr "n") (VNumber 4) (VProxy 0 true) counter_state)
    as [(st' & H & Ho & _) _].
  - vm_compute. reflexivity.
  - exists st'. by split.
Defined.

(** X5. Deleting an own key through the mutable handler. A configurable
    property is removed first and DELETE is triggered then: an active
    effect that is the only one collected, has no scheduler and is not
    running, is executed exactly once (unless it is stopped meanwhile;
    the count is for an effect whose [onTrigger] callback, if it has
    one, is not called). A property that is not configurable stays: the
    handler returns [false], triggers nothing and leaves the state as it
    was; the [length] of an array is such a property. Deleting a key
    that the object does not have triggers nothing. *)
Theorem delete_reruns_subscriber_once DEV fuel target key e eff st :
  trigger_order st (TObject target) DELETE (Some key) = [e] →
  effects st !! e = Some eff → active eff = true → scheduler eff = None →
  DEV = false ∨ onTrigger eff = None →
  e ∉ activeReactiveEffectStack st →
  (∀ old, own_property st target key = Some old →
     configurable st target key = true →
     deleteProperty DEV (exec DEV fuel) (sched DEV fuel) target key st
     = (trigger DEV (exec DEV fuel) (sched DEV fuel) (TObject target) DELETE
          (Some key)
          (if DEV then Some {| oldValue := Some old; newValue := None |}
           else None) ;;;
        ret (VBool true)) (remove_property target key st)
     ∧ holds_after
         (λ st', stopped st' e = false →
                 calls (log st') e = calls (log st) e + 1)
         (deleteProperty DEV (exec DEV fuel) (sched DEV fuel) target key st))
  ∧ (∀ old, own_property st target key = Some old →
       configurable st target key = false →
       deleteProperty DEV (exec DEV fuel) (sched DEV fuel) target key st
       = Ok (VBool false) st)
  ∧ (∀ o, objects st !! target = Some o → isArray o = true →
       configurable st target (KStr "length") = false)
  ∧ (own_property st target key = None → proto_of st target = VNull →
     deleteProperty DEV (exec DEV fuel) (sched DEV fuel) target key st
     = Ok (VBool true) (remove_property target key st)).
Proof.
  intros Hord He Ha Hsch _ Hs. split_and!.
  - intros old Ho Hc. rewrite (deleteProperty_own _ _ _ _ _ old) by done.
    split; [done|].
    set (st1 := remove_property target key st).
    pose proof (trigger_single_subscriber DEV fuel (TObject target) DELETE
                  (Some key)
                  (if DEV then Some {| oldValue := Some old;
                                       newValue := None |} else None)
                  e eff st1) as H.
    unfold st1 at 1 in H. rewrite trigger_order_remove in H.
    specialize (H Hord He Ha Hsch Hs).
    unfold bind. by destruct (trigger DEV _ _ _ _ _ _ st1).
  - intros old Ho Hc. by apply (deleteProperty_fixed _ _ _ _ _ old).
  - intros o Ho Harr. unfold configurable. rewrite Ho, Harr.
    by destruct (bool_decide (KStr "length" ∈ nonConfigurable o)).
  - intros Ho Hp. by apply deleteProperty_missing.
Qed.

(** [delete state.num] with the effect reading [state.num], and
    [delete list.length] with the effect reading [list.length]. *)
Lemma delete_reruns_subscriber_once_witness :
  holds_after
    (λ st', stopped st' 0 = false →
            calls (log st') 0 = calls (log observing_state) 0 + 1)
    (deleteProperty true (exec true 8) (sched true 8) 0 (KStr "num")
       observing_state)
  ∧ deleteProperty true (exec true 8) (sched true 8) 0 (KStr "length")
      array_state
    = Ok (VBool false) array_state.
Proof.
  split.
  - edestruct (delete_reruns_subscriber_once true 8 0 (KStr "num") 0
                 {| active := true;
                    raw := GetProp (VProxy 0 false) (KStr "num") Ret;
                    deps := [(TObject 0, Some (KStr "num"))];
                    computed := false; scheduler := None; onTrack := None;
                    onTrigger := None; onStop := None |}
                 observing_state) as (H & _).
    + vm_compute. reflexivity.
    + vm_compute. reflexivity.
    + vm_compute. reflexivity.
    + vm_compute. reflexivity.
    + right. reflexivity.
    + vm_compute. intros H. by apply elem_of_nil in H.
    + edestruct (H (VNumber 0)) as (_ & H3).
      * vm_compute. reflexivity.
      * vm_compute. reflexivity.
      * exact H3.
  - edestruct (delete_reruns_subscriber_once true 8 0 (KStr "length") 0
                 {| active := true;
                    raw := GetProp (VProxy 0 false) (KStr "length") Ret;
                    deps := [(TObject 0, Some (KStr "length"))];
                    computed := false; scheduler := None; onTrack := None;
                    onTrigger := None; onStop := None |}
                 array_state) as (_ & H & _).
    + vm_compute. reflexivity.
    + vm_compute. reflexivity.
    + vm_compute. reflexivity.
    + vm_compute. reflexivity.
    + right. reflexivity.
    + vm_compute. intros H. by apply elem_of_nil in H.
    + apply (H (VNumber 0)); vm_compute; reflexivity.
Defined.

(** X6. While an effect is running and tracking is on: a read by the
    get handler of a value that is not a ref returns the value, an
    object wrapped by [readonly] or [reactive], and the effect is
    notified by every later [trigger] on that key; a ref found under the
    key is read through its accessor instead; a [has] check subscribes
    the effect to the key in the same way, also when the key is missing;
    [ownKeys] subscribes the effect to ADD and DELETE of any key when the
    target is not an array, and when the target is an array to no
    trigger on a key at all, since those look under ['length']. *)
Theorem handler_reads_are_notified DEV exec_rec e st :
  shouldTrack st = true → head (activeReactiveEffectStack st) = Some e →
  (∀ isReadonly target key receiver res,
     isSymbol key && builtInSymbols_has key = false →
     Reflect_get exec_rec target key receiver st = Ok res st →
     isRef res = false →
     ∃ st',
       createGetter DEV exec_rec isReadonly target key receiver st
       = Ok (if isObject res
             then if isReadonly then readonly st res else reactive st res
             else res) st'
       ∧ ∀ kind, e ∈ trigger_order st' (TObject target) kind (Some key))
  ∧ (∀ isReadonly target key receiver r,
       isSymbol key && builtInSymbols_has key = false →
       Reflect_get exec_rec target key receiver st = Ok (VRef r) st →
       createGetter DEV exec_rec isReadonly target key receiver st
       = ref_value_get DEV exec_rec r st)
  ∧ (∀ target key res,
       Reflect_has exec_rec target key st = Ok res st →
       ∃ st',
         has DEV exec_rec target key st = Ok res st'
         ∧ ∀ kind, e ∈ trigger_order st' (TObject target) kind (Some key))
  ∧ (∀ target,
       ∃ st',
         ownKeys DEV target st
         = Ok (default [] ((λ o, (props o).*1) <$> objects st !! target)) st'
         ∧ (Array_isArray st (TObject target) = false → ∀ key,
              e ∈ trigger_order st' (TObject target) ADD key
              ∧ e ∈ trigger_order st' (TObject target) DELETE key)
         ∧ (Array_isArray st (TObject target) = true →
            (∀ k, e ∉ dep_of st (TObject target, k)) →
            ∀ kind key, kind ≠ CLEAR → key ≠ Some ITERATE_KEY →
              e ∉ trigger_order st' (TObject target) kind key)).
Proof.
  intros Hsh Hh. split_and!.
  - intros isReadonly target key receiver res Hk Hget Hres.
    exists (track DEV (TObject target) GET (Some key) st). split.
    + unfold createGetter, bind. rewrite Hget, Hk.
      destruct res; try done; simpl; unfold gets, canObserve;
        by rewrite objects_track.
    + intros kind.
      destruct (track_notified DEV (TObject target) GET (Some key) e st Hsh Hh)
        as (_ & _ & H & _).
      apply H. by eexists.
  - intros isReadonly target key receiver r Hk Hget.
    unfold createGetter, bind. by rewrite Hget, Hk.
  - intros target key res Hhas.
    exists (track DEV (TObject target) HAS (Some key) st). split.
    + unfold has, bind. by rewrite Hhas.
    + intros kind.
      destruct (track_notified DEV (TObject target) HAS (Some key) e st Hsh Hh)
        as (_ & _ & H & _).
      apply H. by eexists.
  - intros target.
    exists (track DEV (TObject target) ITERATE None st).
    destruct (track_notified DEV (TObject target) ITERATE None e st Hsh Hh)
      as (_ & _ & _ & _ & H5 & H6).
    split_and!.
    + unfold ownKeys, bind, modify, Reflect_ownKeys, gets.
      by rewrite objects_track.
    + intros Harr. by apply H5.
    + intros Harr. by apply H6.
Qed.

(** A [has] check of a key that the counter does not have, and a later
    ADD of that key. *)
Lemma handler_reads_are_notified_witness :
  ∃ st', has true (exec true 4) 0 (KStr "missing") (push 0 counter_state)
         = Ok (VBool false) st'
         ∧ 0 ∈ trigger_order st' (TObject 0) ADD (Some (KStr "missing")).
Proof.
  destruct (handler_reads_are_notified true (exec true 4) 0
              (push 0 counter_state) eq_refl eq_refl) as (_ & _ & H & _).
  destruct (H 0 (KStr "missing") (VBool false)) as (st' & Hh & Hn).
  - vm_compute. reflexivity.
  - exists st'. split; [exact Hh|apply Hn].
Defined.

(** X7. Every state a program reaches from the initial state satisfies
    the subscription invariant [Inv]. *)
Theorem reachable_states_satisfy_Inv DEV fuel b :
  Inv (final_state (exec DEV fuel b initial_state))
  ∧ holds_after Inv (exec DEV fuel b initial_state).
Proof.
  split; [apply Inv_final_state|].
  pose proof (exec_Inv DEV fuel b initial_state) as H.
  destruct (exec DEV fuel b initial_state); simpl in *; auto using Inv_initial.
Qed.

(** X8. Across every execution and every [trigger], no effect is
    removed or renumbered, its function, [computed] mark, scheduler and
    [onStop] never change, and a stopped effect is never active
    again. *)
Theorem effect_identity_is_stable DEV fuel st :
  (∀ b, holds_after (λ st', effects_persist st st'
                            ∧ log st `prefix_of` log st')
          (exec DEV fuel b st))
  ∧ (∀ target type key x,
       holds_after (λ st', effects_persist st st'
                           ∧ log st `prefix_of` log st')
         (trigger DEV (exec DEV fuel) (sched DEV fuel) target type key x st)).
Proof.
  split.
  - intros b.
    pose proof (exec_respects _ progress_respectable DEV fuel b st) as H.
    destruct (exec DEV fuel b st); [| |done];
      destruct H as (_ & ? & ?); by split.
  - intros target type key x.
    pose proof (trigger_respects _ progress_respectable DEV fuel target type
                  key x st) as H.
    destruct (trigger DEV _ _ target type key x st); [| |done];
      destruct H as (_ & ? & ?); by split.
Qed.

(** X9. After a run of an active effect that was not running, if the
    effect was not stopped and its dependencies were not cleared again
    during the run, the effect is in the dependency set of a location
    exactly when a read of that location was attributed to it during
    this run: what earlier runs subscribed it to is gone. *)
Theorem run_recollects_dependencies DEV fuel e eff st :
  Inv st → effects st !! e = Some eff → active eff = true →
  e ∉ activeReactiveEffectStack st →
  holds_after
    (λ st', stopped st' e = false →
            cleans (log st') e = cleans (log st) e + 1 →
            ∀ d, e ∈ dep_of st' d ↔ d ∈ last_run_reads (log st') e)
    (run (exec DEV fuel) e st).
Proof.
  intros HI He Ha Hs.
  pose proof (run_respects _ Inv_respectable DEV fuel e st) as HInv.
  rewrite (run_fresh _ _ eff) in * by done. unfold finally_pop in *.
  set (s0 := emit (EvCall e) (push e (cleanup e st))) in *.
  pose proof (exec_respects _ (reads_extend_respectable e) DEV fuel (raw eff)
                s0) as H.
  assert (live_tracks (log s0) e = [] ∧ last_run_reads (log s0) e = []
          ∧ cleans (log s0) e = cleans (log st) e + 1) as (Hl0 & Hr0 & Hc0).
  { subst s0. simpl. rewrite live_tracks_snoc, last_run_reads_snoc. simpl.
    rewrite decide_True by done. rewrite cleans_snoc, decide_False by done.
    rewrite (live_tracks_cleanup e eff), (cleans_cleanup e eff) by done.
    split_and!; [done|done|lia]. }
  assert (∀ st1, reads_extend e s0 st1 → Inv (pop st1) →
            stopped (pop st1) e = false →
            cleans (log (pop st1)) e = cleans (log st) e + 1 →
            ∀ d, e ∈ dep_of (pop st1) d ↔ d ∈ last_run_reads (log (pop st1)) e)
    as Hfin.
  { intros st1 (_ & _ & _ & Hx) [_ Hm Ht] Hns Hc d.
    destruct Hx as (X & HX1 & HX2); [left|exact Hns|simpl in Hc; lia|].
    rewrite Hm, Ht. simpl. rewrite HX1, HX2, Hl0, Hr0. done. }
  destruct (exec DEV fuel (raw eff) s0) as [v st1|v st1|]; [| |done];
    simpl in *; intros Hns Hc; apply Hfin; auto.
Qed.

(** A second run of the effect reading [state.num]. *)
Lemma run_recollects_dependencies_witness :
  0 ∈ dep_of (final_state (run (exec true 8) 0 observing_state))
        (TObject 0, Some (KStr "num"))
  ↔ (TObject 0, Some (KStr "num"))
    ∈ last_run_reads
        (log (final_state (run (exec true 8) 0 observing_state))) 0.
Proof.
  assert (run (exec true 8) 0 observing_state
          = Ok (VNumber 0) (final_state (run (exec true 8) 0 observing_state)))
    as Hrun by (vm_compute; reflexivity).
  assert (Inv observing_state) as HI by apply Inv_final_state.
  assert (effects observing_state !! 0
          = Some {| active := true;
                    raw := GetProp (VProxy 0 false) (KStr "num") Ret;
                    deps := [(TObject 0, Some (KStr "num"))];
                    computed := false; scheduler := None; onTrack := None;
                    onTrigger := None; onStop := None |}) as He
    by (vm_compute; reflexivity).
  assert (0 ∉ activeReactiveEffectStack observing_state) as Hs.
  { vm_compute. intros H. by apply elem_of_nil in H. }
  pose proof (run_recollects_dependencies true 8 0 _ observing_state HI He
                eq_refl Hs) as H.
  rewrite Hrun in H. apply H; vm_compute; reflexivity.
Defined.

(** X10. [trackChildRun] subscribes the running effect to every
    dependency of the computed and removes nobody; it adds nothing
    else. When one of these dependencies is triggered, the effect of the
    computed is run before a reader that is not itself computed. *)
Theorem computed_reader_subscribes child p st :
  Inv st → head (activeReactiveEffectStack st) = Some p →
  (∀ d, d ∈ deps_of st child → p ∈ dep_of (trackChildRun child st) d)
  ∧ (∀ e d, e ∈ dep_of st d → e ∈ dep_of (trackChildRun child st) d)
  ∧ (∀ e d, e ∈ dep_of (trackChildRun child st) d →
       e ∈ dep_of st d ∨ (e = p ∧ d ∈ deps_of st child))
  ∧ (is_computed st child = true → is_computed st p = false →
     ∀ target key kind, (target, Some key) ∈ deps_of st child →
       ∃ i j,
         trigger_order (trackChildRun child st) target kind (Some key) !! i
         = Some child
         ∧ trigger_order (trackChildRun child st) target kind (Some key) !! j
           = Some p
         ∧ i < j).
Proof.
  intros HI Hh.
  assert (∀ d, d ∈ deps_of st child → p ∈ dep_of (trackChildRun child st) d)
    as H1.
  { intros d Hd. unfold trackChildRun. rewrite Hh.
    by apply dep_of_subscribe_fold_all. }
  assert (∀ e d, e ∈ dep_of st d → e ∈ dep_of (trackChildRun child st) d)
    as H2.
  { intros e d He. unfold trackChildRun. rewrite Hh.
    by apply dep_of_subscribe_fold_mono. }
  split_and!; [done|done| |].
  - intros e d He. destruct (decide (e ∈ dep_of st d)) as [|Hn]; [by left|].
    right. destruct (dep_of_trackChildRun child st e d He Hn) as [Hh' Hd].
    split; [congruence|done].
  - intros Hc Hp target key kind Hd.
    set (st' := trackChildRun child st).
    assert (progress st st') as (_ & Hpers & _)
      by apply (R_trackChildRun _ progress_respectable).
    assert (p ∈ activeReactiveEffectStack st) as Hpin.
    { destruct (activeReactiveEffectStack st); simplify_eq/=. left. }
    assert (is_Some (effects st !! p)) as Hpe.
    { apply lookup_lt_is_Some. by apply (inv_stack st HI). }
    assert (is_computed st' child = true) as Hc'.
    { rewrite (is_computed_persist st st'); [done|done|].
      by apply is_computed_Some. }
    assert (is_computed st' p = false) as Hp'
      by by rewrite (is_computed_persist st st').
    assert (∀ e, e ∈ dep_of st' (target, Some key) →
                 e ∈ trigger_order st' target kind (Some key)) as Hord.
    { intros e He. destruct (decide (kind = CLEAR)) as [->|].
      - by eapply trigger_order_clear.
      - apply trigger_order_elem; [done|]. left. split; [by eexists|done]. }
    assert (child ∈ trigger_order st' target kind (Some key)) as Hci.
    { apply Hord, H2. by apply (inv_member st HI). }
    assert (p ∈ trigger_order st' target kind (Some key)) as Hpi
      by by apply Hord, H1.
    destruct (trigger_order_ok st' target kind (Some key))
      as ([ef cr] & (Hef & Hcr & Hpl & Hcm) & Heq).
    rewrite Heq in *. simpl in *.
    apply elem_of_app in Hci as [Hci|Hci].
    2:{ apply Hpl in Hci. congruence. }
    apply elem_of_app in Hpi as [Hpi|Hpi].
    { apply Hcm in Hpi. congruence. }
    apply list_elem_of_lookup in Hci as [i Hi].
    apply list_elem_of_lookup in Hpi as [j Hj].
    exists i, (length cr + j). split_and!.
    + by apply lookup_app_l_Some.
    + rewrite lookup_app_r by lia. by replace (length cr + j - length cr) with j by lia.
    + apply lookup_lt_Some in Hi. lia.
Qed.

(** A lazily created effect that reads a computed over [state.foo]. *)
Lemma computed_reader_subscribes_witness :
  1 ∈ dep_of (trackChildRun 0 (push 1 computed_state))
        (TObject 0, Some (KStr "foo")).
Proof.
  assert (Inv (push 1 computed_state)) as HI.
  { apply Inv_push; [vm_compute; by eexists|apply Inv_final_state]. }
  destruct (computed_reader_subscribes 0 1 (push 1 computed_state) HI
              eq_refl) as (H & _).
  apply H. vm_compute. left.
Defined.

(** X11. [effect] with [lazy] creates the effect and runs nothing.
    Without [lazy] it returns the new effect after its function has been
    entered exactly once (unless the function stops the effect). Given
    an effect instead of a function, it wraps the function of that
    effect in a new effect. *)
Theorem effect_runs_once_unless_lazy DEV fuel fn options st :
  Inv st →
  let e := length (effects st) in
  let st0 := set_effects (effects st ++ [new_effect fn options]) st in
  (opt_lazy options = true →
   effect (exec DEV fuel) (inl fn) options st = Ok e st0)
  ∧ (opt_lazy options = false →
     holds_after
       (λ st', (∃ eff', effects st' !! e = Some eff'
                        ∧ same_effect (new_effect fn options) eff')
               ∧ (stopped st' e = false →
                  calls (log st') e = calls (log st) e + 1))
       (effect (exec DEV fuel) (inl fn) options st)
     ∧ ∀ v st', effect (exec DEV fuel) (inl fn) options st = Ok v st' →
                v = e)
  ∧ (∀ e0 eff0, effects st !! e0 = Some eff0 →
       effect (exec DEV fuel) (inr e0) options st
       = effect (exec DEV fuel) (inl (raw eff0)) options st).
Proof.
  intros HI e st0.
  assert (effects st0 !! e = Some (new_effect fn options)) as He0.
  { subst e st0. simpl. by rewrite lookup_app_r, Nat.sub_diag by lia. }
  assert (e ∉ activeReactiveEffectStack st0) as Hs0.
  { intros Hin. apply (inv_stack st HI) in Hin. subst e. lia. }
  split_and!.
  - intros Hl. unfold effect, bind, ret, createReactiveEffect. simpl.
    by rewrite Hl.
  - intros Hl.
    assert (effect (exec DEV fuel) (inl fn) options st
            = match run (exec DEV fuel) e st0 with
              | Ok _ st' => Ok e st'
              | Thrown v st' => Thrown v st'
              | OutOfFuel => OutOfFuel
              end) as Heq.
    { unfold effect, bind, ret, createReactiveEffect. simpl. rewrite Hl.
      simpl. fold e. fold (new_effect fn options). fold st0.
      by destruct (run (exec DEV fuel) e st0). }
    rewrite Heq. split.
    2:{ intros v st'. destruct (run (exec DEV fuel) e st0); try done.
        by intros [= <- _]. }
    pose proof (run_calls_once DEV fuel e _ st0 He0 eq_refl Hs0) as Hc.
    pose proof (run_respects _ progress_respectable DEV fuel e st0) as Hp.
    destruct (run (exec DEV fuel) e st0) as [v st'|v st'|]; [| |done];
      (split; [destruct Hp as (_ & Hp & _); by apply Hp|exact Hc]).
  - intros e0 eff0 He. unfold effect, bind, ret. by rewrite He.
Qed.

(** [effect(() => {}, { lazy: true })] in the initial state. *)
Lemma effect_runs_once_unless_lazy_witness :
  effect (exec true 4) (inl (Ret VUndefined)) lazy_options initial_state
  = Ok 0 (set_effects [new_effect (Ret VUndefined) lazy_options]
            initial_state).
Proof.
  destruct (effect_runs_once_unless_lazy true 4 (Ret VUndefined) lazy_options
              initial_state Inv_initial) as (H & _).
  apply H. reflexivity.
Defined.

(** X12. A write through the mutable handler to an own key that does
    not hold a ref. When the raw new value is the old value and not
    [NaN], nothing is triggered and no effect is executed. When it is
    another value, or the old value is [NaN], an active effect that is
    the only subscriber of the key, has no scheduler and is not running,
    is executed exactly once (unless it is stopped meanwhile; the count
    is for an effect whose [onTrigger] callback, if it has one, is not
    called). *)
Theorem write_reruns_subscriber_once DEV fuel target key v old e eff st :
  own_property st target key = Some old → isRef old = false →
  dep_of st (TObject target, Some key) = [e] →
  effects st !! e = Some eff → active eff = true → scheduler eff = None →
  DEV = false ∨ onTrigger eff = None →
  e ∉ activeReactiveEffectStack st →
  (toRaw v = old → old ≠ VNaN →
   set DEV (exec DEV fuel) (sched DEV fuel) target key v (VProxy target false)
     st
   = Ok (VBool true) (write_property target key (toRaw v) st)
   ∧ ∀ e', calls (log (write_property target key (toRaw v) st)) e'
           = calls (log st) e')
  ∧ (toRaw v ≠ old ∨ old = VNaN →
     holds_after
       (λ st', stopped st' e = false →
               calls (log st') e = calls (log st) e + 1)
       (set DEV (exec DEV fuel) (sched DEV fuel) target key v
          (VProxy target false) st)).
Proof.
  intros Ho Hr Hdep He Ha Hsch _ Hs.
  rewrite (set_own _ _ _ _ _ _ old) by done.
  assert (trigger_order st (TObject target) SET (Some key) = [e]) as Hord.
  { by apply trigger_order_single. }
  split.
  - intros Heq Hn.
    assert (strict_eq (toRaw v) old = true) as -> by by apply strict_eq_true.
    done.
  - intros Hch.
    assert (strict_eq (toRaw v) old = false) as ->.
    { apply not_true_iff_false. intros [H1 H2]%strict_eq_true.
      by destruct Hch. }
    set (st1 := write_property target key (toRaw v) st).
    pose proof (trigger_single_subscriber DEV fuel (TObject target) SET
                  (Some key)
                  (if DEV then Some {| oldValue := Some old;
                                       newValue := Some (toRaw v) |} else None)
                  e eff st1) as H.
    unfold st1 at 1 in H. rewrite trigger_order_write in H.
    specialize (H Hord He Ha Hsch Hs).
    unfold bind. by destruct (trigger DEV _ _ _ _ _ _ st1).
Qed.

(** [state.num = 7] and [state.num = 0] with the effect reading
    [state.num], which holds 0. *)
Lemma write_reruns_subscriber_once_witness :
  holds_after
    (λ st', stopped st' 0 = false →
            calls (log st') 0 = calls (log observing_state) 0 + 1)
    (set true (exec true 8) (sched true 8) 0 (KStr "num") (VNumber 7)
       (VProxy 0 false) observing_state)
  ∧ set true (exec true 8) (sched true 8) 0 (KStr "num") (VNumber 0)
      (VProxy 0 false) observing_state
    = Ok (VBool true)
        (write_property 0 (KStr "num") (VNumber 0) observing_state).
Proof.
  split.
  - eapply (write_reruns_subscriber_once true 8 0 (KStr "num") (VNumber 7)
              (VNumber 0) 0 _ observing_state).
    + vm_compute. reflexivity.
    + reflexivity.
    + vm_compute. reflexivity.
    + vm_compute. reflexivity.
    + vm_compute. reflexivity.
    + vm_compute. reflexivity.
    + right. reflexivity.
    + vm_compute. intros H. by apply elem_of_nil in H.
    + by left.
  - edestruct (write_reruns_subscriber_once true 8 0 (KStr "num") (VNumber 0)
                 (VNumber 0) 0
                 {| active := true;
                    raw := GetProp (VProxy 0 false) (KStr "num") Ret;
                    deps := [(TObject 0, Some (KStr "num"))];
                    computed := false; scheduler := None; onTrack := None;
                    onTrigger := None; onStop := None |}
                 observing_state) as [H _].
    + vm_compute. reflexivity.
    + reflexivity.
    + vm_compute. reflexivity.
    + vm_compute. reflexivity.
    + vm_compute. reflexivity.
    + vm_compute. reflexivity.
    + right. reflexivity.
    + vm_compute. intros H. by apply elem_of_nil in H.
    + by apply H.
Defined.

(** X13. Creating a closure based computed runs nothing and leaves it
    dirty. Two reads in a row return the same value, leave the computed
    clean, and have entered the getter exactly once (unless the getter
    stopped its own effect). *)
Theorem computed_caches_between_reads DEV fuel getter setter_ st :
  Inv st →
  (∃ st1, computed_old (exec DEV fuel) getter setter_ st
          = Ok (length (refs st)) st1
          ∧ closure_dirty st1 (length (refs st)) = true
          ∧ log st1 = log st ∧ targetMap st1 = targetMap st)
  ∧ match read_twice DEV (exec DEV fuel) getter setter_ st with
    | Ok (v1, v2) st' =>
        v1 = v2
        ∧ closure_dirty st' (length (refs st)) = false
        ∧ (stopped st' (length (effects st)) = false →
           calls (log st') (length (effects st))
           = calls (log st) (length (effects st)) + 1)
    | _ => True
    end.
Proof.
  intros HI.
  set (r := length (refs st)). set (e := length (effects st)).
  set (c := {| dirty := true; value := VUndefined; runner := e;
               setter := setter_ |}).
  set (eff := {| active := true; raw := getter; deps := [];
                 computed := true; scheduler := Some (SchedComputed r);
                 onTrack := None; onTrigger := None; onStop := None |}).
  set (st1 := set_refs (refs st ++ [ComputedOld c])
                (set_effects (effects st ++ [eff]) st)).
  assert (computed_old (exec DEV fuel) getter setter_ st = Ok r st1) as Hnew
    by done.
  assert (refs st1 !! r = Some (ComputedOld c)) as Hr1.
  { subst r st1. simpl. by rewrite lookup_app_r, Nat.sub_diag by lia. }
  assert (effects st1 !! e = Some eff) as He1.
  { subst e st1. simpl. by rewrite lookup_app_r, Nat.sub_diag by lia. }
  assert (closure_dirty st1 r = true) as Hd1.
  { unfold closure_dirty. by rewrite Hr1. }
  split; [by exists st1|].
  unfold read_twice. unfold bind at 1. rewrite Hnew.
  unfold bind at 1. unfold ref_value_get at 1. rewrite Hr1.
  rewrite computed_get_dirty by done. simpl runner.
  assert (e ∉ activeReactiveEffectStack st1) as Hs1.
  { intros Hin. apply (inv_stack st HI) in Hin. subst e. lia. }
  pose proof (run_calls_once DEV fuel e eff st1 He1 eq_refl Hs1) as Hcalls.
  pose proof (run_refs_persist DEV fuel e st1) as Hrefs.
  pose proof (run_respects _ progress_respectable DEV fuel e st1) as Hprog.
  destruct (run (exec DEV fuel) e st1) as [v st2|v st2|]; [|done|done].
  simpl in Hcalls, Hrefs. destruct Hprog as (_ & Hpers & _).
  destruct (Hrefs r _ Hr1) as (o2 & Hr2 & Hsame).
  destruct o2 as [|c2|]; try done. simpl in Hsame.
  assert (isComputedRef st2 r = true) as Hic2.
  { unfold isComputedRef. by rewrite Hr2. }
  set (st3 := set_dirty r false (set_computed_value r v st2)).
  assert (refs st3 !! r
          = Some (ComputedOld {| dirty := false; value := v;
                                 runner := runner c2;
                                 setter := setter c2 |})) as Hr3.
  { subst st3. unfold set_dirty, set_computed_value, update_ref. simpl.
    rewrite !list_lookup_alter_eq, Hr2. done. }
  set (st4 := trackChildRun e st3).
  assert (refs st4 !! r = refs st3 !! r) as Hr4
    by (subst st4; by rewrite refs_trackChildRun).
  assert (closure_value st4 r = v) as Hv4.
  { unfold closure_value. by rewrite Hr4, Hr3. }
  assert (closure_dirty st4 r = false) as Hd4.
  { unfold closure_dirty. by rewrite Hr4, Hr3. }
  cbv zeta. fold st3. fold st4. rewrite Hv4.
  unfold bind at 1. unfold ref_value_get. rewrite Hr4, Hr3.
  rewrite computed_get_clean by done. simpl runner. rewrite Hsame.
  unfold ret. rewrite Hv4. split_and!; [done| |].
  - unfold closure_dirty. rewrite refs_trackChildRun. by rewrite Hr4, Hr3.
  - intros Hns. rewrite !calls_trackChildRun.
    assert (progress st3 (trackChildRun e (trackChildRun e st3)))
      as (_ & Hp34 & _).
    { eapply progress_trans; apply (R_trackChildRun _ progress_respectable). }
    assert (stopped st3 e = false) as Hns3.
    { destruct (stopped st3 e) eqn:H3; [|done].
      apply (stopped_persist _ _ _ Hp34) in H3. subst st4. congruence. }
    unfold st4. rewrite calls_trackChildRun.
    change (calls (log st2) e = calls (log st) e + 1). apply Hcalls.
    exact Hns3.
Qed.

(** [computed(() => 1)] read twice. *)
Lemma computed_caches_between_reads_witness :
  read_twice true (exec true 4) (Ret (VNumber 1)) None initial_state
  = Ok (VNumber 1, VNumber 1)
      (final_state
         (read_twice true (exec true 4) (Ret (VNumber 1)) None initial_state))
  ∧ calls (log (final_state
                  (read_twice true (exec true 4) (Ret (VNumber 1)) None
                     initial_state))) 0
    = 1.
Proof.
  assert (read_twice true (exec true 4) (Ret (VNumber 1)) None initial_state
          = Ok (VNumber 1, VNumber 1)
              (final_state
                 (read_twice true (exec true 4) (Ret (VNumber 1)) None
                    initial_state))) as Hrun by (vm_compute; reflexivity).
  split; [exact Hrun|].
  destruct (computed_caches_between_reads true 4 (Ret (VNumber 1)) None
              initial_state Inv_initial) as (_ & H).
  rewrite Hrun in H. destruct H as (_ & _ & H). apply H.
  vm_compute. reflexivity.
Defined.

(** X14. [cleanup] and [stop] of an effect change neither the
    dependency sets another effect is in, nor its [deps], nor whether it
    is stopped; in a state satisfying [Inv], [cleanup] removes the effect
    from every dependency set and removes nobody else. *)
Theorem stop_leaves_other_effects_alone e st :
  (∀ e' d, e' ≠ e → e' ∈ dep_of (cleanup e st) d ↔ e' ∈ dep_of st d)
  ∧ (∀ e', e' ≠ e → deps_of (cleanup e st) e' = deps_of st e')
  ∧ (∀ e' d, e' ≠ e → e' ∈ dep_of (stop e st) d ↔ e' ∈ dep_of st d)
  ∧ (∀ e', e' ≠ e → deps_of (stop e st) e' = deps_of st e'
                    ∧ stopped (stop e st) e' = stopped st e')
  ∧ (Inv st → is_Some (effects st !! e) →
     ∀ x d, x ∈ dep_of (cleanup e st) d ↔ x ∈ dep_of st d ∧ x ≠ e).
Proof.
  assert (∀ e' d, e' ≠ e → e' ∈ dep_of (cleanup e st) d ↔ e' ∈ dep_of st d)
    as H1.
  { intros e' d Hne. rewrite dep_of_cleanup_elem. tauto. }
  split_and!.
  - done.
  - intros e' Hne. by apply deps_of_cleanup_other.
  - intros e' d Hne. destruct (stop_targetMap e st) as [Ht| ->]; [|done].
    unfold dep_of at 1. rewrite Ht. by apply H1.
  - intros e' Hne. unfold stop.
    destruct (effects st !! e) as [eff|] eqn:He; [|done].
    destruct (active eff); [|done]. split.
    + unfold deps_of, update_effect. simpl.
      rewrite list_lookup_alter_ne by done.
      fold (deps_of (cleanup e st) e').
      destruct (onStop eff); simpl; by apply deps_of_cleanup_other.
    + unfold stopped, update_effect. simpl.
      rewrite list_lookup_alter_ne by done.
      assert (∀ s, effects s = effects (cleanup e st) →
                 match effects s !! e' with
                 | Some eff0 => negb (active eff0) | None => false end
                 = stopped st e') as Hx.
      { intros s ->. fold (stopped (cleanup e st) e').
        by rewrite stopped_cleanup. }
      destruct (onStop eff); by apply Hx.
  - intros HI [eff He] x d. rewrite dep_of_cleanup_elem. split.
    + intros [Hx Hd]. split; [done|]. intros ->. apply Hd; [|done].
      by apply (inv_member st HI).
    + intros [Hx Hne]. tauto.
Qed.

(** X15. While tracking is paused, or while no effect is running,
    [track] changes nothing, and a read through the get handler, the
    [has] handler or the [ownKeys] handler returns its result and leaves
    the state as it is; with no effect running, reading a computed
    subscribes nobody. *)
Theorem paused_reads_are_not_tracked DEV exec_rec st :
  shouldTrack st = false ∨ activeReactiveEffectStack st = [] →
  (∀ target type key, track DEV target type key st = st)
  ∧ (∀ isReadonly target key receiver res,
       isSymbol key && builtInSymbols_has key = false →
       Reflect_get exec_rec target key receiver st = Ok res st →
       isRef res = false →
       createGetter DEV exec_rec isReadonly target key receiver st
       = Ok (if isObject res
             then if isReadonly then readonly st res else reactive st res
             else res) st)
  ∧ (∀ target key res,
       Reflect_has exec_rec target key st = Ok res st →
       has DEV exec_rec target key st = Ok res st)
  ∧ (∀ target,
       ownKeys DEV target st
       = Ok (default [] ((λ o, (props o).*1) <$> objects st !! target)) st)
  ∧ (∀ child, activeReactiveEffectStack st = [] →
       trackChildRun child st = st).
Proof.
  intros Hp. split_and!.
  - intros. by apply track_paused.
  - intros isReadonly target key receiver res Hk Hget Hres.
    unfold createGetter, bind. rewrite Hget, Hk.
    destruct res; try done; simpl; unfold gets, modify;
      by rewrite track_paused.
  - intros target key res Hhas. unfold has, bind, modify, ret.
    by rewrite Hhas, track_paused.
  - intros target. unfold ownKeys, bind, modify, Reflect_ownKeys, gets.
    by rewrite track_paused.
  - intros child Hs. unfold trackChildRun. by rewrite Hs.
Qed.

(** A read of [state.n] by the counter effect while tracking is
    paused. *)
Lemma paused_reads_are_not_tracked_witness :
  createGetter true (exec true 4) false 0 (KStr "n") (VProxy 0 false)
    (pauseTracking (push 0 counter_state))
  = Ok (VNumber 1) (pauseTracking (push 0 counter_state)).
Proof.
  destruct (paused_reads_are_not_tracked true (exec true 4)
              (pauseTracking (push 0 counter_state))) as (_ & H & _).
  - left. reflexivity.
  - apply (H false 0 (KStr "n") (VProxy 0 false) (VNumber 1));
      vm_compute; reflexivity.
Defined.

(** X16. [isSameKey] is false for a missing first key, is symmetric, and
    is true exactly for two attributes with the same content or two
    directives with the same simple expression; two directives with a
    compound expression are never the same key. It throws exactly when
    both are attributes and a value is missing, or both are directives
    and an expression is missing. On what it accepts it is
    transitive. *)
Theorem isSameKey_spec a b :
  isSameKey None b = Some false
  ∧ isSameKey (Some a) b = isSameKey (Some b) a
  ∧ (isSameKey (Some a) b = Some true ↔ a = b ∧ comparable_key a = true)
  ∧ (isSameKey (Some a) b = None ↔
       (∃ v, a = ATTRIBUTE v ∧ ∃ w, b = ATTRIBUTE w ∧ (v = None ∨ w = None))
       ∨ (∃ v, a = DIRECTIVE v ∧ ∃ w, b = DIRECTIVE w
               ∧ (v = None ∨ w = None)))
  ∧ (∀ c, isSameKey (Some a) b = Some true →
          isSameKey (Some b) c = Some true →
          isSameKey (Some a) c = Some true).
Proof.
  split_and!.
  - done.
  - destruct a as [[x|]|[[c s|l]|]], b as [[y|]|[[c' s'|l']|]]; simpl;
      try done.
    + by rewrite (bool_decide_ext (x = y) (y = x)).
    + rewrite (bool_decide_ext (s = s') (s' = s)) by done.
      by rewrite (bool_decide_ext (c = c') (c' = c)).
  - apply isSameKey_true.
  - apply isSameKey_throws.
  - intros c0 Hab Hbc.
    apply isSameKey_true in Hab as [-> ?]. apply isSameKey_true in Hbc as [-> ?].
    by apply isSameKey_true.
Qed.

(** X17. After the branches that follow a [v-if] were attached one by
    one through [getParentCondition], the conditional of the [v-if]
    tests the conditions of the branches in their order, each with the
    code of its children, and ends in the code of the last branch when
    that branch has no condition, and in the comment placeholder
    otherwise; a branch without a condition that is not the last one
    leaves no code behind. [getParentCondition] returns on the result,
    and returns its last conditional. *)
Theorem branches_attach_in_order test children branches :
  (∀ b, b ∈ branches → b.1 = None → isConditional b.2 = false) →
  ∃ root,
    attach_branches (createCodegenNodeForBranch (Some test) children) branches
    = Some root
    ∧ (condition_chain root).1
      = (test, children) :: omap (λ b, (λ t, (t, b.2)) <$> b.1) branches
    ∧ (condition_chain root).2
      = final_alternate branches (Some (JS_CALL_EXPRESSION "CREATE_COMMENT"))
    ∧ ∃ p t c a, getParentCondition root = Some p
        ∧ p = JS_CONDITIONAL_EXPRESSION t c a ∧ isConditional a = false.
Proof.
  intros Hbs.
  destruct (attach_branches_chain branches
              (createCodegenNodeForBranch (Some test) children))
    as (root & Hr & Hc1 & Hc2); [done|done|].
  exists root. split_and!; [done|done|done|].
  assert (is_Some (getParentCondition root)) as [p Hp].
  { apply getParentCondition_returns. by rewrite Hc1. }
  destruct (getParentCondition_last root p Hp) as (t & c & a & -> & Ha).
  eauto 10.
Qed.

(** [v-if], [v-else-if], [v-else]. *)
Lemma branches_attach_in_order_witness :
  ∃ root,
    attach_branches
      (createCodegenNodeForBranch (Some (SIMPLE_EXPRESSION "a" false))
         (VNODE_CALL "div"))
      [(Some (SIMPLE_EXPRESSION "b" false), VNODE_CALL "p");
       (None, VNODE_CALL "span")]
    = Some root
    ∧ (condition_chain root).1
      = [(SIMPLE_EXPRESSION "a" false, VNODE_CALL "div");
         (SIMPLE_EXPRESSION "b" false, VNODE_CALL "p")]
    ∧ (condition_chain root).2 = Some (VNODE_CALL "span").
Proof.
  destruct (branches_attach_in_order (SIMPLE_EXPRESSION "a" false)
              (VNODE_CALL "div")
              [(Some (SIMPLE_EXPRESSION "b" false), VNODE_CALL "p");
               (None, VNODE_CALL "span")])
    as (root & H1 & H2 & H3 & _).
  - intros b Hb _. apply elem_of_cons in Hb as [->|Hb]; [reflexivity|].
    apply elem_of_cons in Hb as [->|Hb]; [reflexivity|].
    by apply elem_of_nil in Hb.
  - exists root. split_and!; [exact H1|exact H2|exact H3].
Defined.

(** X18. The loop that numbers the branches returns the number of
    branches of the [IfNode]s before the node, and 0 when the node is
    not among the siblings; so the keys of the branches of an [IfNode]
    are all below the keys of every later [IfNode] of the same
    parent. *)
Theorem branch_keys_are_disjoint siblings :
  (∀ n fuel, (n + 2 ≤ fuel)%nat →
     key_loop fuel siblings (Z.of_nat n) 0 = Some (branches_before siblings n))
  ∧ (∀ fuel, key_loop (S fuel) siblings (-1) 0 = Some 0)
  ∧ (∀ p q bp, p < q → siblings !! p = Some (IF bp) →
       (branches_before siblings p + length bp
        ≤ branches_before siblings q)%nat).
Proof.
  split_and!.
  - intros n fuel Hf. replace fuel with (S (S n) + (fuel - (n + 2))) by lia.
    by rewrite key_loop_spec.
  - done.
  - intros p q bp Hpq Hp.
    etrans; [|apply (branches_before_mono siblings (S p) q); lia].
    rewrite branches_before_S, Hp. done.
Qed.

(** X19. [trigger] deals with the computed runners before the plain
    effects. Where the target has a dependency map and every computed
    runner collected for the operation belongs to a closure based
    computed, the first pass over the computed runners succeeds and only
    sets dirty flags (and logs): no effect is called, no subscription,
    object or cached value changes and the stack is as it was. Every one
    of those computed refs is dirty afterwards, and [trigger] is then
    exactly the pass over the plain effects, none of which is a computed
    runner, from that state: an effect that reads a computed ref when it
    is re-run finds it dirty and recomputes it. *)
Theorem computed_invalidated_before_plain_runs DEV exec_rec sched_rec target
    type key x depsMap st :
  alist_get target (targetMap st) = Some depsMap →
  (∀ c, c ∈ (collect_runners st depsMap target type key).2 →
        ∃ r, closure_scheduled st c r) →
  ∃ st1,
    forEach (collect_runners st depsMap target type key).2
      (λ e, scheduleRun DEV exec_rec sched_rec e target type key x) st
    = Ok tt st1
    ∧ trigger DEV exec_rec sched_rec target type key x st
      = forEach (collect_runners st depsMap target type key).1
          (λ e, scheduleRun DEV exec_rec sched_rec e target type key x) st1
    ∧ only_invalidated st st1
    ∧ (∀ c r, c ∈ (collect_runners st depsMap target type key).2 →
              closure_scheduled st c r → closure_dirty st1 r = true)
    ∧ (∀ e, e ∈ (collect_runners st depsMap target type key).1 →
            is_computed st e = false).
Proof.
  intros Hm Hall.
  destruct (forEach_closure DEV exec_rec sched_rec target type key x _ st Hall)
    as (st1 & Hrun & Hinv & Hd).
  exists st1. split_and!; [done| |done|done|].
  - unfold trigger. rewrite Hm.
    destruct (collect_runners st depsMap target type key) as [ef cr] eqn:Hc.
    simpl in *. unfold bind. by rewrite Hrun.
  - intros e He.
    destruct (collect_runners_ok st depsMap target type key) as (_&_&Hp&_).
    by apply Hp.
Qed.

(** A write to [foo] in a state where the computed ref 0 has been read
    and is clean: the ref is dirty after [trigger]. *)
Lemma computed_invalidated_before_plain_runs_witness :
  ∃ st1,
    trigger true (exec true 4) (sched true 4) (TObject 0) SET
      (Some (KStr "foo")) None computed_state
    = Ok tt st1
    ∧ closure_dirty computed_state 0 = false
    ∧ closure_dirty st1 0 = true.
Proof.
  assert (closure_scheduled computed_state 0 0) as Hcs.
  { eexists. split_and!; vm_compute; reflexivity. }
  edestruct (computed_invalidated_before_plain_runs true (exec true 4)
               (sched true 4) (TObject 0) SET (Some (KStr "foo")) None
               (default [] (alist_get (TObject 0) (targetMap computed_state)))
               computed_state) as (st1 & H1 & H2 & _ & H4 & _).
  - vm_compute. reflexivity.
  - intros c Hc. vm_compute in Hc. apply list_elem_of_singleton in Hc as ->.
    exists 0. exact Hcs.
  - exists st1. split_and!.
    + rewrite H2. vm_compute. reflexivity.
    + vm_compute. reflexivity.
    + apply (H4 0 0); [vm_compute; left|exact Hcs].
Defined.

(** X20. Assigning to the [value] of a computed ref that was just
    created, for both implementations of [computed]. Created from a getter
    alone, the ref is lazy (dirty, nothing logged or subscribed by the
    creation; the class based one is flagged read-only) and the
    assignment changes nothing: it logs the warning [Write operation
    failed: computed value is readonly] in a development build and does
    nothing at all otherwise. Created from [get] and [set], the assignment
    is the call of [set] with the new value, and the class based ref is
    not flagged read-only. *)
Theorem computed_write_goes_to_setter DEV exec_rec sched_rec getter dbg v st :
  (∃ st1, computed_old exec_rec getter None st = Ok (length (refs st)) st1
          ∧ create_and_write_old DEV exec_rec sched_rec getter None v st
            = Ok tt (if DEV
                     then emit (EvWarn
                       "Write operation failed: computed value is readonly")
                       st1
                     else st1))
  ∧ (∃ st1, computed_new DEV getter None dbg st = Ok (length (refs st)) st1
            ∧ log st1 = log st ∧ targetMap st1 = targetMap st
            ∧ closure_dirty st1 (length (refs st)) = true
            ∧ (∃ c, refs st1 !! length (refs st) = Some (ComputedImpl c)
                    ∧ IS_READONLY c = true)
            ∧ create_and_write_new DEV exec_rec sched_rec getter None dbg v st
              = Ok tt (if DEV
                       then emit (EvWarn
                         "Write operation failed: computed value is readonly")
                         st1
                       else st1))
  ∧ (∀ f, ∃ st1,
       computed_old exec_rec getter (Some f) st = Ok (length (refs st)) st1
       ∧ create_and_write_old DEV exec_rec sched_rec getter (Some f) v st
         = (exec_rec (f v) ;;; ret tt) st1)
  ∧ (∀ f, ∃ st1,
       computed_new DEV getter (Some f) dbg st = Ok (length (refs st)) st1
       ∧ (∃ c, refs st1 !! length (refs st) = Some (ComputedImpl c)
               ∧ IS_READONLY c = false)
       ∧ create_and_write_new DEV exec_rec sched_rec getter (Some f) dbg v st
         = (exec_rec (f v) ;;; ret tt) st1).
Proof.
  assert (∀ s, ∃ st1 c,
            computed_new DEV getter s dbg st = Ok (length (refs st)) st1
            ∧ refs st1 !! length (refs st) = Some (ComputedImpl c)
            ∧ _setter c = s
            ∧ IS_READONLY c = match s with None => true | Some _ => false end
            ∧ log st1 = log st ∧ targetMap st1 = targetMap st) as Hnew.
  { intros s.
    destruct (computed_new_created DEV getter s dbg st)
      as (st1 & eff & H1 & H2 & _ & _ & _ & _ & _ & _ & H9 & H10 & _).
    exists st1. eexists. split; [exact H1|]. rewrite H2.
    rewrite lookup_app_r, Nat.sub_diag by lia. simpl.
    split_and!; done. }
  assert (∀ s st1, computed_old exec_rec getter s st = Ok (length (refs st)) st1
            → ∃ c, refs st1 !! length (refs st) = Some (ComputedOld c)
                   ∧ setter c = s) as Hold.
  { intros s st1. rewrite computed_old_created. intros [= <-]. simpl.
    rewrite lookup_app_r, Nat.sub_diag by lia. simpl. eauto. }
  split_and!.
  - eexists. split; [apply computed_old_created|].
    unfold create_and_write_old, bind at 1. rewrite computed_old_created.
    unfold ref_value_set. simpl.
    rewrite lookup_app_r, Nat.sub_diag by lia. simpl. by destruct DEV.
  - destruct (Hnew None) as (st1 & c & H1 & H2 & H3 & H4 & H5 & H6).
    exists st1. split_and!; try done.
    + unfold closure_dirty. rewrite H2.
      destruct (computed_new_created DEV getter None dbg st)
        as (st1' & eff & H1' & H2' & _).
      rewrite H1 in H1'. injection H1' as <-. rewrite H2' in H2.
      rewrite lookup_app_r, Nat.sub_diag in H2 by lia. simpl in H2.
      by injection H2 as <-.
    + eauto.
    + unfold create_and_write_new, bind at 1. rewrite H1.
      unfold ref_value_set. rewrite H2, H3. simpl. by destruct DEV.
  - intros f. eexists. split; [apply computed_old_created|].
    unfold create_and_write_old, bind at 1. rewrite computed_old_created.
    unfold ref_value_set. simpl.
    rewrite lookup_app_r, Nat.sub_diag by lia. done.
  - intros f. destruct (Hnew (Some f)) as (st1 & c & H1 & H2 & H3 & H4 & _).
    exists st1. split_and!; [done|eauto|].
    unfold create_and_write_new, bind at 1. rewrite H1.
    unfold ref_value_set. rewrite H2, H3. done.
Qed.
